(** * Tiny World Explorer: the camera hook and the view transform

    A shallow embedding of [useCamera] (the capture-device hook) and of the
    pan / zoom / kernel logic of [App.jsx], with the properties the design
    document states about them.

    Conventions.
    - The numbers of the view and of the preferences are finite and are
      only compared, negated, halved and clamped there: they are kept as
      exact rationals ([Q]), and [===] on them is [Qeq_bool].  Where a
      quotient can leave the finite numbers ([handleMouseMove]) the result
      is a [Num], which has the infinities and NaN.  The convolution
      kernels are arithmetic whose rounding matters: they are computed on
      IEEE 754 doubles (primitive [float]).
    - React state is a record field; a state setter is a record update.  The
      passive effects that React runs after a commit are folded into the
      event that caused the commit.
    - Browser objects (media streams, recorders, the console) live in the
      same record, and every observable platform call is appended to a
      chronological [trace]. *)

From Stdlib Require Import QArith Qminmax Qabs Lqa.
From Stdlib Require Import Floats Uint63.
From stdpp Require Import gmap strings list.

Local Open Scope Q_scope.

(* ===================================================================== *)
(** * Transform engine ([App.jsx]) *)
(* ===================================================================== *)

Module Transform.

(** ** Numbers

    The view works on finite numbers (pointer positions, layout sizes, the
    zoom), which are kept as exact rationals.  One division in
    [handleMouseMove] can leave them: a quotient by a zero layout size is an
    infinity or NaN.  [Num] is a JavaScript number with these values. *)
Inductive Num : Type :=
| Fin (q : Q)
| PosInf
| NegInf
| NaN.

(** [a / b] for finite [a] and [b]; a layout size is never negative zero. *)
Definition divide (a b : Q) : Num :=
  if Qeq_bool b 0 then
    if Qeq_bool a 0 then NaN
    else if Qle_bool 0 a then PosInf else NegInf
  else Fin (a / b).

(** [a + b] *)
Definition plus (a b : Num) : Num :=
  match a, b with
  | NaN, _ | _, NaN => NaN
  | Fin x, Fin y => Fin (x + y)
  | PosInf, NegInf | NegInf, PosInf => NaN
  | PosInf, _ | _, PosInf => PosInf
  | NegInf, _ | _, NegInf => NegInf
  end.

(** [Math.min(a, b)] and [Math.max(a, b)]: NaN if either argument is. *)
Definition Math_min (a b : Num) : Num :=
  match a, b with
  | NaN, _ | _, NaN => NaN
  | NegInf, _ | _, NegInf => NegInf
  | PosInf, x | x, PosInf => x
  | Fin x, Fin y => Fin (Qmin x y)
  end.

Definition Math_max (a b : Num) : Num :=
  match a, b with
  | NaN, _ | _, NaN => NaN
  | PosInf, _ | _, PosInf => PosInf
  | NegInf, x | x, NegInf => x
  | Fin x, Fin y => Fin (Qmax x y)
  end.

(** [a === b] on numbers: NaN equals nothing, not even itself. *)
Definition num_eq (a b : Num) : Prop :=
  match a, b with
  | Fin x, Fin y => x == y
  | PosInf, PosInf | NegInf, NegInf => True
  | _, _ => False
  end.

(** [const [pan, setPan] = useState({ x: 0, y: 0 })] *)
Record Pan : Type := mkPan { px : Num; py : Num }.

Definition origin : Pan := {| px := Fin 0; py := Fin 0 |}.

(** Two pans hold the same numbers. *)
Definition pan_eq (p q : Pan) : Prop :=
  num_eq (px p) (px q) /\ num_eq (py p) (py q).

(** The zoom slider of [ControlPanel.jsx]: [min={1} max={5}]. *)
Definition minScale : Q := 1.
Definition maxScale : Q := 5.

(** A range input keeps its value between [min] and [max]. *)
Definition rangeInput (lo hi v : Q) : Q := Qmax lo (Qmin hi v).

(** [Math.max(-maxPan, Math.min(maxPan, v))] *)
Definition clamp (maxPan : Q) (v : Num) : Num :=
  Math_max (Fin (- maxPan)) (Math_min (Fin maxPan) v).

(** [handlePanChange(newX, newY)]: the absolute pan request (the minimap).
    Returns the next value of the [pan] state. *)
Definition handlePanChange (zoom : Q) (pan : Pan) (newX newY : Q) : Pan :=
  if Qle_bool zoom 1 then pan
  else
    let maxPan := (zoom - 1) / 2 in
    {| px := clamp maxPan (Fin newX); py := clamp maxPan (Fin newY) |}.

(** The functional updater handed to [setPan] in [handleMouseMove]. *)
Definition panDelta (zoom : Q) (prev : Pan) (panDeltaX panDeltaY : Num)
  : Pan :=
  let maxPan := (zoom - 1) / 2 in
  let nx := plus (px prev) panDeltaX in
  let ny := plus (py prev) panDeltaY in
  {| px := clamp maxPan nx; py := clamp maxPan ny |}.

(** [effectivePan] of [videoStyle]: the pan that reaches the CSS transform. *)
Definition effectivePan (zoom : Q) (pan : Pan) : Pan :=
  if Qeq_bool zoom 1 then {| px := Fin 0; py := Fin 0 |} else pan.

(** The effect with dependency [filters.zoom]. *)
Definition panResetEffect (zoom : Q) (pan : Pan) : Pan :=
  if Qeq_bool zoom 1 then {| px := Fin 0; py := Fin 0 |} else pan.

(** The part of the [App] component state the gestures read and write. *)
Record View : Type := mkView {
  zoom : Q;                  (* filters.zoom *)
  pan : Pan;
  splitMode : bool;
  isDraggingRef : bool;
  lastMousePosRef : Q * Q
}.

Definition initialView : View :=
  {| zoom := 1; pan := origin; splitMode := false;
     isDraggingRef := false; lastMousePosRef := (0, 0) |}.

Definition setZoom (z : Q) (v : View) : View :=
  {| zoom := z; pan := panResetEffect z (pan v); splitMode := splitMode v;
     isDraggingRef := isDraggingRef v; lastMousePosRef := lastMousePosRef v |}.

Definition withPan (p : Pan) (v : View) : View :=
  {| zoom := zoom v; pan := p; splitMode := splitMode v;
     isDraggingRef := isDraggingRef v; lastMousePosRef := lastMousePosRef v |}.

Definition handleMouseDown (clientX clientY : Q) (v : View) : View :=
  if negb (Qle_bool (zoom v) 1) && negb (splitMode v) then
    {| zoom := zoom v; pan := pan v; splitMode := splitMode v;
       isDraggingRef := true; lastMousePosRef := (clientX, clientY) |}
  else v.

(** [video] is [videoRef.current]: [None] while no video element is
    mounted, otherwise its [offsetWidth] and [offsetHeight]. *)
Definition handleMouseMove (clientX clientY : Q) (video : option (Q * Q))
    (v : View) : View :=
  match isDraggingRef v, video with
  | true, Some (w, h) =>
      let deltaX := clientX - fst (lastMousePosRef v) in
      let deltaY := clientY - snd (lastMousePosRef v) in
      let panDeltaX := divide deltaX w in
      let panDeltaY := divide deltaY h in
      {| zoom := zoom v;
         pan := panDelta (zoom v) (pan v) panDeltaX panDeltaY;
         splitMode := splitMode v;
         isDraggingRef := true;
         lastMousePosRef := (clientX, clientY) |}
  | _, _ => v
  end.

Definition handleMouseUp (v : View) : View :=
  {| zoom := zoom v; pan := pan v; splitMode := splitMode v;
     isDraggingRef := false; lastMousePosRef := lastMousePosRef v |}.

Definition toggleSplit (v : View) : View :=
  {| zoom := zoom v; pan := pan v; splitMode := negb (splitMode v);
     isDraggingRef := isDraggingRef v; lastMousePosRef := lastMousePosRef v |}.

(** What can happen to the view. *)
Inductive Gesture : Type :=
| ZoomSlider (raw : Q)              (* the slider is moved *)
| SetFilters (z : Q)                (* setFilters from reset or from storage *)
| PanChange (newX newY : Q)         (* Minimap onPanChange *)
| MouseDown (clientX clientY : Q)
| MouseMove (clientX clientY : Q) (video : option (Q * Q))
| MouseUp
| ToggleSplit.

Definition step (g : Gesture) (v : View) : View :=
  match g with
  | ZoomSlider raw => setZoom (rangeInput minScale maxScale raw) v
  | SetFilters z => setZoom z v
  | PanChange x y => withPan (handlePanChange (zoom v) (pan v) x y) v
  | MouseDown x y => handleMouseDown x y v
  | MouseMove x y video => handleMouseMove x y video v
  | MouseUp => handleMouseUp v
  | ToggleSplit => toggleSplit v
  end.

Definition run (gs : list Gesture) (v : View) : View :=
  fold_left (fun acc g => step g acc) gs v.

Definition reachable (v : View) : Prop := exists gs, v = run gs initialView.

End Transform.

(* ===================================================================== *)
(** * Convolution kernels ([App.jsx]) *)
(* ===================================================================== *)

Module Kernels.

(** The kernels are arithmetic on the slider values, whose result depends
    on rounding: here a JavaScript number is an IEEE 754 binary64 value, a
    primitive [float], and the operators are those of the processor. *)

(** A slider position: an integer between [min] and [max], as
    [parseFloat(e.target.value)] returns it. *)
Definition position (n : nat) : float :=
  PrimFloat.of_uint63 (Uint63.of_Z (Z.of_nat n)).

(** [sharpenMatrix] and [embossMatrix] are template strings of nine
    numbers separated by blanks.  A number is written with the digits that
    read back as the same double, so the model keeps the nine doubles. *)
Definition sharpenMatrix (sharpen : float) : list float :=
  let s := ((sharpen / 100) * 15)%float in
  [0; - s; 0; - s; 1 + 4 * s; - s; 0; - s; 0]%float.

Definition embossMatrix (emboss : float) : list float :=
  let s := ((emboss / 100) * 3)%float in
  [-2 * s; -1 * s; 0; -1 * s; 1; 1 * s; 0; 1 * s; 2 * s]%float.

(** The number a double stands for; infinities and NaN stand for none. *)
Definition value (x : float) : option Q :=
  match Prim2SF x with
  | S754_zero _ => Some 0
  | S754_finite negative m e =>
      let z := if negative then Z.neg m else Z.pos m in
      Some (inject_Z z * Qpower 2 e)
  | S754_infinity _ => None
  | S754_nan => None
  end.

(** The numbers of a kernel, if all nine entries are finite. *)
Fixpoint values (k : list float) : option (list Q) :=
  match k with
  | [] => Some []
  | x :: k' =>
      match value x, values k' with
      | Some v, Some vs => Some (v :: vs)
      | _, _ => None
      end
  end.

(** The kernels as the design document writes them, over the reals. *)
Definition spec_sharpen_kernel (sharpenIntensity : Q) : list Q :=
  let s := (sharpenIntensity / 100) * 15 in
  [0; - s; 0; - s; 1 + 4 * s; - s; 0; - s; 0].

Definition spec_emboss_kernel (embossIntensity : Q) : list Q :=
  let e := (embossIntensity / 100) * 3 in
  [- (2 * e); - (1 * e); 0; - (1 * e); 1; 1 * e; 0; 1 * e; 2 * e].

Definition identityKernel : list Q := [0; 0; 0; 0; 1; 0; 0; 0; 0].

Definition kernelSum (k : list Q) : Q := fold_right Qplus 0 k.

(** Entry-wise equality of kernels as numbers. *)
Definition kernel_eq (k1 k2 : list Q) : Prop := Forall2 Qeq k1 k2.

(** Entry-wise agreement of kernels up to [eps]. *)
Definition kernel_near (eps : Q) (k1 k2 : list Q) : Prop :=
  Forall2 (fun a b => Qabs (a - b) <= eps) k1 k2.

End Kernels.

(* ===================================================================== *)
(** * Preferences and the video style ([App.jsx]) *)
(* ===================================================================== *)

Module Settings.

(** The [filters] state. *)
Record Filters : Type := mkFilters {
  f_zoom : Q;
  brightness : Q;
  contrast : Q;
  saturate : Q;
  sepia : Q;
  invert : Q;
  edgeDetection : bool;
  falseColor : bool;
  emboss : Q;
  sharpen : Q;
  grid : bool;
  crosshair : bool
}.

Definition DEFAULT_FILTERS : Filters :=
  {| f_zoom := 1; brightness := 100; contrast := 100; saturate := 100;
     sepia := 0; invert := 0; edgeDetection := false; falseColor := false;
     emboss := 0; sharpen := 0; grid := false; crosshair := false |}.

(** The object the save effect serialises. *)
Record SettingsObject : Type := mkSettings {
  s_filters : Filters;
  s_aspectRatio : string;
  s_compatibilityMode : bool
}.

(** What [JSON.parse] hands back: every property may be missing. *)
Record Parsed : Type := mkParsed {
  p_filters : option Filters;
  p_aspectRatio : option string;
  p_compatibilityMode : option bool
}.

Definition asParsed (s : SettingsObject) : Parsed :=
  {| p_filters := Some (s_filters s);
     p_aspectRatio := Some (s_aspectRatio s);
     p_compatibilityMode := Some (s_compatibilityMode s) |}.

(** [JSON.stringify] and [JSON.parse] belong to the platform.  [text] is the
    type of the strings kept in [localStorage]; [parse] answers [None] where
    [JSON.parse] throws.  Parsing what was just serialised gives the object
    back: its numbers are finite and it has no other kind of value. *)
Class JSON : Type := {
  text : Type;
  stringify : SettingsObject -> text;
  parse : text -> option Parsed;
  parse_stringify : forall s, parse (stringify s) = Some (asParsed s)
}.

(** [`camera_settings_${selectedDeviceId}`] *)
Definition storageKey (selectedDeviceId : string) : string :=
  String.append "camera_settings_" selectedDeviceId.

(** A string is falsy exactly when it is empty. *)
Definition truthy (s : string) : bool :=
  match s with EmptyString => false | String _ _ => true end.

(** [parsed.aspectRatio || '3/2'] *)
Definition aspectRatioOrDefault (a : option string) : string :=
  match a with
  | Some s => if truthy s then s else "3/2"
  | None => "3/2"
  end.

(** [parsed.filters || DEFAULT_FILTERS]: an object is always truthy. *)
Definition filtersOrDefault (f : option Filters) : Filters :=
  match f with Some f => f | None => DEFAULT_FILTERS end.

(** The preference state of [App] together with the hook's
    [selectedDeviceId] and the browser's [localStorage].  React compares a
    new state with the current one by [Object.is]: for the [filters] object
    that is identity, and the only object ever stored twice is the constant
    [DEFAULT_FILTERS]; [filtersIsDefault] tells whether the state is that
    very object. *)
Record App `{JSON} : Type := mkApp {
  filters : Filters;
  filtersIsDefault : bool;
  aspectRatio : string;
  compatibilityMode : bool;
  isLoadedRef : bool;
  selectedDeviceId : string;
  localStorage : gmap string text
}.

Section WithJSON.
Context `{J : JSON}.

Definition initialApp (storage : gmap string text) : App :=
  {| filters := DEFAULT_FILTERS; filtersIsDefault := true;
     aspectRatio := "3/2";
     compatibilityMode := false; isLoadedRef := false;
     selectedDeviceId := ""; localStorage := storage |}.

(** The effect headed [// Load Settings], up to the call of [setTimeout]. *)
Definition loadSettings (a : App) : App :=
  if truthy (selectedDeviceId a) then
    match localStorage a !! storageKey (selectedDeviceId a) with
    | Some saved =>
        match parse saved with
        | Some parsed =>
            {| filters := filtersOrDefault (p_filters parsed);
               filtersIsDefault :=
                 match p_filters parsed with
                 | Some _ => false
                 | None => true
                 end;
               aspectRatio := aspectRatioOrDefault (p_aspectRatio parsed);
               compatibilityMode :=
                 match p_compatibilityMode parsed with
                 | Some b => b
                 | None => compatibilityMode a
                 end;
               isLoadedRef := false;
               selectedDeviceId := selectedDeviceId a;
               localStorage := localStorage a |}
        | None =>
            {| filters := DEFAULT_FILTERS; filtersIsDefault := true;
               aspectRatio := "3/2";
               compatibilityMode := compatibilityMode a;
               isLoadedRef := false;
               selectedDeviceId := selectedDeviceId a;
               localStorage := localStorage a |}
        end
    | None =>
        {| filters := DEFAULT_FILTERS; filtersIsDefault := true;
           aspectRatio := "3/2";
           compatibilityMode := compatibilityMode a;
           isLoadedRef := false;
           selectedDeviceId := selectedDeviceId a;
           localStorage := localStorage a |}
    end
  else a.

(** The effect headed [// Save Settings]. *)
Definition saveSettings (a : App) : App :=
  if negb (truthy (selectedDeviceId a)) || negb (isLoadedRef a) then a
  else
    let settings :=
      {| s_filters := filters a;
         s_aspectRatio := aspectRatio a;
         s_compatibilityMode := compatibilityMode a |} in
    {| filters := filters a; filtersIsDefault := filtersIsDefault a;
       aspectRatio := aspectRatio a;
       compatibilityMode := compatibilityMode a;
       isLoadedRef := isLoadedRef a;
       selectedDeviceId := selectedDeviceId a;
       localStorage :=
         <[storageKey (selectedDeviceId a) := stringify settings]>
           (localStorage a) |}.

(** The five [<option>]s of the aspect-ratio [<select>]. *)
Inductive AspectOption : Type :=
  Ratio_3_2 | Ratio_4_3 | Ratio_16_9 | Ratio_1_1 | Ratio_native.

Definition optionValue (o : AspectOption) : string :=
  match o with
  | Ratio_3_2 => "3/2"
  | Ratio_4_3 => "4/3"
  | Ratio_16_9 => "16/9"
  | Ratio_1_1 => "1/1"
  | Ratio_native => "native"
  end.

(** What changes the preference state. *)
Inductive Action : Type :=
| ChangeFilters (f : Filters)          (* updateFilter: a new object *)
| ResetFilters                         (* setFilters(DEFAULT_FILTERS) *)
| ChooseAspect (o : AspectOption)      (* the select's onChange *)
| SetCompatibility (b : bool)          (* setCompatibilityMode(b) *)
| DeviceSelected (deviceId : string)   (* setSelectedDeviceId(deviceId) *)
| SettleTimer.                         (* the 100 ms timer fires *)

Definition withFilters (f : Filters) (isDefault : bool) (a : App) : App :=
  {| filters := f; filtersIsDefault := isDefault;
     aspectRatio := aspectRatio a;
     compatibilityMode := compatibilityMode a; isLoadedRef := isLoadedRef a;
     selectedDeviceId := selectedDeviceId a; localStorage := localStorage a |}.

Definition withAspectRatio (r : string) (a : App) : App :=
  {| filters := filters a; filtersIsDefault := filtersIsDefault a;
     aspectRatio := r;
     compatibilityMode := compatibilityMode a; isLoadedRef := isLoadedRef a;
     selectedDeviceId := selectedDeviceId a; localStorage := localStorage a |}.

Definition withCompatibility (b : bool) (a : App) : App :=
  {| filters := filters a; filtersIsDefault := filtersIsDefault a;
     aspectRatio := aspectRatio a;
     compatibilityMode := b; isLoadedRef := isLoadedRef a;
     selectedDeviceId := selectedDeviceId a; localStorage := localStorage a |}.

Definition withDevice (d : string) (a : App) : App :=
  {| filters := filters a; filtersIsDefault := filtersIsDefault a;
     aspectRatio := aspectRatio a;
     compatibilityMode := compatibilityMode a; isLoadedRef := isLoadedRef a;
     selectedDeviceId := d; localStorage := localStorage a |}.

Definition withLoaded (b : bool) (a : App) : App :=
  {| filters := filters a; filtersIsDefault := filtersIsDefault a;
     aspectRatio := aspectRatio a;
     compatibilityMode := compatibilityMode a; isLoadedRef := b;
     selectedDeviceId := selectedDeviceId a; localStorage := localStorage a |}.

(** One action and the effects of the commits it causes.  A setter that is
    handed the current state ([Object.is]) changes nothing: no dependency of
    an effect has changed and no effect runs.  [updateFilter] always makes a
    new object; [resetFilters] stores the constant, which may be the state
    already.  On a change of device the load effect runs, then the save
    effect (in the same commit and again for the state the load has set,
    both times stopped by its guard); the timer only writes the ref and
    renders nothing. *)
Definition act (x : Action) (a : App) : App :=
  match x with
  | ChangeFilters f => saveSettings (withFilters f false a)
  | ResetFilters =>
      if filtersIsDefault a then a
      else saveSettings (withFilters DEFAULT_FILTERS true a)
  | ChooseAspect o =>
      if decide (optionValue o = aspectRatio a) then a
      else saveSettings (withAspectRatio (optionValue o) a)
  | SetCompatibility b =>
      if decide (b = compatibilityMode a) then a
      else saveSettings (withCompatibility b a)
  | DeviceSelected d =>
      if decide (d = selectedDeviceId a) then a
      else saveSettings (saveSettings (loadSettings (withDevice d a)))
  | SettleTimer => withLoaded true a
  end.

Definition runActions (xs : list Action) (a : App) : App :=
  fold_left (fun acc x => act x acc) xs a.

(** The preferences of two states agree. *)
Definition samePreferences (a b : App) : Prop :=
  filters a = filters b /\
  aspectRatio a = aspectRatio b /\
  compatibilityMode a = compatibilityMode b.

End WithJSON.

(** ** The style handed to the [<video>] element *)

(** ['none'] or ['transform 0.1s ease-out, filter 0.1s ease-out'] *)
Inductive Transition : Type := transition_none | transition_eased.

Record VideoStyle : Type := mkStyle {
  css_aspectRatio : string;
  css_translate : Transform.Pan;      (* fractions of the element box *)
  css_scale : Q;
  css_brightness : Q;
  css_contrast : Q;
  css_saturate : Q;
  css_sepia : Q;
  css_invert : Q;
  css_edgeDetection : bool;           (* url(#edge-detection) *)
  css_falseColor : bool;              (* url(#false-color) *)
  css_emboss : bool;                  (* url(#emboss) *)
  css_sharpen : bool;                 (* url(#sharpen) *)
  css_transition : Transition
}.

(** The body of the [useMemo]: it runs when [filters], [aspectRatio] or
    [pan] has changed and reads [isDraggingRef.current] at that moment. *)
Definition videoStyle (f : Filters) (aspect : string) (pan : Transform.Pan)
    (isDraggingRef : bool) : VideoStyle :=
  let effectivePan := Transform.effectivePan (f_zoom f) pan in
  {| css_aspectRatio := if String.eqb aspect "native" then "auto" else aspect;
     css_translate := effectivePan;
     css_scale := f_zoom f;
     css_brightness := brightness f;
     css_contrast := contrast f;
     css_saturate := saturate f;
     css_sepia := sepia f;
     css_invert := invert f;
     css_edgeDetection := edgeDetection f;
     css_falseColor := falseColor f;
     css_emboss := negb (Qle_bool (emboss f) 0);
     css_sharpen := negb (Qle_bool (sharpen f) 0);
     css_transition :=
       if isDraggingRef then transition_none else transition_eased |}.

End Settings.

(* ===================================================================== *)
(** * The camera hook ([useCamera]) *)
(* ===================================================================== *)

Module Camera.

Local Open Scope nat_scope.

(** ** Platform objects *)

Inductive DeviceKind : Type := videoinput | audioinput | audiooutput.

Record MediaDeviceInfo : Type := mkDevice {
  deviceId : string;
  kind : DeviceKind;
  label : string
}.

Definition isVideoInput (d : MediaDeviceInfo) : bool :=
  match kind d with videoinput => true | _ => false end.

(** The [video] member of the argument of [getUserMedia]. *)
Record Constraints : Type := mkConstraints {
  exactDeviceId : string;
  idealWidth : option nat;
  idealHeight : option nat;
  idealFrameRate : option nat
}.

(** How a promise of the platform settles. *)
Inductive Settled (A : Type) : Type :=
| Fulfilled (value : A)
| Rejected (message : string).
Arguments Fulfilled {A} value.
Arguments Rejected {A} message.

(** A media stream is known by the order in which the platform created it. *)
Definition MediaStream : Type := nat.

(** [getUserMedia] either opens the device or fails with a message. *)
Inductive Outcome : Type :=
| Granted
| Denied (message : string).

Definition Blob : Type := list nat.

Inductive RecordingState : Type := inactive | recording.

Record MediaRecorder : Type := mkRecorder {
  rec_stream : MediaStream;
  rec_state : RecordingState;
  rec_onstop : bool;          (* stopRecording has installed its handler *)
  rec_stopQueued : bool       (* a [stop] event is waiting to be fired *)
}.

(** What [stopRecording]'s promise does. *)
Inductive StopPromise : Type :=
| ResolvedNull                       (* resolve(null) *)
| ResolvesOnStop (r : nat)           (* onstop of recorder r will resolve it *)
| NeverSettles (r : nat).            (* no stop event will reach the handler *)

(** Everything the hook does to the outside, in order. *)
Inductive Ev : Type :=
| EvGetUserMedia (c : Constraints)
| EvAcquired (s : MediaStream)
| EvTrackStop (s : MediaStream)
| EvConsoleWarn (message : string)
| EvConsoleError (message : string)
| EvRecorderStart (r : nat)
| EvRecorderStop (r : nat)
| EvClip (r : nat) (clip : Blob).

(** ** The closures of the stream effect *)

Inductive Phase : Type :=
| AwaitPrimary         (* the first getUserMedia is in flight *)
| AwaitFallback        (* the second one is *)
| Finished.            (* startStream has returned *)

#[global] Instance Phase_eq_dec : EqDecision Phase.
Proof. solve_decision. Defined.

Record Request : Type := mkRequest {
  req_device : string;         (* selectedDeviceId captured by the closure *)
  req_compat : bool;           (* compatibilityMode captured by the closure *)
  mounted : bool;
  phase : Phase
}.

(** ** The state of the hook *)

Record Hook : Type := mkHook {
  stream : option MediaStream;
  devices : list MediaDeviceInfo;
  selectedDeviceId : string;
  error : option string;
  isRecording : bool;
  compatibilityMode : bool;
  mediaRecorderRef : option nat;
  recordedChunksRef : list Blob;
  requests : list Request;          (* one per run of the stream effect *)
  nextStream : nat;                 (* streams the platform has created *)
  recorders : list MediaRecorder;   (* recorders the hook has created *)
  trace : list Ev
}.

Definition initialHook : Hook :=
  {| stream := None; devices := []; selectedDeviceId := ""; error := None;
     isRecording := false; compatibilityMode := false;
     mediaRecorderRef := None; recordedChunksRef := [];
     requests := []; nextStream := 0; recorders := []; trace := [] |}.

Definition setStreamField (v : option MediaStream) (h : Hook) : Hook :=
  mkHook v (devices h) (selectedDeviceId h) (error h) (isRecording h)
    (compatibilityMode h) (mediaRecorderRef h) (recordedChunksRef h)
    (requests h) (nextStream h) (recorders h) (trace h).

Definition setDevices (v : list MediaDeviceInfo) (h : Hook) : Hook :=
  mkHook (stream h) v (selectedDeviceId h) (error h) (isRecording h)
    (compatibilityMode h) (mediaRecorderRef h) (recordedChunksRef h)
    (requests h) (nextStream h) (recorders h) (trace h).

Definition setSelectedField (v : string) (h : Hook) : Hook :=
  mkHook (stream h) (devices h) v (error h) (isRecording h)
    (compatibilityMode h) (mediaRecorderRef h) (recordedChunksRef h)
    (requests h) (nextStream h) (recorders h) (trace h).

Definition setError (v : option string) (h : Hook) : Hook :=
  mkHook (stream h) (devices h) (selectedDeviceId h) v (isRecording h)
    (compatibilityMode h) (mediaRecorderRef h) (recordedChunksRef h)
    (requests h) (nextStream h) (recorders h) (trace h).

Definition setIsRecording (v : bool) (h : Hook) : Hook :=
  mkHook (stream h) (devices h) (selectedDeviceId h) (error h) v
    (compatibilityMode h) (mediaRecorderRef h) (recordedChunksRef h)
    (requests h) (nextStream h) (recorders h) (trace h).

Definition setCompatField (v : bool) (h : Hook) : Hook :=
  mkHook (stream h) (devices h) (selectedDeviceId h) (error h)
    (isRecording h) v (mediaRecorderRef h) (recordedChunksRef h)
    (requests h) (nextStream h) (recorders h) (trace h).

Definition setRecorderRef (v : option nat) (h : Hook) : Hook :=
  mkHook (stream h) (devices h) (selectedDeviceId h) (error h)
    (isRecording h) (compatibilityMode h) v (recordedChunksRef h)
    (requests h) (nextStream h) (recorders h) (trace h).

Definition setChunks (v : list Blob) (h : Hook) : Hook :=
  mkHook (stream h) (devices h) (selectedDeviceId h) (error h)
    (isRecording h) (compatibilityMode h) (mediaRecorderRef h) v
    (requests h) (nextStream h) (recorders h) (trace h).

Definition setRequests (v : list Request) (h : Hook) : Hook :=
  mkHook (stream h) (devices h) (selectedDeviceId h) (error h)
    (isRecording h) (compatibilityMode h) (mediaRecorderRef h)
    (recordedChunksRef h) v (nextStream h) (recorders h) (trace h).

Definition setNextStream (v : nat) (h : Hook) : Hook :=
  mkHook (stream h) (devices h) (selectedDeviceId h) (error h)
    (isRecording h) (compatibilityMode h) (mediaRecorderRef h)
    (recordedChunksRef h) (requests h) v (recorders h) (trace h).

Definition setRecorders (v : list MediaRecorder) (h : Hook) : Hook :=
  mkHook (stream h) (devices h) (selectedDeviceId h) (error h)
    (isRecording h) (compatibilityMode h) (mediaRecorderRef h)
    (recordedChunksRef h) (requests h) (nextStream h) v (trace h).

(** Append one event to the trace. *)
Definition emit (e : Ev) (h : Hook) : Hook :=
  mkHook (stream h) (devices h) (selectedDeviceId h) (error h)
    (isRecording h) (compatibilityMode h) (mediaRecorderRef h)
    (recordedChunksRef h) (requests h) (nextStream h) (recorders h)
    (trace h ++ [e]).

(** [s.getTracks().forEach(track => track.stop())] *)
Definition stopTracks (s : MediaStream) (h : Hook) : Hook :=
  emit (EvTrackStop s) h.

(** A string is falsy exactly when it is empty. *)
Definition truthy (s : string) : bool :=
  match s with EmptyString => false | String _ _ => true end.

(** ** Stream management *)

Definition primaryConstraints (compat : bool) (selected : string)
  : Constraints :=
  if compat then
    {| exactDeviceId := selected; idealWidth := Some 640;
       idealHeight := Some 480; idealFrameRate := Some 30 |}
  else
    {| exactDeviceId := selected; idealWidth := Some 1920;
       idealHeight := Some 1080; idealFrameRate := None |}.

Definition minimalConstraints (selected : string) : Constraints :=
  {| exactDeviceId := selected; idealWidth := None;
     idealHeight := None; idealFrameRate := None |}.

Definition unmount (r : Request) : Request :=
  {| req_device := req_device r; req_compat := req_compat r;
     mounted := false; phase := phase r |}.

Definition withPhase (p : Phase) (r : Request) : Request :=
  {| req_device := req_device r; req_compat := req_compat r;
     mounted := mounted r; phase := p |}.

(** The cleanup of the effect with dependency [stream]: it runs with the
    stream of the render it belongs to, when [stream] changes and when the
    component goes away. *)
Definition streamCleanup (h : Hook) : Hook :=
  match stream h with
  | Some old => stopTracks old h
  | None => h
  end.

(** [setStream(v)] followed by the commit: React keeps the state when the
    value is the same, otherwise the cleanup above runs for the old value. *)
Definition setStream (v : option MediaStream) (h : Hook) : Hook :=
  if decide (stream h = v) then h
  else setStreamField v (streamCleanup h).

(** The stream effect, dependencies [selectedDeviceId] and
    [compatibilityMode]: the cleanup of the run before clears its [mounted]
    flag, then a new closure calls [getUserMedia] unless nothing is
    selected. *)
Definition streamEffect (h : Hook) : Hook :=
  let h1 := setRequests (map unmount (requests h)) h in
  if truthy (selectedDeviceId h1) then
    let c := primaryConstraints (compatibilityMode h1) (selectedDeviceId h1) in
    let r := {| req_device := selectedDeviceId h1;
                req_compat := compatibilityMode h1;
                mounted := true; phase := AwaitPrimary |} in
    emit (EvGetUserMedia c) (setRequests (requests h1 ++ [r]) h1)
  else h1.

(** [setSelectedDeviceId(id)] and the commit. *)
Definition setSelectedDeviceId (id : string) (h : Hook) : Hook :=
  if decide (selectedDeviceId h = id) then h
  else streamEffect (setSelectedField id h).

(** [setCompatibilityMode(b)] and the commit. *)
Definition setCompatibilityMode (b : bool) (h : Hook) : Hook :=
  if decide (compatibilityMode h = b) then h
  else streamEffect (setCompatField b h).

(** Lines 105 to 124 of [startStream]: [newStream] has been acquired by the
    closure [r]. *)
Definition streamAcquired (r : Request) (newStream : MediaStream) (h : Hook)
  : Hook :=
  if mounted r then
    let h1 :=
      match stream h with
      | Some prevStream => stopTracks prevStream h      (* the updater *)
      | None => h
      end in
    setError None (setStream (Some newStream) h1)
  else
    stopTracks newStream h.

(** The outer [catch] of [startStream]. *)
Definition streamFailed (r : Request) (message : string) (h : Hook) : Hook :=
  let h1 := emit (EvConsoleError message) h in
  if mounted r then
    setStream None
      (setError (Some (String.append "Failed to connect: " message)) h1)
  else h1.

(** The platform creates a stream. *)
Definition openStream (h : Hook) : MediaStream * Hook :=
  (nextStream h, emit (EvAcquired (nextStream h))
                   (setNextStream (S (nextStream h)) h)).

Definition updateRequest (rid : nat) (r : Request) (h : Hook) : Hook :=
  setRequests (<[rid := r]> (requests h)) h.

(** The first [await] of closure [rid] settles. *)
Definition primarySettled (rid : nat) (o : Outcome) (h : Hook) : Hook :=
  match requests h !! rid with
  | Some r =>
      match phase r with
      | AwaitPrimary =>
          match o with
          | Granted =>
              let '(s, h1) := openStream h in
              streamAcquired r s (updateRequest rid (withPhase Finished r) h1)
          | Denied message =>
              emit (EvGetUserMedia (minimalConstraints (req_device r)))
                (emit (EvConsoleWarn message)
                   (updateRequest rid (withPhase AwaitFallback r) h))
          end
      | _ => h
      end
  | None => h
  end.

(** The second [await] of closure [rid] settles. *)
Definition fallbackSettled (rid : nat) (o : Outcome) (h : Hook) : Hook :=
  match requests h !! rid with
  | Some r =>
      match phase r with
      | AwaitFallback =>
          match o with
          | Granted =>
              let '(s, h1) := openStream h in
              streamAcquired r s (updateRequest rid (withPhase Finished r) h1)
          | Denied message =>
              streamFailed r message
                (updateRequest rid (withPhase Finished r) h)
          end
      | _ => h
      end
  | None => h
  end.

(** The component goes away: both cleanups run. *)
Definition unmountHook (h : Hook) : Hook :=
  streamCleanup (setRequests (map unmount (requests h)) h).

(** ** Device enumeration *)

(** [getDevices] resumes after [await enumerateDevices()].  It is a
    [useCallback] closure over [selectedDeviceId]: [selectedSeen] is the
    selection of the render in which the closure was made, which is the
    current one unless the selection has changed while the enumeration was
    in flight. *)
Definition getDevices (selectedSeen : string)
    (result : Settled (list MediaDeviceInfo)) (h : Hook) : Hook :=
  match result with
  | Fulfilled deviceList =>
      let videoDevices := List.filter isVideoInput deviceList in
      let h1 := setDevices videoDevices h in
      match videoDevices with
      | first :: _ =>
          if negb (truthy selectedSeen) then
            setSelectedDeviceId (deviceId first) h1
          else h1
      | [] => h1
      end
  | Rejected message =>
      emit (EvConsoleError
              (String.append "Error enumerating devices: " message)) h
  end.

(** ** Recording *)

Definition startRecording (h : Hook) : Hook :=
  match stream h with
  | None => h
  | Some s =>
      let r := length (recorders h) in
      let mediaRecorder :=
        {| rec_stream := s; rec_state := recording;
           rec_onstop := false; rec_stopQueued := false |} in
      setRecorderRef (Some r)
        (setIsRecording true
           (emit (EvRecorderStart r)
              (setRecorders (recorders h ++ [mediaRecorder])
                 (setChunks [] h))))
  end.

(** [ondataavailable] of any recorder the hook has made. *)
Definition dataAvailable (r : nat) (data : Blob) (h : Hook) : Hook :=
  match recorders h !! r with
  | Some _ =>
      if 0 <? length data then setChunks (recordedChunksRef h ++ [data]) h
      else h
  | None => h
  end.

(** What [MediaRecorder.stop()] does inside the platform: nothing to a
    recorder that is not recording; a recording one becomes inactive and a
    [stop] event is queued.  The platform does the same on its own when the
    tracks of the recorded stream have ended. *)
Definition inactivate (r : nat) (h : Hook) : Hook :=
  match recorders h !! r with
  | Some m =>
      match rec_state m with
      | recording =>
          setRecorders
            (<[r := {| rec_stream := rec_stream m; rec_state := inactive;
                       rec_onstop := rec_onstop m;
                       rec_stopQueued := true |}]> (recorders h)) h
      | inactive => h
      end
  | None => h
  end.

(** [mediaRecorderRef.current.stop()] *)
Definition recorderStop (r : nat) (h : Hook) : Hook :=
  inactivate r (emit (EvRecorderStop r) h).

Definition installOnstop (r : nat) (h : Hook) : Hook :=
  match recorders h !! r with
  | Some m =>
      setRecorders
        (<[r := {| rec_stream := rec_stream m; rec_state := rec_state m;
                   rec_onstop := true;
                   rec_stopQueued := rec_stopQueued m |}]> (recorders h)) h
  | None => h
  end.

Definition willFireStop (r : nat) (h : Hook) : bool :=
  match recorders h !! r with
  | Some m => rec_stopQueued m
  | None => false
  end.

Definition stopRecording (h : Hook) : StopPromise * Hook :=
  match mediaRecorderRef h with
  | None => (ResolvedNull, h)
  | Some r =>
      let h1 := recorderStop r (installOnstop r h) in
      (if willFireStop r h1 then ResolvesOnStop r else NeverSettles r, h1)
  end.

(** The queued [stop] event of recorder [r] is fired. *)
Definition stopEvent (r : nat) (h : Hook) : Hook :=
  match recorders h !! r with
  | Some m =>
      if rec_stopQueued m then
        let h1 :=
          setRecorders
            (<[r := {| rec_stream := rec_stream m; rec_state := rec_state m;
                       rec_onstop := rec_onstop m;
                       rec_stopQueued := false |}]> (recorders h)) h in
        if rec_onstop m then
          setIsRecording false
            (emit (EvClip r (concat (recordedChunksRef h1))) h1)
        else h1
      else h
  | None => h
  end.

(** The platform ends the recording of [r] on its own. *)
Definition recorderEnded (r : nat) (h : Hook) : Hook := inactivate r h.

(** [handleToggleRecord] of [App.jsx], the only caller of the two. *)
Definition handleToggleRecord (h : Hook) : Hook :=
  if isRecording h then snd (stopRecording h) else startRecording h.

Definition isActive (m : MediaRecorder) : bool :=
  match rec_state m with recording => true | inactive => false end.

(** The number of recorders that are recording. *)
Definition activeRecorders (h : Hook) : nat :=
  length (List.filter isActive (recorders h)).

(** ** Snapshots *)

(** A pixel, as one packed RGBA number; 0 is transparent black. *)
Definition Pixel : Type := nat.

(** The [<video>] element: the size and the pixels of the frame it has
    decoded, and the style it is displayed with. *)
Record HTMLVideoElement : Type := mkVideo {
  videoWidth : nat;
  videoHeight : nat;
  frame : nat -> nat -> Pixel;
  style : Settings.VideoStyle
}.

Record Canvas : Type := mkCanvas {
  width : nat;
  height : nat;
  bitmap : nat -> nat -> Pixel
}.

(** [document.createElement('canvas')] *)
Definition createCanvas : Canvas :=
  {| width := 300; height := 150; bitmap := fun _ _ => 0 |}.

(** Assigning [width] or [height] clears the bitmap. *)
Definition setWidth (w : nat) (c : Canvas) : Canvas :=
  {| width := w; height := height c; bitmap := fun _ _ => 0 |}.

Definition setHeight (h : nat) (c : Canvas) : Canvas :=
  {| width := width c; height := h; bitmap := fun _ _ => 0 |}.

(** [ctx.drawImage(video, dx, dy)] on a fresh 2d context (no transform, no
    filter): the decoded frame is copied at its own size with its corner
    at [(dx, dy)]; the style of the element plays no part. *)
Definition drawImage (v : HTMLVideoElement) (dx dy : nat) (c : Canvas)
  : Canvas :=
  {| width := width c;
     height := height c;
     bitmap := fun x y =>
       if (dx <=? x) && (x <? dx + videoWidth v) &&
          (dy <=? y) && (y <? dy + videoHeight v) &&
          (x <? width c) && (y <? height c)
       then frame v (x - dx) (y - dy)
       else bitmap c x y |}.

(** A [data:] URL as [toDataURL] makes them: the bitmap under a lossless
    encoding of the given type, or the string ['data:,'] which holds
    nothing. *)
Inductive DataURL : Type :=
| Encoded (mime : string) (raster : Canvas)
| NoData.

(** [canvas.toDataURL(type)]: a canvas whose width or height is zero has no
    pixels and gives ['data:,']. *)
Definition toDataURL (type : string) (c : Canvas) : DataURL :=
  if (width c =? 0) || (height c =? 0) then NoData
  else Encoded type c.

Definition takePhoto (videoElement : option HTMLVideoElement)
  : option DataURL :=
  match videoElement with
  | None => None
  | Some v =>
      let canvas := createCanvas in
      let canvas := setWidth (videoWidth v) canvas in
      let canvas := setHeight (videoHeight v) canvas in
      let canvas := drawImage v 0 0 canvas in
      Some (toDataURL "image/png" canvas)
  end.

(** The same element displayed with another style. *)
Definition withStyle (st : Settings.VideoStyle) (v : HTMLVideoElement)
  : HTMLVideoElement :=
  {| videoWidth := videoWidth v; videoHeight := videoHeight v;
     frame := frame v; style := st |}.

(** ** Events *)

Inductive Event : Type :=
| Enumerated (selectedSeen : string) (result : Settled (list MediaDeviceInfo))
| SelectDevice (id : string)
| SetCompatibility (b : bool)
| PrimarySettled (rid : nat) (o : Outcome)
| FallbackSettled (rid : nat) (o : Outcome)
| Unmount
| StartRecording
| StopRecording
| ToggleRecord
| DataAvailable (r : nat) (data : Blob)
| StopEvent (r : nat)
| RecorderEnded (r : nat).

Definition step (e : Event) (h : Hook) : Hook :=
  match e with
  | Enumerated selectedSeen result => getDevices selectedSeen result h
  | SelectDevice id => setSelectedDeviceId id h
  | SetCompatibility b => setCompatibilityMode b h
  | PrimarySettled rid o => primarySettled rid o h
  | FallbackSettled rid o => fallbackSettled rid o h
  | Unmount => unmountHook h
  | StartRecording => startRecording h
  | StopRecording => snd (stopRecording h)
  | ToggleRecord => handleToggleRecord h
  | DataAvailable r data => dataAvailable r data h
  | StopEvent r => stopEvent r h
  | RecorderEnded r => recorderEnded r h
  end.

Definition run (es : list Event) (h : Hook) : Hook :=
  fold_left (fun acc e => step e acc) es h.

Definition reachable (h : Hook) : Prop := exists es, h = run es initialHook.

(** What one event adds to the trace. *)
Definition emitted (e : Event) (h : Hook) : list Ev :=
  drop (length (trace h)) (trace (step e h)).

End Camera.

(* ===================================================================== *)
(** * Facts about the transform engine *)
(* ===================================================================== *)

Module TransformFacts.
Import Transform.

(** The clamp on finite numbers. *)
Definition clampQ (m v : Q) : Q := Qmax (- m) (Qmin m v).

Lemma clamp_Fin (m v : Q) : clamp m (Fin v) = Fin (clampQ m v).
Proof. reflexivity. Qed.

Lemma clamp_bounds (m v : Q) : 0 <= m -> - m <= clampQ m v /\ clampQ m v <= m.
Proof.
  intros Hm. unfold clampQ.
  destruct (Q.max_spec (- m) (Qmin m v)) as [[H1 ->]|[H1 ->]];
    destruct (Q.min_spec m v) as [[H2 H3]|[H2 H3]];
    rewrite ?H3 in *; split; lra.
Qed.

Lemma clamp_abs (m v : Q) : 0 <= m -> Qabs (clampQ m v) <= m.
Proof.
  intros Hm. apply Qabs_Qle_condition. now apply clamp_bounds.
Qed.


(** [maxPan = (zoom - 1) / 2] *)
Lemma maxPan_nonneg (z : Q) : 1 <= z -> 0 <= (z - 1) / 2.
Proof. intros Hz. change ((z - 1) / 2) with ((z - 1) * (1 # 2)). lra. Qed.


Lemma Qle_bool_true (a b : Q) : Qle_bool a b = true <-> a <= b.
Proof. apply Qle_bool_iff. Qed.

Lemma Qle_bool_false (a b : Q) : Qle_bool a b = false <-> b < a.
Proof.
  split; intros H.
  - apply Qnot_le_lt. intros Hle. apply Qle_bool_iff in Hle. congruence.
  - destruct (Qle_bool a b) eqn:E; [|reflexivity].
    apply Qle_bool_iff in E. lra.
Qed.

Lemma Qeq_bool_false (a b : Q) : Qeq_bool a b = false <-> ~ a == b.
Proof.
  split; intros H.
  - intros E. apply Qeq_bool_iff in E. congruence.
  - destruct (Qeq_bool a b) eqn:E; [|reflexivity].
    apply Qeq_bool_iff in E. contradiction.
Qed.

(** ** Quotients *)


(** The one quotient that is not a number. *)
Lemma divide_NaN (a b : Q) : divide a b = NaN <-> a == 0 /\ b == 0.
Proof.
  unfold divide. destruct (Qeq_bool b 0) eqn:Eb.
  - apply Qeq_bool_iff in Eb. destruct (Qeq_bool a 0) eqn:Ea.
    + apply Qeq_bool_iff in Ea. tauto.
    + apply Qeq_bool_false in Ea.
      destruct (Qle_bool 0 a); split; try discriminate; tauto.
  - apply Qeq_bool_false in Eb. split; [discriminate|tauto].
Qed.

(** ** The bound *)

(** A number that is finite and at most [m] in absolute value. *)
Definition bounded (m : Q) (a : Num) : Prop :=
  match a with
  | Fin q => Qabs q <= m
  | _ => False
  end.

(** A pan lies within the bound that the zoom allows. *)
Definition within (z : Q) (p : Pan) : Prop :=
  bounded ((z - 1) / 2) (px p) /\ bounded ((z - 1) / 2) (py p).

(** The clamp bounds every number, the infinities too; NaN it keeps. *)
Lemma clamp_bounded (m : Q) (a : Num) :
  0 <= m -> a <> NaN -> bounded m (clamp m a).
Proof.
  intros Hm Ha. destruct a as [v| | |]; [| | |contradiction].
  - rewrite clamp_Fin. now apply clamp_abs.
  - change (Qabs (Qmax (- m) m) <= m). apply Qabs_Qle_condition.
    destruct (Q.max_spec (- m) m) as [[H1 ->]|[H1 ->]]; split; lra.
  - change (Qabs (- m) <= m). apply Qabs_Qle_condition. split; lra.
Qed.

Lemma clamp_NaN (m : Q) : clamp m NaN = NaN.
Proof. reflexivity. Qed.

Lemma plus_NaN (a b : Num) :
  plus a b = NaN ->
  a = NaN \/ b = NaN \/ (a = PosInf /\ b = NegInf) \/ (a = NegInf /\ b = PosInf).
Proof. destruct a, b; cbn; intros H; try discriminate; tauto. Qed.









Lemma view_run_snoc (gs : list Gesture) (g : Gesture) (v : View) :
  run (gs ++ [g]) v = step g (run gs v).
Proof. unfold run. now rewrite fold_left_app. Qed.


Lemma view_reachable_step (g : Gesture) (v : View) :
  reachable v -> reachable (step g v).
Proof.
  intros [gs ->]. exists (gs ++ [g]). now rewrite view_run_snoc.
Qed.







(** A drag that has just begun at zoom 2. *)
Definition pressed : View := run [ZoomSlider 2; MouseDown 10 10] initialView.


Example C3_counterexample_pan :
  pan (step (MouseMove 10 40 (Some (0, 100))) pressed)
  = {| px := NaN; py := Fin (clampQ ((2 - 1) / 2) (0 + (40 - 10) / 100)) |}.
Proof. reflexivity. Qed.


(** A drag at zoom 3 that tries to pull the picture five widths to the
    right. *)
Definition draggedView : View :=
  run [ZoomSlider 3; MouseDown 0 0; MouseMove 500 0 (Some (100, 100))]
      initialView.


Example draggedView_pan :
  pan_eq (pan draggedView) {| px := Fin 1; py := Fin 0 |}.
Proof. split; vm_compute; reflexivity. Qed.

(** A zero layout size only spoils a move whose pointer delta is zero on
    that axis: any other quotient is an infinity, which the clamp brings to
    the bound. *)
Lemma zero_size_drag (z x dx : Q) :
  1 <= z -> ~ dx == 0 ->
  bounded ((z - 1) / 2) (clamp ((z - 1) / 2) (plus (Fin x) (divide dx 0))).
Proof.
  intros Hz Hdx. apply clamp_bounded; [now apply maxPan_nonneg|].
  intros Hn. apply plus_NaN in Hn.
  destruct Hn as [Hn|[Hn|[[Hn _]|[Hn _]]]]; try discriminate.
  apply divide_NaN in Hn. tauto.
Qed.

(** ** Kernels *)

Section KernelFacts.
Import Kernels.

Lemma kernel_eq_cons (a b : Q) (k1 k2 : list Q) :
  a == b -> kernel_eq k1 k2 -> kernel_eq (a :: k1) (b :: k2).
Proof. intros Hab Hk. now constructor. Qed.

Lemma kernel_eq_nil : kernel_eq [] [].
Proof. constructor. Qed.

(** The kernels over the reals add up to 1 at every intensity. *)
Lemma sharpen_sum (a : Q) : kernelSum (spec_sharpen_kernel a) == 1.
Proof.
  unfold kernelSum, spec_sharpen_kernel. cbn [fold_right].
  change (a / 100) with (a * (1 # 100)). ring.
Qed.

Lemma emboss_sum (b : Q) : kernelSum (spec_emboss_kernel b) == 1.
Proof.
  unfold kernelSum, spec_emboss_kernel. cbn [fold_right].
  change (b / 100) with (b * (1 # 100)). ring.
Qed.

(** Deciding a relation entry by entry. *)
Fixpoint all2 (f : Q -> Q -> bool) (k1 k2 : list Q) : bool :=
  match k1, k2 with
  | [], [] => true
  | a :: k1', b :: k2' => f a b && all2 f k1' k2'
  | _, _ => false
  end.

Lemma all2_Forall2 (f : Q -> Q -> bool) (R : Q -> Q -> Prop) :
  (forall a b, f a b = true -> R a b) ->
  forall k1 k2, all2 f k1 k2 = true -> Forall2 R k1 k2.
Proof.
  intros Hf. induction k1 as [|a k1 IH]; intros [|b k2] H;
    try discriminate; [constructor|].
  cbn in H. apply andb_true_iff in H as [Hab H]. constructor; auto.
Qed.

Definition nearb (eps a b : Q) : bool := Qle_bool (Qabs (a - b)) eps.

Lemma nearb_sound (eps a b : Q) : nearb eps a b = true -> Qabs (a - b) <= eps.
Proof. apply Qle_bool_iff. Qed.

(** The rounding allowed to an entry of each kernel and to the sum of the
    sharpen kernel. *)
Definition sharpenEntryError : Q := 1 # (2 ^ 47).
Definition embossEntryError : Q := 1 # (2 ^ 50).
Definition sharpenSumError : Q := 1 # (2 ^ 48).

(** Everything C4 says of one slider position, decided by computation. *)
Definition kernelsChecked (n : nat) : bool :=
  let i := inject_Z (Z.of_nat n) in
  match values (sharpenMatrix (position n)),
        values (embossMatrix (position n)) with
  | Some ks, Some ke =>
      all2 (nearb sharpenEntryError) ks (spec_sharpen_kernel i) &&
      all2 (nearb embossEntryError) ke (spec_emboss_kernel i) &&
      (if (n =? 0)%nat
       then all2 Qeq_bool ks identityKernel && all2 Qeq_bool ke identityKernel
       else true) &&
      nearb sharpenSumError (kernelSum ks) 1 &&
      Qeq_bool (kernelSum ke) 1
  | _, _ => false
  end.

Lemma forallb_seq (f : nat -> bool) (k n : nat) :
  forallb f (seq 0 k) = true -> (n < k)%nat -> f n = true.
Proof.
  intros H Hn. rewrite forallb_forall in H. apply H.
  apply in_seq. lia.
Qed.

Lemma kernelsChecked_positions :
  forallb kernelsChecked (seq 0 101) = true.
Proof. vm_compute. reflexivity. Qed.

(** C4 in the words of the design document: at every intensity of the
    slider the kernels are the formulas and their entries add up to 1. *)
Definition kernels_as_stated : Prop :=
  forall n : nat, (n <= 100)%nat ->
    exists ks ke,
      values (sharpenMatrix (position n)) = Some ks /\
      values (embossMatrix (position n)) = Some ke /\
      kernel_eq ks (spec_sharpen_kernel (inject_Z (Z.of_nat n))) /\
      kernel_eq ke (spec_emboss_kernel (inject_Z (Z.of_nat n))) /\
      kernelSum ks == 1 /\
      kernelSum ke == 1.

(** C4, as stated, fails: at sharpen 1 the factor is 0.15, the centre
    [1 + 4 * s] is rounded to a double, and the nine entries add up to
    [1 + 2^-53]. *)
Lemma C4_counterexample : ~ kernels_as_stated.
Proof.
  intros H.
  destruct (H 1%nat) as (ks & ke & Hs & _ & _ & _ & Hsum & _); [lia|].
  vm_compute in Hs. injection Hs as <-.
  vm_compute in Hsum. discriminate.
Qed.

Example C4_counterexample_sum :
  exists ks,
    values (sharpenMatrix (position 1)) = Some ks /\
    kernelSum ks == 1 + (1 # (2 ^ 53)).
Proof.
  eexists. split; [vm_compute; reflexivity|]. vm_compute. reflexivity.
Qed.

(** C4, amended.  At every position of the sliders (the integers 0 to 100)
    the nine entries of the sharpen kernel are the doubles computed as
    [[0,-s,0, -s,1+4s,-s, 0,-s,0]] with [s = (sharpen/100)*15] and those of
    the emboss kernel the doubles computed as
    [[-2e,-1e,0, -1e,1,1e, 0,1e,2e]] with [e = (emboss/100)*3]: every entry
    is finite and agrees with the formula over the reals to within [2^-47]
    (sharpen) and [2^-50] (emboss).  At intensity 0 both are the identity
    kernel exactly.  The emboss entries add up to exactly 1; the sharpen
    entries add up to 1 to within [2^-48], the rounding of [1 + 4s]. *)
Theorem C4_kernels (n : nat) :
  (n <= 100)%nat ->
  exists ks ke,
    values (sharpenMatrix (position n)) = Some ks /\
    values (embossMatrix (position n)) = Some ke /\
    kernel_near sharpenEntryError ks
      (spec_sharpen_kernel (inject_Z (Z.of_nat n))) /\
    kernel_near embossEntryError ke
      (spec_emboss_kernel (inject_Z (Z.of_nat n))) /\
    (n = 0%nat ->
       kernel_eq ks identityKernel /\ kernel_eq ke identityKernel) /\
    Qabs (kernelSum ks - 1) <= sharpenSumError /\
    kernelSum ke == 1.
Proof.
  intros Hn.
  assert (Hc : kernelsChecked n = true).
  { apply (forallb_seq _ 101); [exact kernelsChecked_positions|lia]. }
  unfold kernelsChecked in Hc.
  destruct (values (sharpenMatrix (position n))) as [ks|]; [|discriminate].
  destruct (values (embossMatrix (position n))) as [ke|]; [|discriminate].
  apply andb_true_iff in Hc as [Hc Hsum_e].
  apply andb_true_iff in Hc as [Hc Hsum_s].
  apply andb_true_iff in Hc as [Hc Hid].
  apply andb_true_iff in Hc as [Hs He].
  exists ks, ke. split; [reflexivity|]. split; [reflexivity|].
  split; [exact (all2_Forall2 _ _ (nearb_sound _) _ _ Hs)|].
  split; [exact (all2_Forall2 _ _ (nearb_sound _) _ _ He)|].
  split; [|split].
  - intros ->. cbn in Hid. apply andb_true_iff in Hid as [H1 H2].
    split; eapply all2_Forall2; try eassumption;
      intros a b; apply Qeq_bool_iff.
  - now apply nearb_sound.
  - now apply Qeq_bool_iff.
Qed.

Lemma C4_kernels_witness :
  exists ks ke,
    values (sharpenMatrix (position 53)) = Some ks /\
    values (embossMatrix (position 53)) = Some ke /\
    Qabs (kernelSum ks - 1) <= sharpenSumError /\
    kernelSum ke == 1.
Proof.
  assert (H : (53 <= 100)%nat) by lia.
  destruct (C4_kernels 53 H) as (ks & ke & H1 & H2 & _ & _ & _ & H3 & H4).
  exists ks, ke. auto.
Defined.

(** Sharpen at 20: the factor 3 and the kernel [0 -3 0 -3 13 -3 0 -3 0],
    with no rounding at all. *)
Example sharpen_20 :
  exists ks,
    values (sharpenMatrix (position 20)) = Some ks /\
    kernel_eq ks [0; -3; 0; -3; 13; -3; 0; -3; 0].
Proof.
  eexists. split; [vm_compute; reflexivity|].
  apply (all2_Forall2 Qeq_bool); [intros a b; apply Qeq_bool_iff|].
  vm_compute. reflexivity.
Qed.

End KernelFacts.

End TransformFacts.

(* ===================================================================== *)
(** * Facts about the camera hook *)
(* ===================================================================== *)

Module CameraFacts.
Import Camera.

Local Open Scope nat_scope.

(** ** Bookkeeping *)

Lemma run_snoc (es : list Event) (e : Event) (h : Hook) :
  run (es ++ [e]) h = step e (run es h).
Proof. unfold run. now rewrite fold_left_app. Qed.

Lemma run_app (es1 es2 : list Event) (h : Hook) :
  run (es1 ++ es2) h = run es2 (run es1 h).
Proof. unfold run. now rewrite fold_left_app. Qed.

Lemma reachable_initial : reachable initialHook.
Proof. now exists []. Qed.

Lemma reachable_step (e : Event) (h : Hook) :
  reachable h -> reachable (step e h).
Proof. intros [es ->]. exists (es ++ [e]). now rewrite run_snoc. Qed.

Lemma reachable_run (es : list Event) (h : Hook) :
  reachable h -> reachable (run es h).
Proof. intros [es0 ->]. exists (es0 ++ es). now rewrite run_app. Qed.

(** An invariant of [step] holds in every reachable state. *)
Lemma reachable_ind (P : Hook -> Prop) :
  P initialHook ->
  (forall e h, reachable h -> P h -> P (step e h)) ->
  forall h, reachable h -> P h.
Proof.
  intros H0 Hstep h [es ->].
  induction es as [|e es IH] using rev_ind; [exact H0|].
  rewrite run_snoc. apply Hstep; [now exists es | exact IH].
Qed.

Lemma truthy_false (s : string) : truthy s = false <-> s = "".
Proof. destruct s; cbn; split; congruence. Qed.

Lemma truthy_true (s : string) : truthy s = true <-> s <> "".
Proof. destruct s; cbn; split; congruence. Qed.

(** ** Device registry *)

Lemma streamEffect_selected (h : Hook) :
  selectedDeviceId (streamEffect h) = selectedDeviceId h.
Proof. unfold streamEffect. cbn. now destruct (truthy _). Qed.

Lemma streamEffect_devices (h : Hook) :
  devices (streamEffect h) = devices h.
Proof. unfold streamEffect. cbn. now destruct (truthy _). Qed.

Lemma setSelectedDeviceId_selected (id : string) (h : Hook) :
  selectedDeviceId (setSelectedDeviceId id h) = id.
Proof.
  unfold setSelectedDeviceId. case_decide; [easy|].
  now rewrite streamEffect_selected.
Qed.

Lemma setSelectedDeviceId_devices (id : string) (h : Hook) :
  devices (setSelectedDeviceId id h) = devices h.
Proof.
  unfold setSelectedDeviceId. case_decide; [easy|].
  now rewrite streamEffect_devices.
Qed.

(** The identities listed by an enumeration. *)
Definition videoDevicesOf (deviceList : list MediaDeviceInfo)
  : list MediaDeviceInfo := List.filter isVideoInput deviceList.

Definition present (id : string) (deviceList : list MediaDeviceInfo) : Prop :=
  id ∈ map deviceId (videoDevicesOf deviceList).

(** The selection policy in the words of the design document. *)
Definition selection_policy_as_stated : Prop :=
  forall (h : Hook) (deviceList : list MediaDeviceInfo),
    let h' := getDevices (selectedDeviceId h) (Fulfilled deviceList) h in
    (selectedDeviceId h = "" ->
     forall first rest, videoDevicesOf deviceList = first :: rest ->
       selectedDeviceId h' = deviceId first) /\
    (selectedDeviceId h <> "" -> present (selectedDeviceId h) deviceList ->
       selectedDeviceId h' = selectedDeviceId h) /\
    (selectedDeviceId h <> "" -> ~ present (selectedDeviceId h) deviceList ->
       selectedDeviceId h' = "").

Definition camA : MediaDeviceInfo :=
  {| deviceId := "camA"; kind := videoinput; label := "Microscope" |}.
Definition camB : MediaDeviceInfo :=
  {| deviceId := "camB"; kind := videoinput; label := "Webcam" |}.
Definition mic : MediaDeviceInfo :=
  {| deviceId := "mic0"; kind := audioinput; label := "Microphone" |}.

(** The hook after a first enumeration that found [camA]. *)
Definition withCamA : Hook :=
  run [Enumerated "" (Fulfilled [mic; camA])] initialHook.

Example withCamA_selected : selectedDeviceId withCamA = "camA".
Proof. reflexivity. Qed.

(** C5, as stated, fails: [camA] is selected, the next enumeration lists only
    [camB], and [camA] stays selected. *)
Lemma C5_counterexample : ~ selection_policy_as_stated.
Proof.
  intros H.
  destruct (H withCamA [camB]) as (_ & _ & Habsent).
  assert (Hsel : selectedDeviceId withCamA <> "") by (vm_compute; discriminate).
  assert (Hnot : ~ present (selectedDeviceId withCamA) [camB]).
  { vm_compute. intros Hin. apply list_elem_of_In in Hin.
    destruct Hin as [Hin|[]]. discriminate. }
  specialize (Habsent Hsel Hnot). vm_compute in Habsent. discriminate.
Qed.

(** C5, amended.  After every enumeration, for the call made under the
    selection that is in force when it resolves: the device list is the
    video inputs in enumeration order.  If no device is selected and a video
    input exists, the first one, whose identity is not empty, becomes
    selected.  If a device is selected, the selection is left as it is,
    whether the selected identity is present in the new enumeration or
    absent from it: [getDevices] never clears the selection. *)
Theorem C5_selection_policy (h : Hook) (deviceList : list MediaDeviceInfo) :
  let h' := getDevices (selectedDeviceId h) (Fulfilled deviceList) h in
  devices h' = videoDevicesOf deviceList /\
  (selectedDeviceId h = "" ->
   forall first rest, videoDevicesOf deviceList = first :: rest ->
     deviceId first <> "" ->
     selectedDeviceId h' = deviceId first /\ selectedDeviceId h' <> "") /\
  (selectedDeviceId h <> "" -> present (selectedDeviceId h) deviceList ->
     selectedDeviceId h' = selectedDeviceId h) /\
  (selectedDeviceId h <> "" -> ~ present (selectedDeviceId h) deviceList ->
     selectedDeviceId h' = selectedDeviceId h).
Proof.
  cbn zeta. unfold getDevices, videoDevicesOf.
  destruct (List.filter isVideoInput deviceList) as [|first rest] eqn:Hv.
  - cbn. split; [reflexivity|]. split; [|split]; try reflexivity.
    intros _ first' rest' [=].
  - destruct (truthy (selectedDeviceId h)) eqn:Ht; cbn [negb].
    + apply truthy_true in Ht. cbn.
      split; [reflexivity|]. split; [|split]; try reflexivity.
      intros Hsel. contradiction.
    + apply truthy_false in Ht.
      rewrite setSelectedDeviceId_devices, setSelectedDeviceId_selected. cbn.
      split; [reflexivity|]. split; [|split]; try (intros; congruence).
      intros _ first' rest' [= <- _] Hid. auto.
Qed.

Lemma C5_selection_policy_witness :
  selectedDeviceId (getDevices "camA" (Fulfilled [camB]) withCamA) = "camA" /\
  selectedDeviceId (getDevices "" (Fulfilled [mic; camB; camA]) initialHook)
  = "camB".
Proof.
  split.
  - refine (proj2 (proj2 (proj2 (C5_selection_policy withCamA [camB]))) _ _).
    + discriminate.
    + vm_compute. intros Hin. apply list_elem_of_In in Hin.
      destruct Hin as [Hin|[]]. discriminate.
  - refine (proj1 (proj1 (proj2
              (C5_selection_policy initialHook [mic; camB; camA]))
              _ camB [camA] _ _)); [reflexivity|reflexivity|discriminate].
Defined.

(** The failure clause in the words of the design document. *)
Definition enumeration_failure_as_stated : Prop :=
  forall (h : Hook) (message : string),
    reachable h ->
    devices (getDevices (selectedDeviceId h) (Rejected message) h) = [].

(** C10, as stated, fails: after one successful enumeration a failing one
    leaves the list that was there. *)
Lemma C10_counterexample : ~ enumeration_failure_as_stated.
Proof.
  intros H.
  assert (Hr : reachable withCamA) by (eexists; reflexivity).
  specialize (H withCamA "NotAllowedError" Hr).
  vm_compute in H. discriminate.
Qed.

(** C10, amended.  A failing enumeration does not raise to the caller: it
    only writes the fault to the console and leaves the whole state of the
    hook as it was, so the caller goes on seeing the device list it saw
    before, which is empty as long as no enumeration has succeeded. *)
Theorem C10_enumeration_failure (h : Hook) (selectedSeen message : string) :
  let h' := getDevices selectedSeen (Rejected message) h in
  h' = emit (EvConsoleError
               (String.append "Error enumerating devices: " message)) h /\
  devices h' = devices h /\
  selectedDeviceId h' = selectedDeviceId h /\
  stream h' = stream h /\
  error h' = error h /\
  requests h' = requests h /\
  devices (getDevices selectedSeen (Rejected message) initialHook) = [].
Proof. cbn. repeat split; reflexivity. Qed.

(** ** Recording *)

Ltac break_match :=
  match goal with
  | |- context [match ?x with _ => _ end] => destruct x eqn:?
  end.

Ltac unfold_ops :=
  unfold getDevices, setSelectedDeviceId, setCompatibilityMode,
    primarySettled, fallbackSettled, unmountHook, streamAcquired,
    streamFailed, openStream, updateRequest, setStream, streamCleanup,
    streamEffect, stopTracks.

(** The events of the registry and of the negotiator. *)
Definition streamEvent (e : Event) : bool :=
  match e with
  | Enumerated _ _ | SelectDevice _ | SetCompatibility _
  | PrimarySettled _ _ | FallbackSettled _ _ | Unmount => true
  | _ => false
  end.

(** They leave the recording state alone. *)
Lemma streamEvent_frame (e : Event) (h : Hook) :
  streamEvent e = true ->
  recorders (step e h) = recorders h /\
  mediaRecorderRef (step e h) = mediaRecorderRef h /\
  isRecording (step e h) = isRecording h /\
  recordedChunksRef (step e h) = recordedChunksRef h.
Proof.
  destruct e; cbn [streamEvent step]; try discriminate; intros _;
    unfold_ops; repeat (break_match; cbn); auto.
Qed.

(** A recorder is live while it records or still owes its [stop] event. *)
Definition live (m : MediaRecorder) : Prop :=
  rec_state m = recording \/ rec_stopQueued m = true.

Definition recorder_inv (h : Hook) : Prop :=
  forall r m, recorders h !! r = Some m ->
    (rec_stopQueued m = true -> rec_state m = inactive) /\
    (live m -> mediaRecorderRef h = Some r /\ isRecording h = true).

(** Events as the interface produces them: recordings are started and
    stopped through [handleToggleRecord] only. *)
Definition uiDriven (e : Event) : bool :=
  match e with
  | StartRecording | StopRecording => false
  | _ => true
  end.

Definition reachableUI (h : Hook) : Prop :=
  exists es, forallb uiDriven es = true /\ h = run es initialHook.

Lemma recorder_inv_initial : recorder_inv initialHook.
Proof. intros r m Hl. cbn in Hl. now rewrite lookup_nil in Hl. Qed.

Lemma recorder_inv_no_live (h : Hook) :
  recorder_inv h -> isRecording h = false ->
  forall r m, recorders h !! r = Some m -> ~ live m.
Proof.
  intros Inv Hrec r m Hl Hlive.
  destruct (Inv r m Hl) as [_ H]. destruct (H Hlive) as [_ H']. congruence.
Qed.

Lemma recorder_inv_startRecording (h : Hook) :
  recorder_inv h -> isRecording h = false -> recorder_inv (startRecording h).
Proof.
  intros Inv Hrec. unfold startRecording.
  destruct (stream h) as [s|]; [|exact Inv].
  intros r m Hl. cbn in Hl.
  apply lookup_app_Some in Hl as [Hl|[Hlen Hl]].
  - pose proof (recorder_inv_no_live h Inv Hrec r m Hl) as Hn.
    split; [apply (Inv r m Hl)|]. intros Hlive. contradiction.
  - cbn. apply list_lookup_singleton_Some in Hl as [Hr <-]. cbn.
    split; [discriminate|]. intros _. split; [|reflexivity].
    f_equal. lia.
Qed.

Lemma inactivate_lookup (r r' : nat) (h : Hook) (m' : MediaRecorder) :
  recorders (inactivate r h) !! r' = Some m' ->
  exists m, recorders h !! r' = Some m /\
    (m' = m \/
     (r' = r /\ rec_state m = recording /\
      m' = {| rec_stream := rec_stream m; rec_state := inactive;
              rec_onstop := rec_onstop m; rec_stopQueued := true |})).
Proof.
  unfold inactivate.
  destruct (recorders h !! r) as [m|] eqn:Hr; [|eauto].
  destruct (rec_state m) eqn:Hs; [eauto|].
  cbn. intros Hl. destruct (decide (r = r')) as [<-|Hne].
  - rewrite list_lookup_insert_eq in Hl by (eapply lookup_lt_Some; eauto).
    injection Hl as <-. exists m. eauto.
  - rewrite list_lookup_insert_ne in Hl by exact Hne. eauto.
Qed.

Lemma inactivate_fields (r : nat) (h : Hook) :
  mediaRecorderRef (inactivate r h) = mediaRecorderRef h /\
  isRecording (inactivate r h) = isRecording h /\
  recordedChunksRef (inactivate r h) = recordedChunksRef h /\
  stream (inactivate r h) = stream h /\
  trace (inactivate r h) = trace h.
Proof. unfold inactivate. repeat (break_match; cbn); auto. Qed.

Lemma recorder_inv_inactivate (r : nat) (h : Hook) :
  recorder_inv h -> recorder_inv (inactivate r h).
Proof.
  intros Inv r' m' Hl.
  destruct (inactivate_fields r h) as (Href & Hrec & _).
  rewrite Href, Hrec.
  apply inactivate_lookup in Hl as (m & Hm & [->|(-> & Hs & ->)]).
  - apply (Inv r' m Hm).
  - cbn. split; [reflexivity|]. intros _.
    apply (Inv r m Hm). now left.
Qed.

Lemma installOnstop_lookup (r r' : nat) (h : Hook) (m' : MediaRecorder) :
  recorders (installOnstop r h) !! r' = Some m' ->
  exists m, recorders h !! r' = Some m /\
    rec_state m' = rec_state m /\ rec_stopQueued m' = rec_stopQueued m.
Proof.
  unfold installOnstop.
  destruct (recorders h !! r) as [m|] eqn:Hr; [|eauto].
  cbn. intros Hl. destruct (decide (r = r')) as [<-|Hne].
  - rewrite list_lookup_insert_eq in Hl by (eapply lookup_lt_Some; eauto).
    injection Hl as <-. exists m. eauto.
  - rewrite list_lookup_insert_ne in Hl by exact Hne. eauto.
Qed.

Lemma installOnstop_fields (r : nat) (h : Hook) :
  mediaRecorderRef (installOnstop r h) = mediaRecorderRef h /\
  isRecording (installOnstop r h) = isRecording h /\
  recordedChunksRef (installOnstop r h) = recordedChunksRef h /\
  stream (installOnstop r h) = stream h /\
  trace (installOnstop r h) = trace h.
Proof. unfold installOnstop. repeat (break_match; cbn); auto. Qed.

Lemma recorder_inv_installOnstop (r : nat) (h : Hook) :
  recorder_inv h -> recorder_inv (installOnstop r h).
Proof.
  intros Inv r' m' Hl.
  destruct (installOnstop_fields r h) as (Href & Hrec & _).
  rewrite Href, Hrec.
  apply installOnstop_lookup in Hl as (m & Hm & Hs & Hq).
  unfold live. rewrite Hs, Hq. apply (Inv r' m Hm).
Qed.

Lemma recorder_inv_emit (e : Ev) (h : Hook) :
  recorder_inv h -> recorder_inv (emit e h).
Proof. intros Inv. exact Inv. Qed.

Lemma recorder_inv_stopRecording (h : Hook) :
  recorder_inv h -> recorder_inv (snd (stopRecording h)).
Proof.
  intros Inv. unfold stopRecording.
  destruct (mediaRecorderRef h) as [r|]; [|exact Inv].
  cbn [snd]. unfold recorderStop.
  apply recorder_inv_inactivate, recorder_inv_emit,
    recorder_inv_installOnstop, Inv.
Qed.

Lemma recorder_inv_dataAvailable (r : nat) (data : Blob) (h : Hook) :
  recorder_inv h -> recorder_inv (dataAvailable r data h).
Proof.
  intros Inv. unfold dataAvailable. repeat (break_match; cbn); exact Inv.
Qed.

Lemma recorder_inv_stopEvent (r : nat) (h : Hook) :
  recorder_inv h -> recorder_inv (stopEvent r h).
Proof.
  intros Inv. unfold stopEvent.
  destruct (recorders h !! r) as [m|] eqn:Hr; [|exact Inv].
  destruct (rec_stopQueued m) eqn:Hq; [|exact Inv].
  destruct (Inv r m Hr) as [Hin Hlive].
  specialize (Hin Hq). destruct (Hlive (or_intror Hq)) as [Href Hrec].
  assert (Hdead : forall r' m',
    <[r := {| rec_stream := rec_stream m; rec_state := rec_state m;
              rec_onstop := rec_onstop m; rec_stopQueued := false |}]>
      (recorders h) !! r' = Some m' -> ~ live m' /\
      (rec_stopQueued m' = true -> rec_state m' = inactive)).
  { intros r' m' Hl. destruct (decide (r = r')) as [<-|Hne].
    - rewrite list_lookup_insert_eq in Hl by (eapply lookup_lt_Some; eauto).
      injection Hl as <-. cbn. split; [|discriminate].
      intros [Hs|Hs]; cbn in Hs; congruence.
    - rewrite list_lookup_insert_ne in Hl by exact Hne.
      destruct (Inv r' m' Hl) as [Hin' Hlive']. split; [|exact Hin'].
      intros Hl'. destruct (Hlive' Hl') as [Href' _]. congruence. }
  destruct (rec_onstop m); intros r' m' Hl; cbn in Hl;
    destruct (Hdead r' m' Hl) as [Hn Hi]; (split; [exact Hi|]);
    intros Hlive'; contradiction.
Qed.

Lemma step_recorder_inv (e : Event) (h : Hook) :
  uiDriven e = true -> recorder_inv h -> recorder_inv (step e h).
Proof.
  intros Hui Inv.
  destruct (streamEvent e) eqn:Hse.
  - destruct (streamEvent_frame e h Hse) as (Hr & Href & Hrec & _).
    intros r m. rewrite Hr, Href, Hrec. apply Inv.
  - destruct e; try discriminate; cbn [step].
    + unfold handleToggleRecord. destruct (isRecording h) eqn:Hrec.
      * now apply recorder_inv_stopRecording.
      * now apply recorder_inv_startRecording.
    + now apply recorder_inv_dataAvailable.
    + now apply recorder_inv_stopEvent.
    + now apply recorder_inv_inactivate.
Qed.

Lemma reachableUI_inv (h : Hook) : reachableUI h -> recorder_inv h.
Proof.
  intros (es & Hes & ->).
  induction es as [|e es IH] using rev_ind.
  - apply recorder_inv_initial.
  - rewrite forallb_app in Hes. apply andb_true_iff in Hes as [Hes He].
    cbn in He. rewrite andb_true_r in He.
    rewrite run_snoc. apply step_recorder_inv; auto.
Qed.

(** If every element that satisfies [p] sits at index [r], at most one
    element satisfies [p]. *)
Lemma filter_at_most_one {A : Type} (p : A -> bool) (l : list A) (r : nat) :
  (forall i x, l !! i = Some x -> p x = true -> i = r) ->
  length (List.filter p l) <= 1.
Proof.
  revert r. induction l as [|x l IH]; intros r H; cbn; [lia|].
  destruct (p x) eqn:Hp.
  - assert (Hnone : List.filter p l = []).
    { assert (Hr : 0 = r) by (apply (H 0 x); auto).
      clear IH. induction l as [|y l IH]; [reflexivity|]. cbn.
      destruct (p y) eqn:Hy.
      - specialize (H 1 y eq_refl Hy). lia.
      - apply IH. intros i z Hl Hz. destruct i; [auto|].
        specialize (H (S (S i)) z Hl Hz). lia. }
    rewrite Hnone. cbn. lia.
  - apply (IH (pred r)). intros i y Hl Hy.
    specialize (H (S i) y Hl Hy). lia.
Qed.

Lemma filter_none {A : Type} (p : A -> bool) (l : list A) :
  (forall i x, l !! i = Some x -> p x = false) -> List.filter p l = [].
Proof.
  induction l as [|x l IH]; intros H; cbn; [reflexivity|].
  rewrite (H 0 x eq_refl). apply IH. intros i y Hl. apply (H (S i) y Hl).
Qed.

Lemma inactivate_length (r : nat) (h : Hook) :
  length (recorders (inactivate r h)) = length (recorders h).
Proof.
  unfold inactivate. repeat (break_match; cbn); auto using length_insert.
Qed.

Lemma installOnstop_length (r : nat) (h : Hook) :
  length (recorders (installOnstop r h)) = length (recorders h).
Proof.
  unfold installOnstop. repeat (break_match; cbn); auto using length_insert.
Qed.

Lemma stopEvent_length (r : nat) (h : Hook) :
  length (recorders (stopEvent r h)) = length (recorders h).
Proof.
  unfold stopEvent. repeat (break_match; cbn); auto using length_insert.
Qed.

Lemma stopEvent_ref (r : nat) (h : Hook) :
  mediaRecorderRef (stopEvent r h) = mediaRecorderRef h.
Proof. unfold stopEvent. repeat (break_match; cbn); auto. Qed.

(** [stopRecording] makes no recorder and keeps the chunks. *)
Lemma stopRecording_keeps (h : Hook) :
  length (recorders (snd (stopRecording h))) = length (recorders h) /\
  recordedChunksRef (snd (stopRecording h)) = recordedChunksRef h /\
  mediaRecorderRef (snd (stopRecording h)) = mediaRecorderRef h.
Proof.
  unfold stopRecording. destruct (mediaRecorderRef h) as [r|] eqn:Href;
    cbn [snd]; [|auto].
  unfold recorderStop.
  destruct (inactivate_fields r (emit (EvRecorderStop r) (installOnstop r h)))
    as (H1 & _ & H2 & _).
  destruct (installOnstop_fields r h) as (H3 & _ & H4 & _).
  rewrite inactivate_length, H1, H2. cbn.
  rewrite installOnstop_length, H3, H4. auto.
Qed.

(** The hook after the stream of [camA] has been acquired. *)
Definition streaming : Hook :=
  run [Enumerated "" (Fulfilled [mic; camA]); PrimarySettled 0 Granted]
      initialHook.

Example streaming_stream : stream streaming = Some 0.
Proof. reflexivity. Qed.

(** A recording with one chunk received. *)
Definition recordingOneChunk : Hook :=
  run [ToggleRecord; DataAvailable 0 [7; 7; 7]] streaming.

(** The recording clause in the words of the design document: starting
    while a recording is in progress makes no second concurrent recorder and
    keeps the chunks. *)
Definition single_recording_as_stated : Prop :=
  forall h : Hook,
    reachable h -> isRecording h = true ->
    activeRecorders (startRecording h) <= 1 /\
    recordedChunksRef (startRecording h) = recordedChunksRef h.

(** C6, as stated, fails: [startRecording] has no guard.  Called during a
    recording it empties the chunk buffer and starts a second recorder while
    the first one still records. *)
Lemma C6_counterexample : ~ single_recording_as_stated.
Proof.
  intros H.
  assert (Hr : reachable recordingOneChunk).
  { unfold recordingOneChunk, streaming. rewrite <- run_app.
    eexists; reflexivity. }
  destruct (H recordingOneChunk Hr eq_refl) as [Hactive _].
  vm_compute in Hactive. lia.
Qed.

Example C6_counterexample_values :
  isRecording recordingOneChunk = true /\
  recordedChunksRef recordingOneChunk = [[7; 7; 7]] /\
  activeRecorders recordingOneChunk = 1 /\
  recordedChunksRef (startRecording recordingOneChunk) = [] /\
  activeRecorders (startRecording recordingOneChunk) = 2.
Proof. repeat split; reflexivity. Qed.

(** C6, amended.  As long as recordings are started and stopped through
    the record button of the interface ([handleToggleRecord], which calls
    [startRecording] only when [isRecording] is false), at most one recorder
    records at any time; the button starts a recorder only when none is
    recording or still owes its last chunks, and while [isRecording] is true
    it makes no recorder and leaves the collected chunks alone. *)
Theorem C6_single_recording (h : Hook) :
  reachableUI h ->
  activeRecorders h <= 1 /\
  (isRecording h = false ->
     activeRecorders h = 0 /\
     (forall r m, recorders h !! r = Some m -> ~ live m) /\
     step ToggleRecord h = startRecording h) /\
  (isRecording h = true ->
     length (recorders (step ToggleRecord h)) = length (recorders h) /\
     recordedChunksRef (step ToggleRecord h) = recordedChunksRef h).
Proof.
  intros Hui. pose proof (reachableUI_inv h Hui) as Inv.
  split; [|split].
  - unfold activeRecorders.
    destruct (mediaRecorderRef h) as [r|] eqn:Href.
    + apply (filter_at_most_one isActive (recorders h) r).
      intros i m Hl Ha. destruct (Inv i m Hl) as [_ Hlive].
      unfold isActive in Ha. destruct (rec_state m) eqn:Hs; [discriminate|].
      destruct (Hlive (or_introl Hs)) as [Hi _]. congruence.
    + rewrite filter_none; [cbn; lia|].
      intros i m Hl. destruct (Inv i m Hl) as [_ Hlive].
      unfold isActive. destruct (rec_state m) eqn:Hs; [reflexivity|].
      destruct (Hlive (or_introl Hs)) as [Hi _]. congruence.
  - intros Hrec. split; [|split].
    + unfold activeRecorders. rewrite filter_none; [reflexivity|].
      intros i m Hl. unfold isActive.
      destruct (rec_state m) eqn:Hs; [reflexivity|].
      exfalso. apply (recorder_inv_no_live h Inv Hrec i m Hl). now left.
    + now apply recorder_inv_no_live.
    + cbn [step]. unfold handleToggleRecord. now rewrite Hrec.
  - intros Hrec. cbn [step]. unfold handleToggleRecord. rewrite Hrec.
    destruct (stopRecording_keeps h) as (H1 & H2 & _). auto.
Qed.

Lemma C6_single_recording_witness :
  reachableUI recordingOneChunk /\ activeRecorders recordingOneChunk <= 1.
Proof.
  assert (Hui : reachableUI recordingOneChunk).
  { exists [Enumerated "" (Fulfilled [mic; camA]); PrimarySettled 0 Granted;
            ToggleRecord; DataAvailable 0 [7; 7; 7]].
    split; vm_compute; reflexivity. }
  split; [exact Hui|].
  exact (proj1 (C6_single_recording recordingOneChunk Hui)).
Defined.

(** A recording that was made and has ended. *)
Definition afterRecording : Hook :=
  run [ToggleRecord; DataAvailable 0 [7; 7; 7]; ToggleRecord; StopEvent 0]
      streaming.

Example afterRecording_values :
  isRecording afterRecording = false /\
  activeRecorders afterRecording = 0 /\
  mediaRecorderRef afterRecording = Some 0 /\
  trace afterRecording
  = [EvGetUserMedia (primaryConstraints false "camA"); EvAcquired 0;
     EvRecorderStart 0; EvRecorderStop 0; EvClip 0 [7; 7; 7]].
Proof. repeat split; reflexivity. Qed.

(** The stop clause in the words of the design document. *)
Definition stop_without_recording_as_stated : Prop :=
  forall h : Hook,
    reachable h -> isRecording h = false -> activeRecorders h = 0 ->
    fst (stopRecording h) = ResolvedNull.

(** C7, as stated, fails: once a recording has been made, the ref keeps the
    finished recorder, and [stopRecording] waits for a [stop] event that the
    inactive recorder never fires. *)
Lemma C7_counterexample : ~ stop_without_recording_as_stated.
Proof.
  intros H.
  assert (Hr : reachable afterRecording).
  { unfold afterRecording, streaming. rewrite <- run_app.
    eexists; reflexivity. }
  specialize (H afterRecording Hr eq_refl eq_refl).
  vm_compute in H. discriminate.
Qed.

Example C7_counterexample_value :
  fst (stopRecording afterRecording) = NeverSettles 0.
Proof. reflexivity. Qed.

Lemma ref_iff_no_recorder (h : Hook) :
  reachable h -> (mediaRecorderRef h = None <-> length (recorders h) = 0).
Proof.
  revert h. apply reachable_ind.
  - cbn. tauto.
  - intros e h _ IH.
    destruct (streamEvent e) eqn:Hse.
    { destruct (streamEvent_frame e h Hse) as (Hr & Href & _).
      now rewrite Hr, Href. }
    assert (Hstart : mediaRecorderRef (startRecording h) = None <->
                     length (recorders (startRecording h)) = 0).
    { unfold startRecording. destruct (stream h); [|exact IH].
      cbn. rewrite length_app. cbn. split; [discriminate|lia]. }
    assert (Hstop : mediaRecorderRef (snd (stopRecording h)) = None <->
                    length (recorders (snd (stopRecording h))) = 0).
    { destruct (stopRecording_keeps h) as (H1 & _ & H2).
      now rewrite H1, H2. }
    destruct e; try discriminate; cbn [step].
    + exact Hstart.
    + exact Hstop.
    + unfold handleToggleRecord. now destruct (isRecording h).
    + unfold dataAvailable. repeat (break_match; cbn); exact IH.
    + now rewrite stopEvent_length, stopEvent_ref.
    + unfold recorderEnded.
      destruct (inactivate_fields r h) as (H1 & _).
      now rewrite inactivate_length, H1.
Qed.

(** What the two guards of the recording functions do: [stopRecording]
    called while the recorder ref is still empty resolves to null and changes
    nothing, and in a reachable state the ref is empty exactly when no
    recording has been started yet; [startRecording] called with no active
    stream changes nothing and so starts no recorder. *)
Lemma recording_guards (h : Hook) :
  (mediaRecorderRef h = None -> stopRecording h = (ResolvedNull, h)) /\
  (reachable h -> (mediaRecorderRef h = None <-> recorders h = [])) /\
  (stream h = None -> startRecording h = h).
Proof.
  split; [|split].
  - intros Href. unfold stopRecording. now rewrite Href.
  - intros Hr. rewrite (ref_iff_no_recorder h Hr).
    destruct (recorders h); cbn; split; congruence.
  - intros Hs. unfold startRecording. now rewrite Hs.
Qed.

(** The same dead end through the record button alone: the platform ends
    the recording (the tracks of its stream were stopped), nobody listens to
    its [stop] event, and the next press of the button waits for ever. *)
Definition endedByPlatform : Hook :=
  run [ToggleRecord; RecorderEnded 0; StopEvent 0] streaming.

Example endedByPlatform_stuck :
  reachableUI endedByPlatform /\
  activeRecorders endedByPlatform = 0 /\
  isRecording endedByPlatform = true /\
  fst (stopRecording endedByPlatform) = NeverSettles 0 /\
  isRecording (step ToggleRecord endedByPlatform) = true.
Proof.
  split; [|repeat split; reflexivity].
  exists [Enumerated "" (Fulfilled [mic; camA]); PrimarySettled 0 Granted;
          ToggleRecord; RecorderEnded 0; StopEvent 0].
  split; vm_compute; reflexivity.
Qed.

(** C7.  [stopRecording] called with no recording in progress should
    resolve to null.  After one recording has been made and has ended, no
    recording is in progress ([isRecording] is false and no recorder
    records), yet the recorder ref still holds the finished recorder: the
    null guard is passed, [stop()] is called on a recorder that is inactive,
    and the promise is left waiting for a [stop] event that never comes.
    With no stream, [startRecording] does change nothing. *)
Theorem C7_stale_recorder_ref :
  reachable afterRecording /\
  isRecording afterRecording = false /\
  activeRecorders afterRecording = 0 /\
  mediaRecorderRef afterRecording = Some 0 /\
  fst (stopRecording afterRecording) = NeverSettles 0 /\
  fst (stopRecording afterRecording) <> ResolvedNull /\
  (forall h, stream h = None -> startRecording h = h).
Proof.
  split.
  { unfold afterRecording, streaming. rewrite <- run_app.
    eexists; reflexivity. }
  repeat split; try reflexivity; try discriminate.
  intros h Hs. unfold startRecording. now rewrite Hs.
Qed.

(** ** Stream negotiation *)

Ltac unfold_recording :=
  unfold handleToggleRecord, stopRecording, startRecording, recorderStop,
    recorderEnded, dataAvailable, stopEvent, inactivate, installOnstop,
    willFireStop.

Ltac unfold_all := cbn [step]; unfold_ops; unfold_recording.

(** What one event can do to the active stream: keep it, clear it, or put
    the stream the platform has just created. *)
Lemma step_stream_cases (e : Event) (h : Hook) :
  (stream (step e h) = stream h /\ nextStream h <= nextStream (step e h)) \/
  (stream (step e h) = None /\ nextStream h <= nextStream (step e h)) \/
  (stream (step e h) = Some (nextStream h) /\
   nextStream (step e h) = S (nextStream h)).
Proof.
  destruct e; unfold_all; repeat (break_match; cbn); auto.
Qed.

(** The active stream is one the platform has created. *)
Definition stream_known (h : Hook) : Prop :=
  forall s, stream h = Some s -> s < nextStream h.

Lemma reachable_stream_known (h : Hook) : reachable h -> stream_known h.
Proof.
  revert h. apply reachable_ind.
  - intros s [=].
  - intros e h _ IH s Hs.
    destruct (step_stream_cases e h) as [[H1 H2]|[[H1 H2]|[H1 H2]]].
    + rewrite H1 in Hs. specialize (IH s Hs). lia.
    + congruence.
    + rewrite H1 in Hs. injection Hs as <-. lia.
Qed.

(** A stream that is not active and that the platform has already created
    never becomes active. *)
Lemma never_active_again (es : list Event) (h : Hook) (n : MediaStream) :
  n < nextStream h -> stream h <> Some n -> stream (run es h) <> Some n.
Proof.
  revert h. induction es as [|e es IH]; intros h Hn Hs; [exact Hs|].
  cbn. apply IH.
  - destruct (step_stream_cases e h) as [[_ H]|[[_ H]|[_ H]]]; lia.
  - destruct (step_stream_cases e h) as [[H _]|[[H _]|[H _]]];
      rewrite H; [exact Hs|discriminate|]. intros [= Heq]. lia.
Qed.

Lemma emitted_app (e : Event) (h : Hook) (l : list Ev) :
  trace (step e h) = trace h ++ l -> emitted e h = l.
Proof. intros H. unfold emitted. rewrite H. apply drop_app_length. Qed.

Ltac trace_shape :=
  rewrite <- ?app_assoc; cbn [app];
  first [ reflexivity | symmetry; apply app_nil_r ].

(** Events that stop no track at all. *)
Definition settling (e : Event) : bool :=
  match e with
  | PrimarySettled _ _ | FallbackSettled _ _ | Unmount => true
  | _ => false
  end.

Lemma other_events_stop_nothing (e : Event) (h : Hook) (s : MediaStream) :
  settling e = false -> EvTrackStop s ∉ emitted e h.
Proof.
  intros He.
  assert (H : exists l, trace (step e h) = trace h ++ l /\
                        forall s, EvTrackStop s ∉ l).
  { destruct e; try discriminate; unfold_all; repeat (break_match; cbn);
      first
        [ exists []; split; [trace_shape | intros ?; apply not_elem_of_nil]
        | eexists [_]; split; [trace_shape |];
          intros ? Hin; apply list_elem_of_singleton in Hin; discriminate ]. }
  destruct H as (l & Hl & Hno). rewrite (emitted_app e h l Hl). apply Hno.
Qed.

(** The state in which [streamAcquired] and [streamFailed] run once the
    closure [rid] has finished waiting. *)
Definition granted (rid : nat) (r : Request) (h : Hook) : Hook :=
  updateRequest rid (withPhase Finished r) (snd (openStream h)).

Lemma primarySettled_granted (rid : nat) (r : Request) (h : Hook) :
  requests h !! rid = Some r -> phase r = AwaitPrimary ->
  primarySettled rid Granted h
  = streamAcquired r (nextStream h) (granted rid r h).
Proof. intros Hr Hp. unfold primarySettled. now rewrite Hr, Hp. Qed.

Lemma fallbackSettled_granted (rid : nat) (r : Request) (h : Hook) :
  requests h !! rid = Some r -> phase r = AwaitFallback ->
  fallbackSettled rid Granted h
  = streamAcquired r (nextStream h) (granted rid r h).
Proof. intros Hr Hp. unfold fallbackSettled. now rewrite Hr, Hp. Qed.

Lemma fallbackSettled_denied (rid : nat) (r : Request) (h : Hook)
    (message : string) :
  requests h !! rid = Some r -> phase r = AwaitFallback ->
  fallbackSettled rid (Denied message) h
  = streamFailed r message (updateRequest rid (withPhase Finished r) h).
Proof. intros Hr Hp. unfold fallbackSettled. now rewrite Hr, Hp. Qed.

Lemma primarySettled_denied (rid : nat) (r : Request) (h : Hook)
    (message : string) :
  requests h !! rid = Some r -> phase r = AwaitPrimary ->
  primarySettled rid (Denied message) h
  = emit (EvGetUserMedia (minimalConstraints (req_device r)))
      (emit (EvConsoleWarn message)
         (updateRequest rid (withPhase AwaitFallback r) h)).
Proof. intros Hr Hp. unfold primarySettled. now rewrite Hr, Hp. Qed.

Lemma granted_fields (rid : nat) (r : Request) (h : Hook) :
  stream (granted rid r h) = stream h /\
  error (granted rid r h) = error h /\
  nextStream (granted rid r h) = S (nextStream h) /\
  trace (granted rid r h) = trace h ++ [EvAcquired (nextStream h)].
Proof. unfold granted, updateRequest, openStream. cbn. auto. Qed.

(** The hand-over of a closure that is still mounted. *)
Lemma streamAcquired_mounted (r : Request) (n : MediaStream) (h : Hook) :
  mounted r = true ->
  stream (streamAcquired r n h) = Some n /\
  error (streamAcquired r n h) = None /\
  forall s, stream h = Some s -> n <> s ->
    trace (streamAcquired r n h) = trace h ++ [EvTrackStop s; EvTrackStop s].
Proof.
  intros Hm. unfold streamAcquired. rewrite Hm.
  destruct (stream h) as [s|] eqn:Hs.
  - unfold setStream, streamCleanup, stopTracks. cbn. rewrite Hs.
    case_decide as Hd; cbn.
    + split; [congruence|]. split; [reflexivity|].
      intros s' [= <-] Hne. congruence.
    + split; [reflexivity|]. split; [reflexivity|].
      intros s' [= <-] _. now rewrite <- app_assoc.
  - unfold setStream, streamCleanup. rewrite Hs.
    case_decide as Hd; [discriminate|]. cbn.
    split; [reflexivity|]. split; [reflexivity|]. intros s' [=].
Qed.

(** The result of a closure that was abandoned. *)
Lemma streamAcquired_abandoned (r : Request) (n : MediaStream) (h : Hook) :
  mounted r = false -> streamAcquired r n h = emit (EvTrackStop n) h.
Proof. intros Hm. unfold streamAcquired. now rewrite Hm. Qed.

Lemma streamFailed_mounted (r : Request) (message : string) (h : Hook) :
  mounted r = true ->
  stream (streamFailed r message h) = None /\
  error (streamFailed r message h)
  = Some (String.append "Failed to connect: " message) /\
  requests (streamFailed r message h) = requests h /\
  (forall s, stream h = Some s ->
     trace (streamFailed r message h)
     = trace h ++ [EvConsoleError message; EvTrackStop s]) /\
  (stream h = None ->
     trace (streamFailed r message h) = trace h ++ [EvConsoleError message]).
Proof.
  intros Hm. unfold streamFailed. rewrite Hm.
  unfold setStream, streamCleanup, stopTracks. cbn.
  destruct (stream h) as [s|] eqn:Hs.
  - case_decide as Hd; [discriminate|]. cbn.
    repeat split; try reflexivity; try discriminate.
    intros s' [= <-]. now rewrite <- app_assoc.
  - case_decide as Hd; [|congruence]. cbn.
    repeat split; try reflexivity; auto. intros s' [=].
Qed.

Lemma streamFailed_abandoned (r : Request) (message : string) (h : Hook) :
  mounted r = false ->
  streamFailed r message h = emit (EvConsoleError message) h.
Proof. intros Hm. unfold streamFailed. now rewrite Hm. Qed.

Ltac elem_cases H :=
  repeat (apply elem_of_cons in H as [H|H]; [try discriminate H|]);
  try (apply elem_of_nil in H; contradiction).

Lemma emitted_nothing (e : Event) (h : Hook) (x : Ev) :
  step e h = h -> x ∉ emitted e h.
Proof.
  intros H. unfold emitted. rewrite H, drop_all. apply not_elem_of_nil.
Qed.

(** A second device is selected while [camA] streams, and its first
    [getUserMedia] has failed. *)
Definition switching : Hook :=
  run [SelectDevice "camB"; PrimarySettled 1 (Denied "NotReadableError")]
      streaming.

Example switching_values :
  stream switching = Some 0 /\
  requests switching
  = [ {| req_device := "camA"; req_compat := false; mounted := false;
         phase := Finished |};
      {| req_device := "camB"; req_compat := false; mounted := true;
         phase := AwaitFallback |} ].
Proof. split; reflexivity. Qed.

(** The first clause of C1 in the words of the design document: whenever an
    event other than the unmount stops the tracks of the active stream, some
    other stream has been acquired by then. *)
Definition release_only_after_acquire_as_stated : Prop :=
  forall (h : Hook) (e : Event) (s : MediaStream),
    reachable h -> e <> Unmount -> stream h = Some s ->
    EvTrackStop s ∈ emitted e h ->
    exists n, n <> s /\ EvAcquired n ∈ trace (step e h).

(** C1, as stated, fails: when both attempts for [camB] fail, the stream of
    [camA] is stopped although no replacement was ever acquired. *)
Lemma C1_counterexample : ~ release_only_after_acquire_as_stated.
Proof.
  intros H.
  assert (Hr : reachable switching).
  { unfold switching, streaming. rewrite <- run_app. eexists; reflexivity. }
  destruct (H switching (FallbackSettled 1 (Denied "NotReadableError")) 0 Hr)
    as (n & Hne & Hin).
  - discriminate.
  - reflexivity.
  - apply list_elem_of_In. vm_compute. auto.
  - apply list_elem_of_In in Hin. vm_compute in Hin.
    repeat (destruct Hin as [Hin|Hin]; [try discriminate Hin|]);
      [|contradiction].
    injection Hin as <-. contradiction.
Qed.

Example C1_counterexample_trace :
  emitted (FallbackSettled 1 (Denied "NotReadableError")) switching
  = [EvConsoleError "NotReadableError"; EvTrackStop 0] /\
  stream (step (FallbackSettled 1 (Denied "NotReadableError")) switching)
  = None.
Proof. split; reflexivity. Qed.

(** The closure [rid] settles with a stream. *)
Definition settlesGranted (h : Hook) (rid : nat) (r : Request) (e : Event)
  : Prop :=
  requests h !! rid = Some r /\
  ((phase r = AwaitPrimary /\ e = PrimarySettled rid Granted) \/
   (phase r = AwaitFallback /\ e = FallbackSettled rid Granted)).

Lemma settlesGranted_step (h : Hook) (rid : nat) (r : Request) (e : Event) :
  settlesGranted h rid r e ->
  step e h = streamAcquired r (nextStream h) (granted rid r h).
Proof.
  intros [Hr [[Hp ->]|[Hp ->]]]; cbn [step].
  - now apply primarySettled_granted.
  - now apply fallbackSettled_granted.
Qed.

Lemma granted_switch (h : Hook) (rid : nat) (r : Request) (e : Event)
    (s : MediaStream) :
  stream_known h -> settlesGranted h rid r e -> mounted r = true ->
  stream h = Some s ->
  nextStream h <> s /\
  emitted e h = [EvAcquired (nextStream h); EvTrackStop s; EvTrackStop s] /\
  stream (step e h) = Some (nextStream h).
Proof.
  intros Hk Hset Hm Hs.
  assert (Hne : nextStream h <> s) by (specialize (Hk s Hs); lia).
  rewrite (settlesGranted_step h rid r e Hset).
  destruct (granted_fields rid r h) as (Hgs & _ & _ & Hgt).
  destruct (streamAcquired_mounted r (nextStream h) (granted rid r h) Hm)
    as (Hst & _ & Htr).
  split; [exact Hne|]. split; [|exact Hst].
  unfold emitted. rewrite (settlesGranted_step h rid r e Hset).
  rewrite (Htr s) by congruence.
  rewrite Hgt, <- app_assoc. apply drop_app_length.
Qed.

Lemma granted_abandoned (h : Hook) (rid : nat) (r : Request) (e : Event) :
  settlesGranted h rid r e -> mounted r = false ->
  emitted e h = [EvAcquired (nextStream h); EvTrackStop (nextStream h)] /\
  stream (step e h) = stream h /\
  nextStream (step e h) = S (nextStream h).
Proof.
  intros Hset Hm.
  destruct (granted_fields rid r h) as (Hgs & _ & Hgn & Hgt).
  unfold emitted. rewrite (settlesGranted_step h rid r e Hset).
  rewrite (streamAcquired_abandoned r _ _ Hm). cbn.
  rewrite <- app_assoc. split; [apply drop_app_length|auto].
Qed.

Lemma primarySettled_idle (rid : nat) (o : Outcome) (h : Hook) :
  (forall r, requests h !! rid = Some r -> phase r <> AwaitPrimary) ->
  primarySettled rid o h = h.
Proof.
  intros H. unfold primarySettled.
  destruct (requests h !! rid) as [r|]; [|reflexivity].
  specialize (H r eq_refl). now destruct (phase r).
Qed.

Lemma fallbackSettled_idle (rid : nat) (o : Outcome) (h : Hook) :
  (forall r, requests h !! rid = Some r -> phase r <> AwaitFallback) ->
  fallbackSettled rid o h = h.
Proof.
  intros H. unfold fallbackSettled.
  destruct (requests h !! rid) as [r|]; [|reflexivity].
  specialize (H r eq_refl). now destruct (phase r).
Qed.

(** The closure [rid] settles with the failure of its second attempt. *)
Definition settlesFailed (h : Hook) (rid : nat) (r : Request)
    (message : string) (e : Event) : Prop :=
  requests h !! rid = Some r /\ phase r = AwaitFallback /\
  e = FallbackSettled rid (Denied message).

Lemma failed_mounted (h : Hook) (rid : nat) (r : Request) (message : string)
    (e : Event) :
  settlesFailed h rid r message e -> mounted r = true ->
  stream (step e h) = None /\
  error (step e h) = Some (String.append "Failed to connect: " message) /\
  (forall s, stream h = Some s ->
     emitted e h = [EvConsoleError message; EvTrackStop s]) /\
  (stream h = None -> emitted e h = [EvConsoleError message]).
Proof.
  intros (Hr & Hp & ->) Hm. unfold emitted. cbn [step].
  rewrite (fallbackSettled_denied rid r h message Hr Hp).
  destruct (streamFailed_mounted r message
              (updateRequest rid (withPhase Finished r) h) Hm)
    as (Hs & He & _ & Ht1 & Ht2).
  split; [exact Hs|]. split; [exact He|]. split.
  - intros s Hs'. rewrite (Ht1 s Hs'). cbn. apply drop_app_length.
  - intros Hs'. rewrite (Ht2 Hs'). cbn. apply drop_app_length.
Qed.

Lemma failed_abandoned (h : Hook) (rid : nat) (r : Request) (message : string)
    (e : Event) :
  settlesFailed h rid r message e -> mounted r = false ->
  stream (step e h) = stream h /\
  error (step e h) = error h /\
  emitted e h = [EvConsoleError message].
Proof.
  intros (Hr & Hp & ->) Hm. unfold emitted. cbn [step].
  rewrite (fallbackSettled_denied rid r h message Hr Hp).
  rewrite (streamFailed_abandoned r message _ Hm). cbn.
  split; [reflexivity|]. split; [reflexivity|]. apply drop_app_length.
Qed.

Lemma retry_emitted (h : Hook) (rid : nat) (r : Request) (message : string) :
  requests h !! rid = Some r -> phase r = AwaitPrimary ->
  emitted (PrimarySettled rid (Denied message)) h
  = [EvConsoleWarn message;
     EvGetUserMedia (minimalConstraints (req_device r))].
Proof.
  intros Hr Hp. unfold emitted. cbn [step].
  rewrite (primarySettled_denied rid r h message Hr Hp). cbn.
  rewrite <- app_assoc. apply drop_app_length.
Qed.

(** Which settlement stops the active stream, and what it emits. *)
Lemma settle_stops_active (h : Hook) (e : Event) (s : MediaStream) :
  stream_known h -> stream h = Some s -> settling e = true ->
  e <> Unmount -> EvTrackStop s ∈ emitted e h ->
  (exists rid r, settlesGranted h rid r e /\ mounted r = true) \/
  (exists rid r message, settlesFailed h rid r message e /\ mounted r = true).
Proof.
  intros Hk Hs Hset Hne Hin.
  destruct e as [| | |rid o|rid o| | | | | | |]; try discriminate;
    [| |congruence].
  - destruct (requests h !! rid) as [r|] eqn:Hr.
    2:{ exfalso. revert Hin. apply emitted_nothing, primarySettled_idle.
        intros r' Hr'. congruence. }
    destruct (decide (phase r = AwaitPrimary)) as [Hp|Hp].
    2:{ exfalso. revert Hin. apply emitted_nothing, primarySettled_idle.
        intros r' Hr'. congruence. }
    destruct o as [|message].
    + assert (Hg : settlesGranted h rid r (PrimarySettled rid Granted))
        by (split; auto).
      destruct (mounted r) eqn:Hm; [left; eauto|].
      exfalso. destruct (granted_abandoned h rid r _ Hg Hm) as (He & _).
      rewrite He in Hin. elem_cases Hin.
      injection Hin as Heq. specialize (Hk s Hs). lia.
    + exfalso. rewrite (retry_emitted h rid r message Hr Hp) in Hin.
      elem_cases Hin.
  - destruct (requests h !! rid) as [r|] eqn:Hr.
    2:{ exfalso. revert Hin. apply emitted_nothing, fallbackSettled_idle.
        intros r' Hr'. congruence. }
    destruct (decide (phase r = AwaitFallback)) as [Hp|Hp].
    2:{ exfalso. revert Hin. apply emitted_nothing, fallbackSettled_idle.
        intros r' Hr'. congruence. }
    destruct o as [|message].
    + assert (Hg : settlesGranted h rid r (FallbackSettled rid Granted))
        by (split; auto).
      destruct (mounted r) eqn:Hm; [left; eauto|].
      exfalso. destruct (granted_abandoned h rid r _ Hg Hm) as (He & _).
      rewrite He in Hin. elem_cases Hin.
      injection Hin as Heq. specialize (Hk s Hs). lia.
    + assert (Hf : settlesFailed h rid r message
                     (FallbackSettled rid (Denied message)))
        by (repeat split; auto).
      destruct (mounted r) eqn:Hm; [right; eauto|].
      exfalso. destruct (failed_abandoned h rid r message _ Hf Hm)
        as (_ & _ & He).
      rewrite He in Hin. elem_cases Hin.
Qed.

(** The events that abandon the closures made so far: the unmount, and a
    change of the selected device or of the compatibility mode. *)
Definition abandons (h : Hook) (e : Event) : Prop :=
  e = Unmount \/
  (exists id, e = SelectDevice id /\ id <> selectedDeviceId h) \/
  (exists b, e = SetCompatibility b /\ b <> compatibilityMode h).

Lemma streamEffect_unmounts (h : Hook) (rid : nat) (r : Request) :
  requests h !! rid = Some r ->
  requests (streamEffect h) !! rid = Some (unmount r).
Proof.
  intros Hr. unfold streamEffect. cbn.
  assert (Hm : map unmount (requests h) !! rid = Some (unmount r))
    by (rewrite list_lookup_fmap, Hr; reflexivity).
  destruct (truthy (selectedDeviceId h)); cbn; [|exact Hm].
  rewrite lookup_app_l; [exact Hm|].
  rewrite length_map. eapply lookup_lt_Some; eauto.
Qed.

Lemma abandons_unmounts (h : Hook) (e : Event) (rid : nat) (r : Request) :
  abandons h e -> requests h !! rid = Some r ->
  requests (step e h) !! rid = Some (unmount r).
Proof.
  intros [->|[(id & -> & Hne)|(b & -> & Hne)]] Hr; cbn [step].
  - unfold unmountHook, streamCleanup.
    destruct (stream _); cbn; rewrite list_lookup_fmap, Hr; reflexivity.
  - unfold setSelectedDeviceId. case_decide; [congruence|].
    now apply streamEffect_unmounts.
  - unfold setCompatibilityMode. case_decide; [congruence|].
    now apply streamEffect_unmounts.
Qed.

(** C1, amended.  In every reachable state:
    - an event other than the unmount stops the tracks of the active stream
      only when it settles an acquisition of a closure that is still
      mounted: either the replacement has just been acquired, and the old
      tracks are stopped after that and the replacement becomes the active
      stream, or the second and last attempt has failed, and the old tracks
      are stopped as the stream is set to null;
    - the unmount and every change of the selected device or of the
      compatibility mode clear the [mounted] flag of the closures made so
      far;
    - when a closure that was abandoned in this way acquires a stream, the
      tracks of that stream are stopped at once, the active stream stays
      what it was, and the stream never becomes active. *)
Theorem C1_stream_switch (h : Hook) :
  reachable h ->
  (forall e s,
      stream h = Some s -> e <> Unmount -> EvTrackStop s ∈ emitted e h ->
      (exists rid r,
          settlesGranted h rid r e /\ mounted r = true /\
          nextStream h <> s /\
          emitted e h
          = [EvAcquired (nextStream h); EvTrackStop s; EvTrackStop s] /\
          stream (step e h) = Some (nextStream h)) \/
      (exists rid r message,
          settlesFailed h rid r message e /\ mounted r = true /\
          emitted e h = [EvConsoleError message; EvTrackStop s] /\
          stream (step e h) = None)) /\
  (forall rid r e,
      abandons h e -> requests h !! rid = Some r ->
      requests (step e h) !! rid = Some (unmount r)) /\
  (forall rid r e,
      settlesGranted h rid r e -> mounted r = false ->
      emitted e h = [EvAcquired (nextStream h); EvTrackStop (nextStream h)] /\
      stream (step e h) = stream h /\
      stream (step e h) <> Some (nextStream h) /\
      forall es, stream (run es (step e h)) <> Some (nextStream h)).
Proof.
  intros Hr. pose proof (reachable_stream_known h Hr) as Hk.
  split; [|split].
  - intros e s Hs Hne Hin.
    destruct (settling e) eqn:Hset.
    2:{ exfalso. revert Hin. now apply other_events_stop_nothing. }
    destruct (settle_stops_active h e s Hk Hs Hset Hne Hin)
      as [(rid & r & Hg & Hm)|(rid & r & message & Hf & Hm)].
    + left. exists rid, r.
      destruct (granted_switch h rid r e s Hk Hg Hm Hs) as (H1 & H2 & H3).
      auto.
    + right. exists rid, r, message.
      destruct (failed_mounted h rid r message e Hf Hm) as (H1 & _ & H2 & _).
      auto.
  - intros rid r e Hab Hreq. now apply abandons_unmounts.
  - intros rid r e Hg Hm.
    destruct (granted_abandoned h rid r e Hg Hm) as (He & Hs & Hn).
    assert (Hnot : stream (step e h) <> Some (nextStream h)).
    { rewrite Hs. intros Heq. specialize (Hk _ Heq). lia. }
    split; [exact He|]. split; [exact Hs|]. split; [exact Hnot|].
    intros es. apply never_active_again; [lia|exact Hnot].
Qed.

(** [camB] is selected while the request for [camA] is still in flight. *)
Definition superseded : Hook :=
  run [Enumerated "" (Fulfilled [mic; camA]); SelectDevice "camB"] initialHook.

Lemma C1_stream_switch_witness :
  reachable superseded /\
  emitted (PrimarySettled 0 Granted) superseded
  = [EvAcquired 0; EvTrackStop 0] /\
  forall es, stream (run es (step (PrimarySettled 0 Granted) superseded))
             <> Some 0.
Proof.
  assert (Hr : reachable superseded) by (eexists; reflexivity).
  split; [exact Hr|].
  destruct (proj2 (proj2 (C1_stream_switch superseded Hr)) 0
              {| req_device := "camA"; req_compat := false;
                 mounted := false; phase := AwaitPrimary |}
              (PrimarySettled 0 Granted)) as (H1 & _ & _ & H2).
  - split; [reflexivity|]. left. split; reflexivity.
  - reflexivity.
  - split; [exact H1|exact H2].
Defined.

(** ** The constraint ladder *)

Lemma updateRequest_lookup (rid : nat) (r r' : Request) (h : Hook) :
  requests h !! rid = Some r ->
  requests (updateRequest rid r' h) !! rid = Some r'.
Proof.
  intros Hr. unfold updateRequest. cbn.
  apply list_lookup_insert_eq. eapply lookup_lt_Some; eauto.
Qed.

Lemma streamFailed_requests (r : Request) (message : string) (h : Hook) :
  requests (streamFailed r message h) = requests h.
Proof.
  destruct (mounted r) eqn:Hm.
  - apply (streamFailed_mounted r message h Hm).
  - now rewrite (streamFailed_abandoned r message h Hm).
Qed.

(** The request for [camA] is on its second attempt when [camB] is selected
    and the stream of [camB] arrives. *)
Definition abandonedRetry : Hook :=
  run [Enumerated "" (Fulfilled [mic; camA]);
       PrimarySettled 0 (Denied "OverconstrainedError");
       SelectDevice "camB";
       PrimarySettled 1 Granted] initialHook.

Example abandonedRetry_values :
  stream abandonedRetry = Some 0 /\
  error abandonedRetry = None /\
  requests abandonedRetry !! 0
  = Some {| req_device := "camA"; req_compat := false; mounted := false;
            phase := AwaitFallback |}.
Proof. repeat split; reflexivity. Qed.

(** The failure clause of C2 in the words of the design document: when the
    second attempt fails too, a fault message is set and the active stream is
    null. *)
Definition acquisition_failure_as_stated : Prop :=
  forall (h : Hook) (rid : nat) (r : Request) (message : string) (e : Event),
    reachable h -> settlesFailed h rid r message e ->
    (exists text, error (step e h) = Some text) /\ stream (step e h) = None.

(** C2, as stated, fails for a closure that was abandoned: its failure is
    only logged, no message is set and the active stream stays. *)
Lemma C2_counterexample : ~ acquisition_failure_as_stated.
Proof.
  intros H.
  assert (Hr : reachable abandonedRetry) by (eexists; reflexivity).
  destruct (H abandonedRetry 0
              {| req_device := "camA"; req_compat := false; mounted := false;
                 phase := AwaitFallback |}
              "NotReadableError"
              (FallbackSettled 0 (Denied "NotReadableError")) Hr)
    as [_ Hs].
  - repeat split; reflexivity.
  - vm_compute in Hs. discriminate.
Qed.

(** C2, amended.  For a closure [rid] of the stream effect:
    - when its first [getUserMedia] fails, the failure is logged as a warning
      and [getUserMedia] is called once more, with the exact device identity
      and nothing else; stream and error are not touched;
    - when that second call fails too, [getUserMedia] is not called again and
      the closure has finished: whatever settles for it later changes
      nothing.  If the closure is still mounted, the error is the text
      [Failed to connect: ] followed by the message, the active stream is
      null and the tracks of the stream that was active are stopped.  If the
      closure was abandoned, error and stream stay as they were. *)
Theorem C2_fallback_ladder (h : Hook) (rid : nat) (r : Request)
    (message : string) :
  requests h !! rid = Some r ->
  (phase r = AwaitPrimary ->
     let e := PrimarySettled rid (Denied message) in
     emitted e h
     = [EvConsoleWarn message;
        EvGetUserMedia {| exactDeviceId := req_device r; idealWidth := None;
                          idealHeight := None; idealFrameRate := None |}] /\
     requests (step e h) !! rid = Some (withPhase AwaitFallback r) /\
     stream (step e h) = stream h /\
     error (step e h) = error h) /\
  (phase r = AwaitFallback ->
     let e := FallbackSettled rid (Denied message) in
     (forall c, EvGetUserMedia c ∉ emitted e h) /\
     requests (step e h) !! rid = Some (withPhase Finished r) /\
     (forall o, step (PrimarySettled rid o) (step e h) = step e h /\
                step (FallbackSettled rid o) (step e h) = step e h) /\
     (mounted r = true ->
        error (step e h) = Some (String.append "Failed to connect: " message) /\
        stream (step e h) = None /\
        forall s, stream h = Some s -> EvTrackStop s ∈ emitted e h) /\
     (mounted r = false ->
        error (step e h) = error h /\ stream (step e h) = stream h)).
Proof.
  intros Hr. split.
  - intros Hp e. subst e. split; [|split].
    + now apply retry_emitted.
    + cbn [step]. rewrite (primarySettled_denied rid r h message Hr Hp). cbn.
      apply list_lookup_insert_eq. eapply lookup_lt_Some; eauto.
    + cbn [step]. rewrite (primarySettled_denied rid r h message Hr Hp).
      cbn. auto.
  - intros Hp e. subst e.
    assert (Hf : settlesFailed h rid r message
                   (FallbackSettled rid (Denied message)))
      by (repeat split; auto).
    assert (Hreq : requests (step (FallbackSettled rid (Denied message)) h)
                     !! rid = Some (withPhase Finished r)).
    { cbn [step]. rewrite (fallbackSettled_denied rid r h message Hr Hp).
      rewrite streamFailed_requests. now apply (updateRequest_lookup rid r). }
    split; [|split; [exact Hreq|split; [|split]]].
    + intros c Hin. destruct (mounted r) eqn:Hm.
      * destruct (failed_mounted h rid r message _ Hf Hm) as (_ & _ & H1 & H2).
        destruct (stream h) as [s|].
        -- rewrite (H1 s eq_refl) in Hin. elem_cases Hin.
        -- rewrite (H2 eq_refl) in Hin. elem_cases Hin.
      * destruct (failed_abandoned h rid r message _ Hf Hm) as (_ & _ & H1).
        rewrite H1 in Hin. elem_cases Hin.
    + intros o. cbn [step]. split.
      * apply primarySettled_idle. intros r' Hr'.
        cbn [step] in Hreq. rewrite Hreq in Hr'. injection Hr' as <-.
        discriminate.
      * apply fallbackSettled_idle. intros r' Hr'.
        cbn [step] in Hreq. rewrite Hreq in Hr'. injection Hr' as <-.
        discriminate.
    + intros Hm.
      destruct (failed_mounted h rid r message _ Hf Hm) as (H1 & H2 & H3 & _).
      split; [exact H2|]. split; [exact H1|].
      intros s Hs. rewrite (H3 s Hs).
      apply elem_of_cons. right. apply elem_of_cons. now left.
    + intros Hm.
      destruct (failed_abandoned h rid r message _ Hf Hm) as (H1 & H2 & _).
      auto.
Qed.

Lemma C2_fallback_ladder_witness :
  error (step (FallbackSettled 1 (Denied "NotReadableError")) switching)
  = Some "Failed to connect: NotReadableError" /\
  stream (step (FallbackSettled 1 (Denied "NotReadableError")) switching)
  = None /\
  EvTrackStop 0
    ∈ emitted (FallbackSettled 1 (Denied "NotReadableError")) switching.
Proof.
  pose proof (C2_fallback_ladder switching 1
                {| req_device := "camB"; req_compat := false;
                   mounted := true; phase := AwaitFallback |}
                "NotReadableError" eq_refl) as [_ H].
  destruct (H eq_refl) as (_ & _ & _ & Hm & _).
  destruct (Hm eq_refl) as (H1 & H2 & H3).
  split; [exact H1|]. split; [exact H2|]. exact (H3 0 eq_refl).
Defined.

(** ** Snapshots *)

(** The snapshot clause in the words of the design document: with a frame
    source the result is a capture at the native size of the source. *)
Definition snapshot_as_stated : Prop :=
  forall v : HTMLVideoElement,
    exists c : Canvas,
      takePhoto (Some v) = Some (Encoded "image/png" c) /\
      width c = videoWidth v /\
      height c = videoHeight v.

(** A video element that has not decoded a frame yet: no stream has been
    attached, [videoWidth] and [videoHeight] are 0. *)
Definition blankVideo : HTMLVideoElement :=
  {| videoWidth := 0; videoHeight := 0; frame := fun _ _ => 0;
     style := Settings.videoStyle Settings.DEFAULT_FILTERS "3/2"
                Transform.origin false |}.

(** C8, as stated, fails: for a video element without a frame the canvas
    has no pixels and [takePhoto] returns ['data:,'], which is neither null
    nor a capture. *)
Lemma C8_counterexample : ~ snapshot_as_stated.
Proof.
  intros H. destruct (H blankVideo) as (c & Hc & _). discriminate.
Qed.

Example C8_counterexample_value : takePhoto (Some blankVideo) = Some NoData.
Proof. reflexivity. Qed.

(** C8, amended.  [takePhoto] returns null when there is no video element.
    For an element that has a frame (neither [videoWidth] nor [videoHeight]
    is 0) it returns a PNG of a canvas that is [videoWidth] wide and
    [videoHeight] high and whose pixel at every position is the pixel of the
    decoded frame at that position.  For an element without a frame it
    returns ['data:,'], not null.  In either case the result does not
    depend on the style (zoom, pan, filters, transition) the element is
    displayed with. *)
Theorem C8_takePhoto :
  takePhoto None = None /\
  forall v : HTMLVideoElement,
    (0 < videoWidth v -> 0 < videoHeight v ->
     exists c : Canvas,
       takePhoto (Some v) = Some (Encoded "image/png" c) /\
       width c = videoWidth v /\
       height c = videoHeight v /\
       forall x y, x < videoWidth v -> y < videoHeight v ->
                   bitmap c x y = frame v x y) /\
    (videoWidth v = 0 \/ videoHeight v = 0 ->
     takePhoto (Some v) = Some NoData) /\
    (forall (f : Settings.Filters) (aspect : string) (pan : Transform.Pan)
            (isDraggingRef : bool),
        takePhoto
          (Some (withStyle (Settings.videoStyle f aspect pan isDraggingRef) v))
        = takePhoto (Some v)).
Proof.
  split; [reflexivity|]. intros v. split; [|split].
  - intros Hw Hh.
    exists (drawImage v 0 0
              (setHeight (videoHeight v)
                 (setWidth (videoWidth v) createCanvas))).
    split.
    + unfold takePhoto, toDataURL.
      cbn [width height drawImage setHeight setWidth createCanvas].
      assert (Hw0 : (videoWidth v =? 0) = false) by (apply Nat.eqb_neq; lia).
      assert (Hh0 : (videoHeight v =? 0) = false) by (apply Nat.eqb_neq; lia).
      now rewrite Hw0, Hh0.
    + cbn [width height bitmap drawImage setHeight setWidth createCanvas].
      split; [reflexivity|]. split; [reflexivity|].
      intros x y Hx Hy.
      assert (Hx0 : (0 <=? x) = true) by (apply Nat.leb_le; lia).
      assert (Hy0 : (0 <=? y) = true) by (apply Nat.leb_le; lia).
      assert (Hx1 : (x <? 0 + videoWidth v) = true)
        by (apply Nat.ltb_lt; lia).
      assert (Hy1 : (y <? 0 + videoHeight v) = true)
        by (apply Nat.ltb_lt; lia).
      assert (Hx2 : (x <? videoWidth v) = true) by (apply Nat.ltb_lt; lia).
      assert (Hy2 : (y <? videoHeight v) = true) by (apply Nat.ltb_lt; lia).
      rewrite Hx0, Hy0, Hx1, Hy1, Hx2, Hy2. cbn [andb].
      now rewrite !Nat.sub_0_r.
  - intros Hzero. unfold takePhoto, toDataURL.
    cbn [width height drawImage setHeight setWidth createCanvas].
    destruct Hzero as [-> | ->]; [reflexivity|].
    now rewrite orb_true_r.
  - intros f aspect pan isDraggingRef. reflexivity.
Qed.

(** A 2 by 2 frame shown at zoom 3 with the sepia filter. *)
Definition tinyVideo : HTMLVideoElement :=
  {| videoWidth := 2; videoHeight := 2;
     frame := fun x y => 10 * y + x + 1;
     style := Settings.videoStyle
                (Settings.mkFilters 3 100 100 100 80 0 false false 0 0
                   false false)
                "3/2"
                {| Transform.px := Transform.Fin 1;
                   Transform.py := Transform.Fin 0 |}
                false |}.

Lemma C8_takePhoto_witness :
  exists c : Canvas,
    takePhoto (Some tinyVideo) = Some (Encoded "image/png" c) /\
    width c = 2 /\ height c = 2 /\
    [bitmap c 0 0; bitmap c 1 0; bitmap c 0 1; bitmap c 1 1]
    = [1; 2; 11; 12].
Proof.
  destruct (proj1 (proj2 C8_takePhoto tinyVideo))
    as (c & Hc & Hw & Hh & Hpix); [cbn; lia|cbn; lia|].
  exists c. split; [exact Hc|]. split; [exact Hw|]. split; [exact Hh|].
  rewrite (Hpix 0 0), (Hpix 1 0), (Hpix 0 1), (Hpix 1 1) by (cbn; lia).
  reflexivity.
Defined.

End CameraFacts.

(* ===================================================================== *)
(** * Facts about the preferences *)
(* ===================================================================== *)

Module SettingsFacts.
Import Settings.

Lemma aspect_truthy_true (s : string) : truthy s = true <-> s <> "".
Proof. destruct s; cbn; split; congruence. Qed.

Lemma optionValue_truthy (o : AspectOption) : truthy (optionValue o) = true.
Proof. now destruct o. Qed.

Lemma aspectRatioOrDefault_truthy (a : option string) :
  truthy (aspectRatioOrDefault a) = true.
Proof.
  unfold aspectRatioOrDefault. destruct a as [s|]; [|reflexivity].
  now destruct (truthy s) eqn:Hs.
Qed.

(** Two device identities never share a storage key. *)
Lemma storageKey_inj (d1 d2 : string) :
  storageKey d1 = storageKey d2 -> d1 = d2.
Proof.
  unfold storageKey. intros H. cbv [String.append] in H.
  fold String.append in H. congruence.
Qed.

Section WithJSON.
Context `{J : JSON}.

Definition reachableApp (a : App) : Prop :=
  exists storage xs, a = runActions xs (initialApp storage).

Lemma saveSettings_preferences (a : App) :
  filters (saveSettings a) = filters a /\
  aspectRatio (saveSettings a) = aspectRatio a /\
  compatibilityMode (saveSettings a) = compatibilityMode a /\
  isLoadedRef (saveSettings a) = isLoadedRef a /\
  selectedDeviceId (saveSettings a) = selectedDeviceId a.
Proof.
  unfold saveSettings.
  destruct (negb (truthy (selectedDeviceId a)) || negb (isLoadedRef a));
    cbn; auto.
Qed.

Lemma loadSettings_aspect (a : App) :
  truthy (aspectRatio a) = true -> truthy (aspectRatio (loadSettings a)) = true.
Proof.
  intros Ha. unfold loadSettings.
  destruct (truthy (selectedDeviceId a)); [|exact Ha].
  destruct (localStorage a !! storageKey (selectedDeviceId a)) as [saved|];
    [|reflexivity].
  destruct (parse saved) as [parsed|]; [|reflexivity].
  cbn. apply aspectRatioOrDefault_truthy.
Qed.

(** The aspect ratio held by the application is never the empty string. *)
Lemma act_aspect (x : Action) (a : App) :
  truthy (aspectRatio a) = true -> truthy (aspectRatio (act x a)) = true.
Proof.
  intros Ha. destruct x; cbn [act].
  - destruct (saveSettings_preferences (withFilters f false a))
      as (_ & -> & _).
    exact Ha.
  - destruct (filtersIsDefault a); [exact Ha|].
    destruct (saveSettings_preferences (withFilters DEFAULT_FILTERS true a))
      as (_ & -> & _).
    exact Ha.
  - destruct (decide (optionValue o = aspectRatio a)); [exact Ha|].
    destruct (saveSettings_preferences (withAspectRatio (optionValue o) a))
      as (_ & -> & _).
    apply optionValue_truthy.
  - destruct (decide (b = compatibilityMode a)); [exact Ha|].
    destruct (saveSettings_preferences (withCompatibility b a))
      as (_ & -> & _).
    exact Ha.
  - destruct (decide (deviceId = selectedDeviceId a)); [exact Ha|].
    destruct (saveSettings_preferences
                (saveSettings (loadSettings (withDevice deviceId a))))
      as (_ & -> & _).
    destruct (saveSettings_preferences (loadSettings (withDevice deviceId a)))
      as (_ & -> & _).
    now apply loadSettings_aspect.
  - exact Ha.
Qed.

Lemma reachableApp_aspect (a : App) :
  reachableApp a -> truthy (aspectRatio a) = true.
Proof.
  intros (storage & xs & ->).
  induction xs as [|x xs IH] using rev_ind; [reflexivity|].
  unfold runActions. rewrite fold_left_app. cbn. now apply act_aspect.
Qed.

(** What the save effect leaves under the key of the selected device. *)
Lemma saveSettings_stored (a : App) :
  truthy (selectedDeviceId a) = true -> isLoadedRef a = true ->
  localStorage (saveSettings a) !! storageKey (selectedDeviceId a)
  = Some (stringify {| s_filters := filters a;
                       s_aspectRatio := aspectRatio a;
                       s_compatibilityMode := compatibilityMode a |}).
Proof.
  intros Hd Hl. unfold saveSettings. rewrite Hd, Hl. cbn.
  apply lookup_insert_eq.
Qed.

(** C9.  In a state the application can reach, with a device selected and
    saving enabled, let the save effect write the preferences.  Whenever
    the preferences of that device are loaded afterwards from a storage
    that still holds what was written under its key, the filters, the
    aspect ratio and the compatibility mode that come back are those that
    were saved. *)
Theorem C9_save_load_roundtrip (a b : App) :
  reachableApp a ->
  selectedDeviceId a <> "" ->
  isLoadedRef a = true ->
  selectedDeviceId b = selectedDeviceId a ->
  localStorage b !! storageKey (selectedDeviceId a)
  = localStorage (saveSettings a) !! storageKey (selectedDeviceId a) ->
  samePreferences (loadSettings b) a.
Proof.
  intros Hreach Hd Hl Hsame Hstore.
  apply aspect_truthy_true in Hd.
  pose proof (reachableApp_aspect a Hreach) as Ha.
  rewrite (saveSettings_stored a Hd Hl) in Hstore.
  unfold loadSettings. rewrite Hsame, Hd, Hstore, parse_stringify.
  unfold samePreferences. cbn. rewrite Ha. auto.
Qed.

End WithJSON.

(** A codec that keeps the object itself as the stored text. *)
#[local] Instance structuralJSON : JSON :=
  {| text := SettingsObject;
     stringify := fun s => s;
     parse := fun t => Some (asParsed t);
     parse_stringify := fun s => eq_refl |}.

(** The microscope is selected, saving is enabled, and the user picks
    16:9, low resolution and a zoom of 2 with the grid. *)
Definition tuned : App :=
  runActions
    [DeviceSelected "camA"; SettleTimer; ChooseAspect Ratio_16_9;
     SetCompatibility true;
     ChangeFilters (mkFilters 2 100 100 100 0 0 false false 0 0 true false)]
    (initialApp ∅).

Example tuned_values :
  aspectRatio tuned = "16/9" /\ compatibilityMode tuned = true /\
  f_zoom (filters tuned) = 2%Q /\ isLoadedRef tuned = true.
Proof. repeat split; reflexivity. Qed.

(** Another device is used in between, then the microscope is selected
    again. *)
Definition comeBack : App :=
  withDevice "camA"
    (runActions [DeviceSelected "camB"; SettleTimer; ChooseAspect Ratio_1_1]
       (saveSettings tuned)).

Lemma C9_save_load_roundtrip_witness :
  samePreferences (loadSettings comeBack) tuned.
Proof.
  apply C9_save_load_roundtrip.
  - exists ∅. eexists. reflexivity.
  - vm_compute. discriminate.
  - reflexivity.
  - reflexivity.
  - vm_compute. reflexivity.
Defined.

End SettingsFacts.

(* ===================================================================== *)
(** * More about the stream negotiator *)
(* ===================================================================== *)

Module NegotiatorFacts.
Import Camera CameraFacts.

Local Open Scope nat_scope.

(** ** What one event does *)

(** Events other than settlements and the unmount acquire nothing, stop
    nothing and leave stream and error alone. *)
Lemma quiet_step (e : Event) (h : Hook) :
  settling e = false ->
  exists l, trace (step e h) = trace h ++ l /\
    (forall n, EvAcquired n ∉ l) /\
    (forall n, EvTrackStop n ∉ l) /\
    stream (step e h) = stream h /\
    nextStream (step e h) = nextStream h /\
    error (step e h) = error h.
Proof.
  intros He.
  destruct e; try discriminate; unfold_all; repeat (break_match; cbn);
    first
      [ exists []; split; [trace_shape|];
        split; [intros ?; apply not_elem_of_nil|];
        split; [intros ?; apply not_elem_of_nil|]; auto
      | eexists [_]; split; [trace_shape|];
        split;
        [intros ? Hin; apply list_elem_of_singleton in Hin; discriminate|];
        split;
        [intros ? Hin; apply list_elem_of_singleton in Hin; discriminate|];
        auto ].
Qed.

(** The ways in which a settlement can go. *)
Lemma settle_cases (e : Event) (h : Hook) :
  settling e = true -> e <> Unmount ->
  step e h = h \/
  (exists rid r message,
      requests h !! rid = Some r /\ phase r = AwaitPrimary /\
      e = PrimarySettled rid (Denied message)) \/
  (exists rid r, settlesGranted h rid r e) \/
  (exists rid r message, settlesFailed h rid r message e).
Proof.
  intros Hset Hne.
  destruct e as [| | |rid o|rid o| | | | | | |]; try discriminate;
    [| |congruence].
  - destruct (requests h !! rid) as [r|] eqn:Hr.
    2:{ left. apply primarySettled_idle. intros r' Hr'. congruence. }
    destruct (decide (phase r = AwaitPrimary)) as [Hp|Hp].
    2:{ left. apply primarySettled_idle. intros r' Hr'. congruence. }
    destruct o as [|message].
    + right. right. left. exists rid, r. split; auto.
    + right. left. exists rid, r, message. auto.
  - destruct (requests h !! rid) as [r|] eqn:Hr.
    2:{ left. apply fallbackSettled_idle. intros r' Hr'. congruence. }
    destruct (decide (phase r = AwaitFallback)) as [Hp|Hp].
    2:{ left. apply fallbackSettled_idle. intros r' Hr'. congruence. }
    destruct o as [|message].
    + right. right. left. exists rid, r. split; auto.
    + right. right. right. exists rid, r, message. repeat split; auto.
Qed.

Lemma retry_fields (h : Hook) (rid : nat) (r : Request) (message : string) :
  requests h !! rid = Some r -> phase r = AwaitPrimary ->
  let h' := step (PrimarySettled rid (Denied message)) h in
  stream h' = stream h /\ nextStream h' = nextStream h /\
  error h' = error h.
Proof.
  intros Hr Hp. cbn [step].
  rewrite (primarySettled_denied rid r h message Hr Hp). cbn. auto.
Qed.

Lemma granted_next (h : Hook) (rid : nat) (r : Request) (e : Event) :
  settlesGranted h rid r e -> nextStream (step e h) = S (nextStream h).
Proof.
  intros Hg. rewrite (settlesGranted_step h rid r e Hg).
  unfold streamAcquired, granted, updateRequest, openStream, setStream,
    streamCleanup, stopTracks.
  repeat (break_match; cbn); reflexivity.
Qed.

(** The first stream: nothing was active, so nothing is stopped. *)
Lemma granted_first (h : Hook) (rid : nat) (r : Request) (e : Event) :
  settlesGranted h rid r e -> mounted r = true -> stream h = None ->
  emitted e h = [EvAcquired (nextStream h)] /\
  stream (step e h) = Some (nextStream h) /\
  error (step e h) = None.
Proof.
  intros Hg Hm Hs.
  destruct (granted_fields rid r h) as (Hgs & _ & _ & Hgt).
  destruct (streamAcquired_mounted r (nextStream h) (granted rid r h) Hm)
    as (Hst & Her & _).
  unfold emitted. rewrite (settlesGranted_step h rid r e Hg).
  split; [|auto].
  unfold streamAcquired. rewrite Hm, Hgs, Hs.
  unfold setStream, streamCleanup. rewrite Hgs, Hs.
  case_decide; [discriminate|]. cbn. apply drop_app_length.
Qed.

Lemma failed_next (h : Hook) (rid : nat) (r : Request) (message : string)
    (e : Event) :
  settlesFailed h rid r message e -> nextStream (step e h) = nextStream h.
Proof.
  intros (Hr & Hp & ->). cbn [step].
  rewrite (fallbackSettled_denied rid r h message Hr Hp).
  unfold streamFailed, updateRequest, setStream, streamCleanup, stopTracks.
  repeat (break_match; cbn); reflexivity.
Qed.

Lemma unmount_fields (h : Hook) :
  stream (unmountHook h) = stream h /\
  error (unmountHook h) = error h /\
  nextStream (unmountHook h) = nextStream h /\
  requests (unmountHook h) = map unmount (requests h) /\
  trace (unmountHook h)
  = trace h ++ match stream h with Some s => [EvTrackStop s] | None => [] end.
Proof.
  unfold unmountHook, streamCleanup, stopTracks. cbn.
  destruct (stream h) eqn:Hs; cbn; rewrite ?Hs, ?app_nil_r; auto.
Qed.

Lemma trace_emitted (e : Event) (h : Hook) :
  trace (step e h) = trace h ++ emitted e h.
Proof.
  destruct (settling e) eqn:Hset.
  - destruct e as [| | |rid o|rid o| | | | | | |]; try discriminate.
    + unfold emitted; cbn [step];
        unfold primarySettled, streamAcquired, streamFailed,
          openStream, updateRequest, setStream, streamCleanup, stopTracks;
        repeat (break_match; cbn);
        rewrite <- ?app_assoc, ?drop_app_length, ?drop_all, ?app_nil_r;
        reflexivity.
    + unfold emitted; cbn [step];
        unfold fallbackSettled, streamAcquired, streamFailed,
          openStream, updateRequest, setStream, streamCleanup, stopTracks;
        repeat (break_match; cbn);
        rewrite <- ?app_assoc, ?drop_app_length, ?drop_all, ?app_nil_r;
        reflexivity.
    + unfold emitted. cbn [step].
      destruct (unmount_fields h) as (_ & _ & _ & _ & ->).
      now rewrite drop_app_length.
  - destruct (quiet_step e h Hset) as (l & Hl & _).
    now rewrite (emitted_app e h l Hl).
Qed.

Definition stopsOf (o : option MediaStream) : list Ev :=
  match o with Some s => [EvTrackStop s] | None => [] end.

(** The five things an event can do to streams. *)
Inductive Account (e : Event) (h : Hook) : Prop :=
| Untouched :
    stream (step e h) = stream h -> nextStream (step e h) = nextStream h ->
    (forall n, EvAcquired n ∉ emitted e h) ->
    (forall n, EvTrackStop n ∉ emitted e h) -> Account e h
| TornDown :
    e = Unmount ->
    stream (step e h) = stream h -> nextStream (step e h) = nextStream h ->
    emitted e h = stopsOf (stream h) -> Account e h
| HandedOver :
    stream (step e h) = Some (nextStream h) ->
    nextStream (step e h) = S (nextStream h) ->
    emitted e h
    = EvAcquired (nextStream h) :: stopsOf (stream h) ++ stopsOf (stream h) ->
    Account e h
| Discarded :
    stream (step e h) = stream h ->
    nextStream (step e h) = S (nextStream h) ->
    emitted e h = [EvAcquired (nextStream h); EvTrackStop (nextStream h)] ->
    Account e h
| GaveUp (message : string) :
    stream (step e h) = None -> nextStream (step e h) = nextStream h ->
    emitted e h = EvConsoleError message :: stopsOf (stream h) ->
    Account e h.

Lemma step_account (e : Event) (h : Hook) : stream_known h -> Account e h.
Proof.
  intros Hk.
  destruct (settling e) eqn:Hset.
  2:{ destruct (quiet_step e h Hset) as (l & Hl & H1 & H2 & H3 & H4 & _).
      apply Untouched; auto; rewrite (emitted_app e h l Hl); auto. }
  assert (Hcases : e = Unmount \/ e <> Unmount).
  { destruct e; try discriminate; auto; right; discriminate. }
  destruct Hcases as [->|Hne].
  { destruct (unmount_fields h) as (H1 & _ & H2 & _ & H3).
    apply TornDown; auto. now apply emitted_app. }
  destruct (settle_cases e h Hset Hne)
    as [Hidle|[(rid & r & message & Hr & Hp & ->)
       |[(rid & r & Hg)|(rid & r & message & Hf)]]].
  - apply Untouched; try (now rewrite Hidle);
      intros n; now apply emitted_nothing.
  - destruct (retry_fields h rid r message Hr Hp) as (H1 & H2 & _).
    apply Untouched; auto; intros n Hin;
      rewrite (retry_emitted h rid r message Hr Hp) in Hin; elem_cases Hin.
  - pose proof (granted_next h rid r e Hg) as Hn.
    destruct (mounted r) eqn:Hm.
    + destruct (stream h) as [s|] eqn:Hs.
      * destruct (granted_switch h rid r e s Hk Hg Hm Hs) as (_ & H1 & H2).
        apply HandedOver; rewrite ?Hs; auto.
      * destruct (granted_first h rid r e Hg Hm Hs) as (H1 & H2 & _).
        apply HandedOver; rewrite ?Hs; auto.
    + destruct (granted_abandoned h rid r e Hg Hm) as (H1 & H2 & _).
      now apply Discarded.
  - pose proof (failed_next h rid r message e Hf) as Hn.
    destruct (mounted r) eqn:Hm.
    + destruct (failed_mounted h rid r message e Hf Hm) as (H1 & _ & H2 & H3).
      apply (GaveUp e h message); auto.
      destruct (stream h) as [s|] eqn:Hs; [now apply H2|now apply H3].
    + destruct (failed_abandoned h rid r message e Hf Hm) as (H1 & _ & H2).
      apply Untouched; auto; intros n Hin; rewrite H2 in Hin;
        elem_cases Hin.
Qed.

Lemma in_stopsOf (o : option MediaStream) (x : Ev) :
  x ∈ stopsOf o <-> exists s, o = Some s /\ x = EvTrackStop s.
Proof.
  destruct o as [s|]; cbn.
  - rewrite list_elem_of_singleton. split; [eauto|].
    intros (s' & [= <-] & ->). reflexivity.
  - rewrite elem_of_nil. split; [tauto|]. intros (s' & [=] & _).
Qed.

(** ** No stream is leaked *)

(** Streams are numbered as the platform creates them; every number below
    [nextStream] has been handed to the hook, and only such numbers are ever
    stopped. *)
Definition accounted (h : Hook) : Prop :=
  (forall n, EvAcquired n ∈ trace h <-> n < nextStream h) /\
  (forall n, EvTrackStop n ∈ trace h -> n < nextStream h) /\
  (forall n, n < nextStream h -> stream h = Some n \/ EvTrackStop n ∈ trace h).

Lemma step_accounted (e : Event) (h : Hook) :
  stream_known h -> accounted h -> accounted (step e h).
Proof.
  intros Hk (Hacq & Hstop & Hleak).
  unfold accounted. rewrite (trace_emitted e h).
  destruct (step_account e h Hk)
    as [H1 H2 H3 H4|_ H1 H2 H3|H1 H2 H3|H1 H2 H3|message H1 H2 H3];
    rewrite H1, H2; try rewrite H3.
  - split; [|split].
    + intros n. rewrite elem_of_app, Hacq. split; [|auto].
      intros [H|H]; [exact H|]. now apply H3 in H.
    + intros n. rewrite elem_of_app. intros [H|H]; [auto|].
      now apply H4 in H.
    + intros n Hn. destruct (Hleak n Hn); [auto|].
      right. apply elem_of_app. auto.
  - split; [|split].
    + intros n. rewrite elem_of_app, Hacq, in_stopsOf. split; [|auto].
      intros [H|(s & _ & [=])]. exact H.
    + intros n. rewrite elem_of_app, in_stopsOf.
      intros [H|(s & Hs & [= ->])]; [auto|]. now apply Hk.
    + intros n Hn. destruct (Hleak n Hn); [auto|].
      right. apply elem_of_app. auto.
  - split; [|split].
    + intros n. rewrite elem_of_app, elem_of_cons, elem_of_app, Hacq,
        !in_stopsOf. split.
      * intros [H|[[= ->]|[(s & _ & [=])|(s & _ & [=])]]]; lia.
      * intros Hn. destruct (decide (n = nextStream h)) as [->|Hne];
          [auto|]. left. lia.
    + intros n. rewrite elem_of_app, elem_of_cons, elem_of_app, !in_stopsOf.
      intros [H|[[=]|[(s & Hs & [= ->])|(s & Hs & [= ->])]]].
      * specialize (Hstop n H). lia.
      * specialize (Hk s Hs). lia.
      * specialize (Hk s Hs). lia.
    + intros n Hn. destruct (decide (n = nextStream h)) as [->|Hne];
        [auto|]. right.
      rewrite elem_of_app, elem_of_cons, elem_of_app, !in_stopsOf.
      destruct (Hleak n ltac:(lia)) as [Hs|Hs]; eauto 8.
  - split; [|split].
    + intros n. rewrite elem_of_app, !elem_of_cons, elem_of_nil, Hacq. split.
      * intros [H|[[= ->]|[[=]|[]]]]; lia.
      * intros Hn. destruct (decide (n = nextStream h)) as [->|Hne];
          [auto|]. left. lia.
    + intros n. rewrite elem_of_app, !elem_of_cons, elem_of_nil.
      intros [H|[[=]|[[= ->]|[]]]]; [|lia]. specialize (Hstop n H). lia.
    + intros n Hn. rewrite elem_of_app, !elem_of_cons.
      destruct (decide (n = nextStream h)) as [->|Hne]; [auto|].
      destruct (Hleak n ltac:(lia)); auto.
  - split; [|split].
    + intros n. rewrite elem_of_app, elem_of_cons, Hacq, in_stopsOf.
      split; [|auto]. intros [H|[[=]|(s & _ & [=])]]. exact H.
    + intros n. rewrite elem_of_app, elem_of_cons, in_stopsOf.
      intros [H|[[=]|(s & Hs & [= ->])]]; [auto|]. now apply Hk.
    + intros n Hn. right.
      rewrite elem_of_app, elem_of_cons, in_stopsOf.
      destruct (Hleak n Hn); eauto 8.
Qed.

Lemma reachable_accounted (h : Hook) : reachable h -> accounted h.
Proof.
  revert h. apply reachable_ind.
  - unfold accounted. cbn.
    split; [|split]; intros n; rewrite ?elem_of_nil; try tauto; try lia.
  - intros e h Hr IH. apply step_accounted; auto.
    now apply reachable_stream_known.
Qed.

(** Every stream the platform has handed to the hook is either the active
    stream or has had its tracks stopped: no device is left open behind the
    hook's back. *)
Theorem no_stream_leaked (h : Hook) (n : MediaStream) :
  reachable h -> EvAcquired n ∈ trace h ->
  stream h = Some n \/ EvTrackStop n ∈ trace h.
Proof.
  intros Hr Hin. destruct (reachable_accounted h Hr) as (Hacq & _ & Hleak).
  apply Hleak, Hacq, Hin.
Qed.

Lemma no_stream_leaked_witness :
  stream switching = Some 0 \/ EvTrackStop 0 ∈ trace switching.
Proof.
  apply no_stream_leaked.
  - unfold switching, streaming. rewrite <- run_app. eexists; reflexivity.
  - apply list_elem_of_In. vm_compute. auto.
Defined.

(** ** The active stream is live *)

Definition noUnmount (e : Event) : bool :=
  match e with Unmount => false | _ => true end.

(** States reached while the component stays mounted. *)
Definition reachableMounted (h : Hook) : Prop :=
  exists es, forallb noUnmount es = true /\ h = run es initialHook.

Lemma reachableMounted_reachable (h : Hook) :
  reachableMounted h -> reachable h.
Proof. intros (es & _ & ->). now exists es. Qed.

Definition active_unstopped (h : Hook) : Prop :=
  forall s, stream h = Some s -> EvTrackStop s ∉ trace h.

Lemma step_active_unstopped (e : Event) (h : Hook) :
  noUnmount e = true -> stream_known h -> accounted h ->
  active_unstopped h -> active_unstopped (step e h).
Proof.
  intros Hne Hk (_ & Hstop & _) Inv s Hs.
  rewrite (trace_emitted e h), elem_of_app.
  destruct (step_account e h Hk)
    as [H1 H2 H3 H4|He H1 H2 H3|H1 H2 H3|H1 H2 H3|message H1 H2 H3].
  - rewrite H1 in Hs. intros [H|H]; [now apply (Inv s Hs)|now apply H4 in H].
  - subst e. discriminate.
  - rewrite H1 in Hs. injection Hs as <-. rewrite H3.
    rewrite elem_of_cons, elem_of_app, !in_stopsOf.
    intros [H|[[=]|[(s & Hs & [= Heq])|(s & Hs & [= Heq])]]].
    + specialize (Hstop _ H). lia.
    + specialize (Hk s Hs). lia.
    + specialize (Hk s Hs). lia.
  - rewrite H1 in Hs. rewrite H3, !elem_of_cons, elem_of_nil.
    intros [H|[[=]|[[= Heq]|[]]]]; [now apply (Inv s Hs)|].
    specialize (Hk s Hs). lia.
  - congruence.
Qed.

(** While the component is mounted, the stream the hook hands out is one
    the platform has created for it and whose tracks the hook has never
    stopped. *)
Theorem active_stream_is_live (h : Hook) (s : MediaStream) :
  reachableMounted h -> stream h = Some s ->
  EvAcquired s ∈ trace h /\ EvTrackStop s ∉ trace h.
Proof.
  intros Hm Hs. split.
  - pose proof (reachableMounted_reachable h Hm) as Hr.
    destruct (reachable_accounted h Hr) as (Hacq & _).
    apply Hacq. now apply (reachable_stream_known h Hr).
  - revert s Hs. destruct Hm as (es & Hes & ->).
    induction es as [|e es IH] using rev_ind; [intros s [=]|].
    rewrite forallb_app in Hes. apply andb_true_iff in Hes as [Hes He].
    cbn in He. rewrite andb_true_r in He.
    rewrite run_snoc.
    assert (Hr : reachable (run es initialHook)) by now exists es.
    apply step_active_unstopped; auto.
    + now apply reachable_stream_known.
    + now apply reachable_accounted.
    + exact (IH Hes).
Qed.

Lemma active_stream_is_live_witness :
  EvAcquired 0 ∈ trace switching /\ EvTrackStop 0 ∉ trace switching.
Proof.
  apply active_stream_is_live; [|reflexivity].
  exists [Enumerated "" (Fulfilled [mic; camA]); PrimarySettled 0 Granted;
          SelectDevice "camB";
          PrimarySettled 1 (Denied "NotReadableError")].
  split; vm_compute; reflexivity.
Defined.

(** ** Which request is current *)

(** The closure and the call that a run of the stream effect adds. *)
Definition newRequest (h : Hook) : list Request :=
  if truthy (selectedDeviceId h) then
    [ {| req_device := selectedDeviceId h; req_compat := compatibilityMode h;
         mounted := true; phase := AwaitPrimary |} ]
  else [].

Definition newCall (h : Hook) : list Ev :=
  if truthy (selectedDeviceId h) then
    [EvGetUserMedia
       (primaryConstraints (compatibilityMode h) (selectedDeviceId h))]
  else [].

Lemma streamEffect_shape (h : Hook) :
  requests (streamEffect h) = map unmount (requests h) ++ newRequest h /\
  trace (streamEffect h) = trace h ++ newCall h /\
  selectedDeviceId (streamEffect h) = selectedDeviceId h /\
  compatibilityMode (streamEffect h) = compatibilityMode h /\
  stream (streamEffect h) = stream h /\
  error (streamEffect h) = error h.
Proof.
  unfold streamEffect, newRequest, newCall. cbn.
  destruct (truthy (selectedDeviceId h)); cbn; rewrite ?app_nil_r;
    repeat split; reflexivity.
Qed.

(** How an event changes the list of closures. *)
Inductive Closures (e : Event) (h : Hook) : Prop :=
| Kept :
    requests (step e h) = requests h ->
    selectedDeviceId (step e h) = selectedDeviceId h ->
    compatibilityMode (step e h) = compatibilityMode h ->
    (forall c, EvGetUserMedia c ∉ emitted e h) -> Closures e h
| Advanced (rid : nat) (r : Request) (p : Phase) :
    requests h !! rid = Some r ->
    requests (step e h) = <[rid := withPhase p r]> (requests h) ->
    selectedDeviceId (step e h) = selectedDeviceId h ->
    compatibilityMode (step e h) = compatibilityMode h ->
    (forall c, EvGetUserMedia c ∈ emitted e h ->
               c = minimalConstraints (req_device r)) -> Closures e h
| Abandoned :
    requests (step e h) = map unmount (requests h) ->
    selectedDeviceId (step e h) = selectedDeviceId h ->
    compatibilityMode (step e h) = compatibilityMode h ->
    (forall c, EvGetUserMedia c ∉ emitted e h) -> Closures e h
| Restarted :
    requests (step e h) = map unmount (requests h) ++ newRequest (step e h) ->
    emitted e h = newCall (step e h) -> Closures e h.

Lemma restart_closures (e : Event) (h h0 : Hook) :
  step e h = streamEffect h0 -> requests h0 = requests h ->
  trace h0 = trace h -> Closures e h.
Proof.
  intros Hstep Hreq Htr.
  destruct (streamEffect_shape h0) as (H1 & H2 & H3 & H4 & _).
  apply Restarted.
  - rewrite Hstep, H1, Hreq. unfold newRequest. now rewrite H3, H4.
  - apply emitted_app. rewrite Hstep, H2, Htr. unfold newCall.
    now rewrite H3, H4.
Qed.

Lemma kept_closures (e : Event) (h : Hook) :
  requests (step e h) = requests h ->
  selectedDeviceId (step e h) = selectedDeviceId h ->
  compatibilityMode (step e h) = compatibilityMode h ->
  (exists l, trace (step e h) = trace h ++ l /\
             forall c, EvGetUserMedia c ∉ l) ->
  Closures e h.
Proof.
  intros H1 H2 H3 (l & Hl & Hno). apply Kept; auto.
  now rewrite (emitted_app e h l Hl).
Qed.

Ltac no_call_suffix :=
  first
    [ exists []; split; [trace_shape|]; intros ?; apply not_elem_of_nil
    | eexists [_]; split; [trace_shape|];
      intros ? Hin; apply list_elem_of_singleton in Hin; discriminate ].

Lemma selecting_closures (e : Event) (h : Hook) :
  match e with
  | Enumerated _ _ | SelectDevice _ | SetCompatibility _ => True
  | _ => False
  end -> Closures e h.
Proof.
  intros He.
  assert (H : (requests (step e h) = requests h /\
               selectedDeviceId (step e h) = selectedDeviceId h /\
               compatibilityMode (step e h) = compatibilityMode h /\
               exists l, trace (step e h) = trace h ++ l /\
                         forall c, EvGetUserMedia c ∉ l) \/
              (exists h0, step e h = streamEffect h0 /\
                          requests h0 = requests h /\ trace h0 = trace h)).
  { destruct e; try contradiction; cbn [step];
      unfold getDevices, setSelectedDeviceId, setCompatibilityMode;
      repeat (break_match; cbn);
      first
        [ right; eexists; split; [reflexivity|]; split; reflexivity
        | left; split; [reflexivity|]; split; [congruence|];
          split; [congruence|]; no_call_suffix ]. }
  destruct H as [(H1 & H2 & H3 & H4)|(h0 & H1 & H2 & H3)].
  - now apply kept_closures.
  - now apply (restart_closures e h h0).
Qed.

Lemma granted_no_call (h : Hook) (rid : nat) (r : Request) (e : Event)
    (c : Constraints) :
  stream_known h -> settlesGranted h rid r e -> EvGetUserMedia c ∉ emitted e h.
Proof.
  intros Hk Hg Hin. destruct (mounted r) eqn:Hm.
  - destruct (stream h) as [s|] eqn:Hs.
    + destruct (granted_switch h rid r e s Hk Hg Hm Hs) as (_ & He & _).
      rewrite He in Hin. elem_cases Hin.
    + destruct (granted_first h rid r e Hg Hm Hs) as (He & _).
      rewrite He in Hin. elem_cases Hin.
  - destruct (granted_abandoned h rid r e Hg Hm) as (He & _).
    rewrite He in Hin. elem_cases Hin.
Qed.

Lemma failed_no_call (h : Hook) (rid : nat) (r : Request) (message : string)
    (e : Event) (c : Constraints) :
  settlesFailed h rid r message e -> EvGetUserMedia c ∉ emitted e h.
Proof.
  intros Hf Hin. destruct (mounted r) eqn:Hm.
  - destruct (failed_mounted h rid r message e Hf Hm) as (_ & _ & H1 & H2).
    destruct (stream h) as [s|] eqn:Hs.
    + rewrite (H1 s eq_refl) in Hin. elem_cases Hin.
    + rewrite (H2 eq_refl) in Hin. elem_cases Hin.
  - destruct (failed_abandoned h rid r message e Hf Hm) as (_ & _ & He).
    rewrite He in Hin. elem_cases Hin.
Qed.

Lemma step_closures (e : Event) (h : Hook) : stream_known h -> Closures e h.
Proof.
  intros Hk.
  destruct (settling e) eqn:Hset.
  - assert (Hcases : e = Unmount \/ e <> Unmount).
    { destruct e; try discriminate; auto; right; discriminate. }
    destruct Hcases as [->|Hne].
    { destruct (unmount_fields h) as (_ & _ & _ & H1 & H2).
      apply Abandoned; auto.
      - cbn [step]. unfold unmountHook, streamCleanup.
        now destruct (stream _).
      - cbn [step]. unfold unmountHook, streamCleanup.
        now destruct (stream _).
      - intros c. rewrite (emitted_app Unmount h _ H2).
        destruct (stream h); cbn; intros Hin; elem_cases Hin. }
    destruct (settle_cases e h Hset Hne)
      as [Hidle|[(rid & r & message & Hr & Hp & ->)
         |[(rid & r & Hg)|(rid & r & message & Hf)]]].
    + apply Kept; try (now rewrite Hidle).
      intros c. now apply emitted_nothing.
    + apply (Advanced _ h rid r AwaitFallback Hr);
        try (cbn [step]; rewrite (primarySettled_denied rid r h message Hr Hp);
             reflexivity).
      intros c Hin. rewrite (retry_emitted h rid r message Hr Hp) in Hin.
      elem_cases Hin. now injection Hin.
    + assert (Hreq : requests h !! rid = Some r) by apply Hg.
      apply (Advanced e h rid r Finished Hreq);
        try (rewrite (settlesGranted_step h rid r e Hg);
             unfold streamAcquired, granted, updateRequest, openStream,
               setStream, streamCleanup, stopTracks;
             repeat (break_match; cbn); reflexivity).
      intros c Hin. exfalso. revert Hin. now apply (granted_no_call h rid r).
    + destruct Hf as (Hr & Hp & ->).
      apply (Advanced _ h rid r Finished Hr);
        try (cbn [step]; rewrite (fallbackSettled_denied rid r h message Hr Hp);
             unfold streamFailed, updateRequest, setStream, streamCleanup,
               stopTracks;
             repeat (break_match; cbn); reflexivity).
      intros c Hin. exfalso. revert Hin.
      apply (failed_no_call h rid r message). repeat split; auto.
  - destruct (streamEvent e) eqn:Hse.
    + destruct e; try discriminate; apply selecting_closures; exact I.
    + apply kept_closures.
      * destruct e; try discriminate; unfold_all;
          repeat (break_match; cbn); reflexivity.
      * destruct e; try discriminate; unfold_all;
          repeat (break_match; cbn); reflexivity.
      * destruct e; try discriminate; unfold_all;
          repeat (break_match; cbn); reflexivity.
      * destruct e; try discriminate; unfold_all;
          repeat (break_match; cbn); no_call_suffix.
Qed.

Definition request_inv (h : Hook) : Prop :=
  forall i r, requests h !! i = Some r ->
    req_device r <> "" /\
    (mounted r = true ->
       S i = length (requests h) /\
       req_device r = selectedDeviceId h /\
       req_compat r = compatibilityMode h).

Lemma lookup_unmounted (l : list Request) (i : nat) (r : Request) :
  map unmount l !! i = Some r ->
  exists r0, l !! i = Some r0 /\ r = unmount r0.
Proof.
  rewrite list_lookup_fmap. destruct (l !! i) as [r0|]; cbn; [|discriminate].
  intros [= <-]. eauto.
Qed.

Lemma lookup_newRequest (h : Hook) (i : nat) (r : Request) :
  newRequest h !! i = Some r ->
  i = 0 /\ selectedDeviceId h <> "" /\
  r = {| req_device := selectedDeviceId h; req_compat := compatibilityMode h;
         mounted := true; phase := AwaitPrimary |} /\
  length (newRequest h) = 1.
Proof.
  unfold newRequest. destruct (truthy (selectedDeviceId h)) eqn:Ht.
  - apply truthy_true in Ht. intros Hl.
    apply list_lookup_singleton_Some in Hl as [-> <-]. auto.
  - rewrite lookup_nil. discriminate.
Qed.

Lemma step_request_inv (e : Event) (h : Hook) :
  stream_known h -> request_inv h -> request_inv (step e h).
Proof.
  intros Hk Inv.
  destruct (step_closures e h Hk)
    as [H1 H2 H3 _|rid r p Hr H1 H2 H3 _|H1 H2 H3 _|H1 _];
    intros i r' Hl; rewrite H1 in Hl |- *; rewrite ?H2, ?H3.
  - now apply Inv.
  - rewrite length_insert. destruct (decide (rid = i)) as [<-|Hne].
    + rewrite list_lookup_insert_eq in Hl by (eapply lookup_lt_Some; eauto).
      injection Hl as <-. cbn. now apply Inv.
    + rewrite list_lookup_insert_ne in Hl by exact Hne. now apply Inv.
  - apply lookup_unmounted in Hl as (r0 & Hr0 & ->). cbn.
    split; [apply (Inv i r0 Hr0)|discriminate].
  - apply lookup_app_Some in Hl as [Hl|[Hlen Hl]].
    + apply lookup_unmounted in Hl as (r0 & Hr0 & ->). cbn.
      split; [apply (Inv i r0 Hr0)|discriminate].
    + apply lookup_newRequest in Hl as (Hi & Hsel & -> & Hone). cbn.
      split; [exact Hsel|]. intros _. rewrite length_app, Hone.
      split; [lia|auto].
Qed.

Lemma reachable_request_inv (h : Hook) : reachable h -> request_inv h.
Proof.
  revert h. apply reachable_ind.
  - intros i r Hl. cbn in Hl. now rewrite lookup_nil in Hl.
  - intros e h Hr IH. apply step_request_inv; auto.
    now apply reachable_stream_known.
Qed.

(** At any time at most one closure of the stream effect is still mounted:
    the one made last, and it was made for the device and the compatibility
    mode that are selected now. *)
Theorem current_request (h : Hook) (i : nat) (r : Request) :
  reachable h -> requests h !! i = Some r -> mounted r = true ->
  S i = length (requests h) /\
  req_device r = selectedDeviceId h /\
  req_compat r = compatibilityMode h /\
  selectedDeviceId h <> "".
Proof.
  intros Hr Hl Hm.
  destruct (reachable_request_inv h Hr i r Hl) as [Hd H].
  destruct (H Hm) as (H1 & H2 & H3). rewrite <- H2. auto.
Qed.

Lemma current_request_witness :
  S 1 = length (requests switching) /\
  "camB" = selectedDeviceId switching /\
  false = compatibilityMode switching /\
  selectedDeviceId switching <> "".
Proof.
  apply (current_request switching 1
           {| req_device := "camB"; req_compat := false; mounted := true;
              phase := AwaitFallback |}); try reflexivity.
  unfold switching, streaming. rewrite <- run_app. eexists; reflexivity.
Defined.

(** A stream that arrives replaces the active one only if it was requested
    for the device and the mode selected at that moment: of overlapping
    requests only the last one can win. *)
Theorem only_current_request_wins (h : Hook) (rid : nat) (r : Request)
    (e : Event) :
  reachable h -> settlesGranted h rid r e ->
  stream (step e h) <> stream h ->
  stream (step e h) = Some (nextStream h) /\
  req_device r = selectedDeviceId h /\
  req_compat r = compatibilityMode h /\
  selectedDeviceId (step e h) = selectedDeviceId h /\
  compatibilityMode (step e h) = compatibilityMode h.
Proof.
  intros Hr Hg Hchange.
  assert (Hreq : requests h !! rid = Some r) by apply Hg.
  destruct (mounted r) eqn:Hm.
  2:{ destruct (granted_abandoned h rid r e Hg Hm) as (_ & Hs & _).
      contradiction. }
  destruct (reachable_request_inv h Hr rid r Hreq) as [_ Hcur].
  destruct (Hcur Hm) as (_ & H1 & H2).
  rewrite (settlesGranted_step h rid r e Hg).
  destruct (streamAcquired_mounted r (nextStream h) (granted rid r h) Hm)
    as (Hst & _).
  split; [exact Hst|]. split; [exact H1|]. split; [exact H2|].
  unfold streamAcquired, granted, updateRequest, openStream, setStream,
    streamCleanup, stopTracks.
  repeat (break_match; cbn); auto.
Qed.

Lemma only_current_request_wins_witness :
  stream (step (PrimarySettled 1 Granted)
            (run [SelectDevice "camB"] streaming)) = Some 1 /\
  "camB" = selectedDeviceId (run [SelectDevice "camB"] streaming).
Proof.
  destruct (only_current_request_wins
              (run [SelectDevice "camB"] streaming) 1
              {| req_device := "camB"; req_compat := false; mounted := true;
                 phase := AwaitPrimary |}
              (PrimarySettled 1 Granted)) as (H1 & H2 & _).
  - unfold streaming. rewrite <- run_app. eexists; reflexivity.
  - split; [reflexivity|]. left. split; reflexivity.
  - vm_compute. discriminate.
  - split; [exact H1|exact H2].
Defined.

(** ** What is asked of the platform *)

Definition calls_inv (h : Hook) : Prop :=
  forall c, EvGetUserMedia c ∈ trace h ->
    exactDeviceId c <> "" /\
    (c = primaryConstraints false (exactDeviceId c) \/
     c = primaryConstraints true (exactDeviceId c) \/
     c = minimalConstraints (exactDeviceId c)).

Lemma step_calls_inv (e : Event) (h : Hook) :
  stream_known h -> request_inv h -> calls_inv h -> calls_inv (step e h).
Proof.
  intros Hk Hreq Inv c. rewrite (trace_emitted e h), elem_of_app.
  intros [Hin|Hin]; [now apply Inv|].
  destruct (step_closures e h Hk)
    as [_ _ _ H|rid r p Hr _ _ _ H|_ _ _ H|_ H].
  - now apply H in Hin.
  - rewrite (H c Hin). cbn. split; [apply (Hreq rid r Hr)|auto].
  - now apply H in Hin.
  - rewrite H in Hin. unfold newCall in Hin.
    destruct (truthy (selectedDeviceId (step e h))) eqn:Ht;
      [|elem_cases Hin].
    apply truthy_true in Ht. elem_cases Hin. injection Hin as Hc. subst c.
    destruct (compatibilityMode (step e h)); cbn; auto.
Qed.

Lemma reachable_calls_inv (h : Hook) : reachable h -> calls_inv h.
Proof.
  revert h. apply reachable_ind.
  - intros c Hin. cbn in Hin. elem_cases Hin.
  - intros e h Hr IH. apply step_calls_inv; auto.
    + now apply reachable_stream_known.
    + now apply reachable_request_inv.
Qed.

(** Every call of [getUserMedia] the hook ever makes names a device by its
    exact, non-empty identity, and asks for one of three things: 1920 by
    1080, or 640 by 480 at 30 frames per second, or the identity alone. *)
Theorem calls_name_a_device (h : Hook) (c : Constraints) :
  reachable h -> EvGetUserMedia c ∈ trace h ->
  exactDeviceId c <> "" /\
  ((idealWidth c, idealHeight c, idealFrameRate c)
     = (Some 1920, Some 1080, None) \/
   (idealWidth c, idealHeight c, idealFrameRate c)
     = (Some 640, Some 480, Some 30) \/
   (idealWidth c, idealHeight c, idealFrameRate c) = (None, None, None)).
Proof.
  intros Hr Hin. destruct (reachable_calls_inv h Hr c Hin) as [Hd H].
  split; [exact Hd|].
  destruct H as [Hc|[Hc|Hc]]; rewrite Hc; cbn; auto.
Qed.

Lemma calls_name_a_device_witness :
  exactDeviceId (minimalConstraints "camB") <> "".
Proof.
  refine (proj1 (calls_name_a_device switching (minimalConstraints "camB")
                   _ _)).
  - unfold switching, streaming. rewrite <- run_app. eexists; reflexivity.
  - apply list_elem_of_In. vm_compute. auto 10.
Defined.

(** ** Refresh *)

(** The [refreshStream] the hook returns:
    [() => setCompatibilityMode(prev => !prev)]. *)
Definition refreshStream (h : Hook) : Hook :=
  setCompatibilityMode (negb (compatibilityMode h)) h.

Lemma refreshStream_compat (h : Hook) :
  compatibilityMode (refreshStream h) = negb (compatibilityMode h).
Proof.
  unfold refreshStream, setCompatibilityMode.
  case_decide as Hd; [now destruct (compatibilityMode h)|].
  now destruct (streamEffect_shape
                  (setCompatField (negb (compatibilityMode h)) h))
    as (_ & _ & _ & -> & _).
Qed.

(** Refreshing flips the compatibility mode and restarts the stream effect:
    every closure made before is abandoned, the selection, the active stream
    and the error stay, and if a device is selected exactly one
    [getUserMedia] is issued for it with the constraints of the flipped
    mode.  A second refresh brings the mode back. *)
Theorem refresh_restarts (h : Hook) :
  let h' := refreshStream h in
  compatibilityMode h' = negb (compatibilityMode h) /\
  selectedDeviceId h' = selectedDeviceId h /\
  stream h' = stream h /\
  error h' = error h /\
  (forall i r, requests h !! i = Some r ->
               requests h' !! i = Some (unmount r)) /\
  (selectedDeviceId h <> "" ->
     requests h' !! length (requests h)
     = Some {| req_device := selectedDeviceId h;
               req_compat := negb (compatibilityMode h);
               mounted := true; phase := AwaitPrimary |} /\
     trace h'
     = trace h ++ [EvGetUserMedia
                     (primaryConstraints (negb (compatibilityMode h))
                        (selectedDeviceId h))]) /\
  (selectedDeviceId h = "" ->
     length (requests h') = length (requests h) /\ trace h' = trace h) /\
  compatibilityMode (refreshStream h') = compatibilityMode h.
Proof.
  cbn zeta. unfold refreshStream at 1 2 3 4 5 6 7 8 9.
  unfold setCompatibilityMode at 1 2 3 4 5 6 7 8 9.
  case_decide as Hd; [now destruct (compatibilityMode h)|].
  destruct (streamEffect_shape
              (setCompatField (negb (compatibilityMode h)) h))
    as (H1 & H2 & H3 & H4 & H5 & H6).
  unfold newRequest, newCall in H1, H2. cbn in H1, H2, H3, H4, H5, H6.
  rewrite H1, H2, H3, H4, H5, H6.
  split; [reflexivity|]. split; [reflexivity|]. split; [reflexivity|].
  split; [reflexivity|]. split; [|split; [|split]].
  - intros i r Hr. rewrite lookup_app_l.
    + rewrite list_lookup_fmap, Hr. reflexivity.
    + rewrite length_map. eapply lookup_lt_Some; eauto.
  - intros Hsel. apply truthy_true in Hsel. rewrite Hsel. split; [|reflexivity].
    rewrite lookup_app_r by (rewrite length_map; lia).
    rewrite length_map, Nat.sub_diag. reflexivity.
  - intros Hsel. rewrite Hsel. cbn. rewrite !app_nil_r, length_map. auto.
  - fold (refreshStream h). rewrite !refreshStream_compat.
    apply negb_involutive.
Qed.

(** ** Labels *)

(** The condition of the effect that enumerates again once a stream exists:
    [stream && !devices.some(d => d.label)]. *)
Definition labelsWanted (h : Hook) : bool :=
  match stream h with
  | Some _ => negb (existsb (fun d => truthy (label d)) (devices h))
  | None => false
  end.

Definition enumerations (selectedSeen : string)
    (results : list (list MediaDeviceInfo)) : list Event :=
  map (fun deviceList => Enumerated selectedSeen (Fulfilled deviceList))
      results.

Lemma getDevices_stream (seen : string)
    (result : Settled (list MediaDeviceInfo)) (h : Hook) :
  stream (getDevices seen result h) = stream h.
Proof.
  unfold getDevices, setSelectedDeviceId, streamEffect.
  repeat (break_match; cbn); reflexivity.
Qed.

Lemma getDevices_devices (seen : string) (deviceList : list MediaDeviceInfo)
    (h : Hook) :
  devices (getDevices seen (Fulfilled deviceList) h)
  = List.filter isVideoInput deviceList.
Proof.
  unfold getDevices.
  destruct (List.filter isVideoInput deviceList) as [|first rest];
    [reflexivity|].
  destruct (negb (truthy seen)); [|reflexivity].
  now rewrite setSelectedDeviceId_devices.
Qed.

Definition labelled (d : MediaDeviceInfo) : bool := truthy (label d).

Lemma labelsWanted_after (seen : string) (deviceList : list MediaDeviceInfo)
    (h : Hook) (s : MediaStream) :
  stream h = Some s ->
  labelsWanted (getDevices seen (Fulfilled deviceList) h)
  = negb (existsb labelled (List.filter isVideoInput deviceList)).
Proof.
  intros Hs. unfold labelsWanted.
  now rewrite getDevices_stream, Hs, getDevices_devices.
Qed.

Lemma run_enumerations_stream (seen : string)
    (results : list (list MediaDeviceInfo)) (h : Hook) :
  stream (run (enumerations seen results) h) = stream h.
Proof.
  revert h. induction results as [|l results IH]; intros h; [reflexivity|].
  change (run (enumerations seen (l :: results)) h)
    with (run (enumerations seen results)
            (getDevices seen (Fulfilled l) h)).
  rewrite IH. apply getDevices_stream.
Qed.

(** While a stream is active the hook enumerates again whenever the device
    list changes and no video input in it has a label.  An enumeration that
    brings one labelled video input ends this; as long as enumerations bring
    none (or no video input at all), the condition holds again after each of
    them, however many there are. *)
Theorem label_polling (h : Hook) (s : MediaStream) (seen : string) :
  stream h = Some s ->
  (forall deviceList d,
      d ∈ deviceList -> isVideoInput d = true -> label d <> "" ->
      labelsWanted (getDevices seen (Fulfilled deviceList) h) = false) /\
  (forall results last,
      (forall deviceList d,
          deviceList ∈ results ++ [last] -> d ∈ deviceList ->
          isVideoInput d = true -> label d = "") ->
      labelsWanted (run (enumerations seen (results ++ [last])) h) = true).
Proof.
  intros Hs. split.
  - intros deviceList d Hin Hv Hl.
    rewrite (labelsWanted_after seen deviceList h s Hs).
    apply negb_false_iff, existsb_exists. exists d. split.
    + apply filter_In. split; [now apply list_elem_of_In|exact Hv].
    + unfold labelled. now apply truthy_true.
  - intros results last Hall.
    unfold enumerations. rewrite map_app, run_app.
    change (labelsWanted
              (getDevices seen (Fulfilled last)
                 (run (enumerations seen results) h)) = true).
    rewrite (labelsWanted_after seen last _ s)
      by (now rewrite run_enumerations_stream).
    apply negb_true_iff. apply not_true_is_false. intros Hex.
    apply existsb_exists in Hex as (d & Hin & Hl).
    apply filter_In in Hin as [Hin Hv].
    unfold labelled in Hl. apply truthy_true in Hl. apply Hl.
    apply (Hall last d); auto.
    + apply elem_of_app. right. now apply list_elem_of_singleton.
    + now apply list_elem_of_In.
Qed.

Lemma label_polling_witness :
  labelsWanted (getDevices "camA" (Fulfilled [mic; camA]) streaming) = false.
Proof.
  refine (proj1 (label_polling streaming 0 "camA" eq_refl) [mic; camA] camA
            _ eq_refl _).
  - apply list_elem_of_In. cbn. auto.
  - discriminate.
Defined.

(** ** After the unmount *)

(** What can still happen to a hook whose component is gone: the
    [getUserMedia] promises settle and recorders fire events; nothing
    renders and nobody selects.  An enumeration still in flight is left
    out: when it settles it only calls state setters, which React ignores
    for a component that is gone. *)
Definition afterUnmount (e : Event) : bool :=
  match e with
  | Enumerated _ _ | SelectDevice _ | SetCompatibility _ => false
  | StartRecording | StopRecording | ToggleRecord => false
  | _ => true
  end.

Definition allUnmounted (h : Hook) : Prop :=
  forall i r, requests h !! i = Some r -> mounted r = false.

Lemma unmountHook_allUnmounted (h : Hook) : allUnmounted (unmountHook h).
Proof.
  intros i r Hl. destruct (unmount_fields h) as (_ & _ & _ & Hreq & _).
  rewrite Hreq in Hl. now apply lookup_unmounted in Hl as (r0 & _ & ->).
Qed.

Lemma step_after_unmount (e : Event) (h : Hook) :
  afterUnmount e = true -> allUnmounted h ->
  allUnmounted (step e h) /\
  stream (step e h) = stream h /\ error (step e h) = error h.
Proof.
  intros He Hall.
  destruct (settling e) eqn:Hset.
  2:{ destruct (quiet_step e h Hset) as (_ & _ & _ & _ & Hs & _ & Her).
      split; [|auto].
      assert (Hreq : requests (step e h) = requests h).
      { destruct e; try discriminate; unfold_all;
          repeat (break_match; cbn); reflexivity. }
      intros i r. rewrite Hreq. apply Hall. }
  assert (Hcases : e = Unmount \/ e <> Unmount).
  { destruct e; try discriminate; auto; right; discriminate. }
  destruct Hcases as [->|Hne].
  { destruct (unmount_fields h) as (Hs & Her & _).
    split; [apply unmountHook_allUnmounted|auto]. }
  assert (Hins : forall rid r p,
             requests h !! rid = Some r ->
             forall i r', <[rid := withPhase p r]> (requests h) !! i = Some r'
                          -> mounted r' = false).
  { intros rid r p Hr i r' Hl. destruct (decide (rid = i)) as [<-|Hni].
    - rewrite list_lookup_insert_eq in Hl by (eapply lookup_lt_Some; eauto).
      injection Hl as <-. cbn. now apply (Hall rid r).
    - rewrite list_lookup_insert_ne in Hl by exact Hni. now apply (Hall i). }
  destruct (settle_cases e h Hset Hne)
    as [Hidle|[(rid & r & message & Hr & Hp & ->)
       |[(rid & r & Hg)|(rid & r & message & Hf)]]].
  - rewrite Hidle. auto.
  - destruct (retry_fields h rid r message Hr Hp) as (Hs & _ & Her).
    split; [|auto]. cbn [step].
    rewrite (primarySettled_denied rid r h message Hr Hp). cbn.
    intros i r'. now apply (Hins rid r AwaitFallback).
  - assert (Hr : requests h !! rid = Some r) by apply Hg.
    pose proof (Hall rid r Hr) as Hm.
    rewrite (settlesGranted_step h rid r e Hg).
    rewrite (streamAcquired_abandoned r _ _ Hm).
    destruct (granted_fields rid r h) as (Hs & Her & _).
    split; [|auto]. cbn. intros i r'. now apply (Hins rid r Finished).
  - destruct Hf as (Hr & Hp & ->).
    pose proof (Hall rid r Hr) as Hm. cbn [step].
    rewrite (fallbackSettled_denied rid r h message Hr Hp).
    rewrite (streamFailed_abandoned r message _ Hm). cbn.
    split; [|auto]. intros i r'. now apply (Hins rid r Finished).
Qed.

Lemma trace_grows (es : list Event) (h : Hook) (x : Ev) :
  x ∈ trace h -> x ∈ trace (run es h).
Proof.
  revert h. induction es as [|e es IH]; intros h Hin; [exact Hin|].
  cbn. apply IH. rewrite (trace_emitted e h). apply elem_of_app. auto.
Qed.

(** Once the component is unmounted the stream negotiation is inert: the
    tracks of the stream that was active have been stopped, every closure
    of the stream effect is unmounted, and whatever [getUserMedia] promises
    settle and whatever recorders fire afterwards, the stream and the error
    it last showed never change (a stream that still arrives is stopped at
    once, see C1). *)
Theorem unmounted_is_inert (h : Hook) (es : list Event) :
  forallb afterUnmount es = true ->
  let h' := run es (unmountHook h) in
  stream h' = stream h /\ error h' = error h /\
  allUnmounted h' /\
  forall s, stream h = Some s -> EvTrackStop s ∈ trace h'.
Proof.
  intros Hes. cbn zeta.
  assert (Hrun : forall g, allUnmounted g ->
            allUnmounted (run es g) /\
            stream (run es g) = stream g /\ error (run es g) = error g).
  { clear h. induction es as [|e es IH]; intros g Hall; [auto|].
    cbn in Hes. apply andb_true_iff in Hes as [He Hes].
    change (run (e :: es) g) with (run es (step e g)).
    destruct (step_after_unmount e g He Hall) as (H1 & H2 & H3).
    destruct (IH Hes (step e g) H1) as (H4 & H5 & H6).
    rewrite H5, H6. auto. }
  destruct (Hrun _ (unmountHook_allUnmounted h)) as (H1 & H2 & H3).
  destruct (unmount_fields h) as (H4 & H5 & _ & _ & H6).
  rewrite H2, H3. split; [exact H4|]. split; [exact H5|]. split; [exact H1|].
  intros s Hs. apply trace_grows. rewrite H6, Hs.
  apply elem_of_app. right. now apply list_elem_of_singleton.
Qed.

Lemma unmounted_is_inert_witness :
  stream (run [PrimarySettled 1 Granted]
            (unmountHook (run [SelectDevice "camB"] streaming))) = Some 0.
Proof.
  exact (proj1 (unmounted_is_inert (run [SelectDevice "camB"] streaming)
                  [PrimarySettled 1 Granted] eq_refl)).
Defined.

End NegotiatorFacts.

(* ===================================================================== *)
(** * More about recording *)
(* ===================================================================== *)

Module RecorderFacts.
Import Camera CameraFacts.

Local Open Scope nat_scope.

Definition nonEmpty (data : Blob) : bool := 0 <? length data.

Definition deliveries (r : nat) (ds : list Blob) : list Event :=
  map (DataAvailable r) ds.

Lemma concat_nonEmpty (ds : list Blob) :
  concat (List.filter nonEmpty ds) = concat ds.
Proof.
  induction ds as [|d ds IH]; [reflexivity|]. cbn.
  destruct d as [|x d]; cbn; [exact IH|]. now rewrite IH.
Qed.

(** Deliveries only append the chunks that are not empty. *)
Lemma run_deliveries (r : nat) (ds : list Blob) (h : Hook) :
  is_Some (recorders h !! r) ->
  let h1 := run (deliveries r ds) h in
  recordedChunksRef h1 = recordedChunksRef h ++ List.filter nonEmpty ds /\
  recorders h1 = recorders h /\
  mediaRecorderRef h1 = mediaRecorderRef h /\
  isRecording h1 = isRecording h /\
  stream h1 = stream h /\
  trace h1 = trace h.
Proof.
  revert h. induction ds as [|d ds IH]; intros h [m Hm]; cbn zeta.
  - cbn. rewrite app_nil_r. repeat split; reflexivity.
  - change (run (deliveries r (d :: ds)) h)
      with (run (deliveries r ds) (dataAvailable r d h)).
    assert (Hstep : recorders (dataAvailable r d h) = recorders h /\
                    recordedChunksRef (dataAvailable r d h)
                    = recordedChunksRef h
                      ++ (if nonEmpty d then [d] else []) /\
                    mediaRecorderRef (dataAvailable r d h)
                    = mediaRecorderRef h /\
                    isRecording (dataAvailable r d h) = isRecording h /\
                    stream (dataAvailable r d h) = stream h /\
                    trace (dataAvailable r d h) = trace h).
    { unfold dataAvailable, nonEmpty. rewrite Hm.
      destruct (0 <? length d); cbn; rewrite ?app_nil_r;
        repeat split; reflexivity. }
    destruct Hstep as (H1 & H2 & H3 & H4 & H5 & H6).
    destruct (IH (dataAvailable r d h)) as (I1 & I2 & I3 & I4 & I5 & I6).
    { rewrite H1. eauto. }
    rewrite I1, I2, I3, I4, I5, I6, H1, H2, H3, H4, H5, H6.
    cbn [List.filter]. destruct (nonEmpty d); cbn;
      rewrite <- ?app_assoc, ?app_nil_r; repeat split; reflexivity.
Qed.

Definition withOnstop (m : MediaRecorder) : MediaRecorder :=
  {| rec_stream := rec_stream m; rec_state := rec_state m;
     rec_onstop := true; rec_stopQueued := rec_stopQueued m |}.

Definition stopped (m : MediaRecorder) : MediaRecorder :=
  {| rec_stream := rec_stream m; rec_state := inactive;
     rec_onstop := rec_onstop m; rec_stopQueued := true |}.

Definition fired (m : MediaRecorder) : MediaRecorder :=
  {| rec_stream := rec_stream m; rec_state := rec_state m;
     rec_onstop := rec_onstop m; rec_stopQueued := false |}.

Lemma installOnstop_at (r : nat) (m : MediaRecorder) (h : Hook) :
  recorders h !! r = Some m ->
  installOnstop r h = setRecorders (<[r := withOnstop m]> (recorders h)) h.
Proof. intros Hm. unfold installOnstop. now rewrite Hm. Qed.

Lemma inactivate_at (r : nat) (m : MediaRecorder) (h : Hook) :
  recorders h !! r = Some m -> rec_state m = recording ->
  inactivate r h = setRecorders (<[r := stopped m]> (recorders h)) h.
Proof.
  intros Hm Hs. unfold inactivate, stopped. rewrite Hm.
  destruct (rec_state m); [discriminate|reflexivity].
Qed.

Lemma stopEvent_at (r : nat) (m : MediaRecorder) (h : Hook) :
  recorders h !! r = Some m -> rec_stopQueued m = true ->
  rec_onstop m = true ->
  stopEvent r h
  = setIsRecording false
      (emit (EvClip r (concat (recordedChunksRef h)))
         (setRecorders (<[r := fired m]> (recorders h)) h)).
Proof.
  intros Hm Hq Ho. unfold stopEvent, fired. rewrite Hm.
  destruct (rec_stopQueued m); [|discriminate].
  destruct (rec_onstop m); [reflexivity|discriminate].
Qed.

Lemma lookup_insert_here (l : list MediaRecorder) (r : nat)
    (m m' : MediaRecorder) :
  l !! r = Some m -> <[r := m']> l !! r = Some m'.
Proof.
  intros Hm. apply list_lookup_insert_eq. eapply lookup_lt_Some; eauto.
Qed.

(** Stopping a recorder that records, and the [stop] event that follows. *)
Lemma stop_then_event (r : nat) (m : MediaRecorder) (h : Hook) :
  mediaRecorderRef h = Some r -> recorders h !! r = Some m ->
  rec_state m = recording ->
  fst (stopRecording h) = ResolvesOnStop r /\
  let h2 := stopEvent r (snd (stopRecording h)) in
  trace h2
  = trace h ++ [EvRecorderStop r; EvClip r (concat (recordedChunksRef h))] /\
  isRecording h2 = false /\
  recorders h2 !! r = Some (fired (stopped (withOnstop m))).
Proof.
  intros Href Hm Hs. unfold stopRecording. rewrite Href. cbn [fst snd].
  unfold recorderStop. rewrite (installOnstop_at r m h Hm).
  set (g2 := emit (EvRecorderStop r)
               (setRecorders (<[r := withOnstop m]> (recorders h)) h)).
  assert (Hg2 : recorders g2 !! r = Some (withOnstop m))
    by (cbn; now apply (lookup_insert_here _ r m)).
  rewrite (inactivate_at r (withOnstop m) g2 Hg2 Hs).
  set (g3 := setRecorders (<[r := stopped (withOnstop m)]> (recorders g2)) g2).
  assert (Hg3 : recorders g3 !! r = Some (stopped (withOnstop m)))
    by (cbn; now apply (lookup_insert_here _ r (withOnstop m))).
  split.
  - unfold willFireStop. now rewrite Hg3.
  - cbn zeta.
    rewrite (stopEvent_at r (stopped (withOnstop m)) g3 Hg3 eq_refl eq_refl).
    cbn. split; [now rewrite <- app_assoc|]. split; [reflexivity|].
    now apply (lookup_insert_here _ r (stopped (withOnstop m))).
Qed.

(** Stopping a recorder that records: the promise waits for the [stop]
    event, which is queued. *)
Lemma stop_queues_event (r : nat) (m : MediaRecorder) (h : Hook) :
  mediaRecorderRef h = Some r -> recorders h !! r = Some m ->
  rec_state m = recording ->
  fst (stopRecording h) = ResolvesOnStop r /\
  recorders (snd (stopRecording h)) !! r = Some (stopped (withOnstop m)) /\
  trace (snd (stopRecording h)) = trace h ++ [EvRecorderStop r] /\
  recordedChunksRef (snd (stopRecording h)) = recordedChunksRef h.
Proof.
  intros Href Hm Hs. unfold stopRecording. rewrite Href. cbn [fst snd].
  unfold recorderStop. rewrite (installOnstop_at r m h Hm).
  set (g2 := emit (EvRecorderStop r)
               (setRecorders (<[r := withOnstop m]> (recorders h)) h)).
  assert (Hg2 : recorders g2 !! r = Some (withOnstop m))
    by (cbn; now apply (lookup_insert_here _ r m)).
  rewrite (inactivate_at r (withOnstop m) g2 Hg2 Hs).
  set (g3 := setRecorders (<[r := stopped (withOnstop m)]> (recorders g2)) g2).
  assert (Hg3 : recorders g3 !! r = Some (stopped (withOnstop m)))
    by (cbn; now apply (lookup_insert_here _ r (withOnstop m))).
  split; [unfold willFireStop; now rewrite Hg3|].
  split; [exact Hg3|]. split; reflexivity.
Qed.

(** A whole recording: with a stream active, start, let the recorder
    deliver any number of chunks, stop, let it deliver what it still holds
    (a recorder started without a time slice delivers everything then), and
    let the [stop] event fire.  While recording the buffer holds the
    non-empty chunks in the order of delivery, the promise of
    [stopRecording] is the one the [stop] event resolves, and the clip it
    resolves with is the concatenation of everything delivered, before and
    after the call of [stop()]; afterwards [isRecording] is false and the
    recorder is inactive. *)
Theorem recording_yields_clip (h : Hook) (s : MediaStream)
    (ds late : list Blob) :
  stream h = Some s ->
  let r := length (recorders h) in
  let h1 := run (deliveries r ds) (startRecording h) in
  let h2 := stopEvent r (run (deliveries r late) (snd (stopRecording h1))) in
  isRecording h1 = true /\
  recordedChunksRef h1 = List.filter nonEmpty ds /\
  fst (stopRecording h1) = ResolvesOnStop r /\
  trace h2
  = trace h ++ [EvRecorderStart r; EvRecorderStop r;
                EvClip r (concat (ds ++ late))] /\
  isRecording h2 = false /\
  (exists m, recorders h2 !! r = Some m /\ rec_state m = inactive).
Proof.
  intros Hs. cbn zeta.
  set (r := length (recorders h)).
  set (m0 := {| rec_stream := s; rec_state := recording;
                rec_onstop := false; rec_stopQueued := false |}).
  assert (Hstart : recorders (startRecording h) = recorders h ++ [m0] /\
                   recordedChunksRef (startRecording h) = [] /\
                   mediaRecorderRef (startRecording h) = Some r /\
                   isRecording (startRecording h) = true /\
                   trace (startRecording h) = trace h ++ [EvRecorderStart r]).
  { unfold startRecording. rewrite Hs. cbn. repeat split; reflexivity. }
  destruct Hstart as (S1 & S2 & S3 & S4 & S5).
  assert (Hlook : recorders (startRecording h) !! r = Some m0).
  { rewrite S1. apply list_lookup_middle. reflexivity. }
  destruct (run_deliveries r ds (startRecording h) (ex_intro _ m0 Hlook))
    as (D1 & D2 & D3 & D4 & _ & D6).
  set (h1 := run (deliveries r ds) (startRecording h)) in *.
  rewrite S2 in D1. cbn in D1. rewrite S3 in D3.
  rewrite S4 in D4. rewrite S5 in D6.
  assert (Hl1 : recorders h1 !! r = Some m0) by (now rewrite D2).
  destruct (stop_queues_event r m0 h1 D3 Hl1 eq_refl) as (T1 & T2 & T3 & T4).
  set (g := snd (stopRecording h1)) in *.
  destruct (run_deliveries r late g (ex_intro _ _ T2))
    as (L1 & L2 & _ & _ & _ & L6).
  set (g' := run (deliveries r late) g) in *.
  assert (Hl2 : recorders g' !! r = Some (stopped (withOnstop m0)))
    by (now rewrite L2).
  rewrite (stopEvent_at r (stopped (withOnstop m0)) g' Hl2 eq_refl eq_refl).
  split; [exact D4|]. split; [exact D1|]. split; [exact T1|].
  split; [|split; [reflexivity|]].
  - cbn [trace emit setIsRecording setRecorders].
    rewrite L6, T3, D6, L1, T4, D1, !concat_app, !concat_nonEmpty,
      <- !app_assoc.
    reflexivity.
  - exists (fired (stopped (withOnstop m0))). split; [|reflexivity].
    cbn [recorders setIsRecording emit setRecorders].
    now apply (lookup_insert_here _ r (stopped (withOnstop m0))).
Qed.

Lemma recording_yields_clip_witness :
  trace (stopEvent 0
           (run (deliveries 0 [[4; 5]])
              (snd (stopRecording
                      (run (deliveries 0 [[1; 2]; []; [3]])
                           (startRecording streaming))))))
  = trace streaming
    ++ [EvRecorderStart 0; EvRecorderStop 0; EvClip 0 [1; 2; 3; 4; 5]].
Proof.
  exact (proj1 (proj2 (proj2 (proj2
           (recording_yields_clip streaming 0 [[1; 2]; []; [3]] [[4; 5]]
              eq_refl))))).
Defined.

End RecorderFacts.

(* ===================================================================== *)
(** * The health monitor ([useCamera], the effect on [stream]) *)
(* ===================================================================== *)

Module Health.
Import Camera.

Local Open Scope nat_scope.

(** What the monitor reads from [stream.getVideoTracks()[0]]: the track and
    its [getSettings()]. *)
Record VideoTrack : Type := mkTrack {
  track_readyState : string;
  track_muted : bool;
  track_enabled : bool;
  settings_width : nat;
  settings_height : nat;
  settings_frameRate : nat;
  track_label : string
}.

(** The [debugInfo] state. *)
Record DebugInfo : Type := mkDebugInfo {
  readyState : string;
  muted : bool;
  enabled : bool;
  info_width : nat;
  info_height : nat;
  frameRate : nat;
  info_label : string
}.

Definition sample (videoTrack : VideoTrack) : DebugInfo :=
  {| readyState := track_readyState videoTrack;
     muted := track_muted videoTrack;
     enabled := track_enabled videoTrack;
     info_width := settings_width videoTrack;
     info_height := settings_height videoTrack;
     frameRate := settings_frameRate videoTrack;
     info_label := track_label videoTrack |}.

(** The hook together with the monitor: [interval] is the stream whose
    1-second timer is running, if any. *)
Record Monitored : Type := mkMonitored {
  hook : Hook;
  debugInfo : option DebugInfo;
  interval : option MediaStream
}.

Definition initialMonitored : Monitored :=
  {| hook := initialHook; debugInfo := None; interval := None |}.

(** The effect on [stream], after its cleanup has cleared the old timer. *)
Definition healthEffect (m : Monitored) : Monitored :=
  match stream (hook m) with
  | None => {| hook := hook m; debugInfo := None; interval := None |}
  | Some s => {| hook := hook m; debugInfo := debugInfo m;
                 interval := Some s |}
  end.

(** The callback of the timer; [videoTrack] is what the stream of the
    timer answers for [getVideoTracks()[0]]. *)
Definition tick (videoTrack : option VideoTrack) (m : Monitored)
  : Monitored :=
  match interval m, videoTrack with
  | Some _, Some t =>
      {| hook := hook m; debugInfo := Some (sample t);
         interval := interval m |}
  | _, _ => m
  end.

Inductive MonitorEvent : Type :=
| Hooked (e : Event)                         (* something happens to the hook *)
| Tick (videoTrack : option VideoTrack).     (* the timer fires *)

Definition monitorStep (x : MonitorEvent) (m : Monitored) : Monitored :=
  match x with
  | Hooked Unmount =>
      {| hook := step Unmount (hook m); debugInfo := debugInfo m;
         interval := None |}
  | Hooked e =>
      let h' := step e (hook m) in
      if decide (stream h' = stream (hook m)) then
        {| hook := h'; debugInfo := debugInfo m; interval := interval m |}
      else
        healthEffect
          {| hook := h'; debugInfo := debugInfo m; interval := None |}
  | Tick videoTrack => tick videoTrack m
  end.

Definition monitorRun (xs : list MonitorEvent) (m : Monitored) : Monitored :=
  fold_left (fun acc x => monitorStep x acc) xs m.

Definition monitored (m : Monitored) : Prop :=
  exists xs, m = monitorRun xs initialMonitored.

Definition monitor_inv (m : Monitored) : Prop :=
  (stream (hook m) = None -> debugInfo m = None /\ interval m = None) /\
  (forall s, interval m = Some s -> stream (hook m) = Some s).

Lemma monitorStep_inv (x : MonitorEvent) (m : Monitored) :
  monitor_inv m -> monitor_inv (monitorStep x m).
Proof.
  intros [Hnone Hint]. destruct x as [e|videoTrack].
  - assert (Hgen : monitor_inv
             (let h' := step e (hook m) in
              if decide (stream h' = stream (hook m)) then
                {| hook := h'; debugInfo := debugInfo m;
                   interval := interval m |}
              else
                healthEffect
                  {| hook := h'; debugInfo := debugInfo m;
                     interval := None |})).
    { cbn zeta. case_decide as Hd.
      - split; cbn; rewrite Hd; auto.
      - unfold healthEffect. cbn.
        destruct (stream (step e (hook m))) as [s|] eqn:Hs; split; cbn;
          rewrite ?Hs; auto; try discriminate. }
    destruct e; try exact Hgen.
    cbn [monitorStep]. split; cbn.
    + assert (Hsame : stream (unmountHook (hook m)) = stream (hook m)).
      { unfold unmountHook, streamCleanup.
        destruct (stream _) eqn:Hs; cbn; now rewrite ?Hs. }
      rewrite Hsame. intros Hs. split; [now apply Hnone|reflexivity].
    + intros s [=].
  - cbn [monitorStep]. unfold tick.
    pose proof (conj Hnone Hint : monitor_inv m) as Inv.
    destruct (interval m) as [s|] eqn:Hi; [|exact Inv].
    destruct videoTrack as [t|]; [|exact Inv].
    split; cbn.
    + intros Hs. rewrite (Hint s eq_refl) in Hs. discriminate.
    + exact Hint.
Qed.

Lemma monitorRun_snoc (xs : list MonitorEvent) (x : MonitorEvent)
    (m : Monitored) :
  monitorRun (xs ++ [x]) m = monitorStep x (monitorRun xs m).
Proof. unfold monitorRun. now rewrite fold_left_app. Qed.

(** The telemetry follows the stream: whenever no stream is active there is
    no sample and no timer, and a timer that runs always belongs to the
    stream that is active, so no sample is ever taken from a stream that has
    been replaced or from a hook that is unmounted. *)
Theorem telemetry_follows_stream (m : Monitored) :
  monitored m ->
  (stream (hook m) = None -> debugInfo m = None /\ interval m = None) /\
  (forall s, interval m = Some s -> stream (hook m) = Some s) /\
  (forall videoTrack,
      interval m = None ->
      debugInfo (monitorStep (Tick videoTrack) m) = debugInfo m) /\
  interval (monitorStep (Hooked Unmount) m) = None.
Proof.
  intros [xs ->].
  assert (Inv : monitor_inv (monitorRun xs initialMonitored)).
  { induction xs as [|x xs IH] using rev_ind.
    - split; [auto|]. intros s [=].
    - rewrite monitorRun_snoc. now apply monitorStep_inv. }
  destruct Inv as [H1 H2]. split; [exact H1|]. split; [exact H2|].
  split; [|reflexivity].
  intros videoTrack Hi. cbn. unfold tick. now rewrite Hi.
Qed.

(** A failed switch: the sample of the stream that was torn down is
    cleared. *)
Definition afterFailedSwitch : Monitored :=
  monitorRun
    [Hooked (Enumerated "" (Fulfilled [CameraFacts.camA]));
     Hooked (PrimarySettled 0 Granted);
     Tick (Some (mkTrack "live" false true 1920 1080 30 "Microscope"));
     Hooked (SelectDevice "camB");
     Hooked (PrimarySettled 1 (Denied "NotReadableError"));
     Hooked (FallbackSettled 1 (Denied "NotReadableError"))]
    initialMonitored.

Lemma telemetry_follows_stream_witness :
  debugInfo afterFailedSwitch = None /\ interval afterFailedSwitch = None.
Proof.
  refine (proj1 (telemetry_follows_stream afterFailedSwitch _) _).
  - eexists; reflexivity.
  - reflexivity.
Defined.

End Health.

(* ===================================================================== *)
(** * More about the preferences *)
(* ===================================================================== *)

Module PreferenceFacts.
Import Settings SettingsFacts.

Section WithJSON.
Context `{J : JSON}.

Lemma saveSettings_storage (a : App) (k : string) :
  k <> storageKey (selectedDeviceId a) ->
  localStorage (saveSettings a) !! k = localStorage a !! k.
Proof.
  intros Hk. unfold saveSettings.
  destruct (negb (truthy (selectedDeviceId a)) || negb (isLoadedRef a));
    [reflexivity|].
  cbn. now rewrite lookup_insert_ne.
Qed.

Lemma saveSettings_gated (a : App) :
  isLoadedRef a = false -> saveSettings a = a.
Proof.
  intros Hl. unfold saveSettings. rewrite Hl, orb_true_r. reflexivity.
Qed.

Lemma saveSettings_unselected (a : App) :
  selectedDeviceId a = "" -> saveSettings a = a.
Proof. intros Hd. unfold saveSettings. now rewrite Hd. Qed.

Lemma loadSettings_frame (a : App) :
  localStorage (loadSettings a) = localStorage a /\
  selectedDeviceId (loadSettings a) = selectedDeviceId a /\
  (selectedDeviceId a <> "" -> isLoadedRef (loadSettings a) = false) /\
  (selectedDeviceId a = "" -> loadSettings a = a).
Proof.
  unfold loadSettings. destruct (truthy (selectedDeviceId a)) eqn:Ht.
  - apply aspect_truthy_true in Ht.
    destruct (localStorage a !! storageKey (selectedDeviceId a)) as [t|];
      [destruct (parse t)|]; cbn; repeat split; auto; contradiction.
  - destruct (selectedDeviceId a); [|discriminate].
    repeat split; auto; contradiction.
Qed.

(** The commits of a change of device: the load effect and the save effect
    behind its guard. *)
Lemma switch_storage (d : string) (a : App) :
  let a' := saveSettings (saveSettings (loadSettings (withDevice d a))) in
  localStorage a' = localStorage a /\
  selectedDeviceId a' = d /\
  (d <> "" -> isLoadedRef a' = false) /\
  (d = "" -> isLoadedRef a' = isLoadedRef a).
Proof.
  cbn zeta.
  destruct (loadSettings_frame (withDevice d a)) as (H1 & H2 & H3 & H4).
  cbn in H1, H2, H3, H4.
  destruct (decide (d = "")) as [->|Hd].
  - rewrite (H4 eq_refl).
    rewrite !saveSettings_unselected by reflexivity.
    repeat split; auto; contradiction.
  - rewrite !saveSettings_gated by
      (rewrite ?saveSettings_gated by auto; auto).
    repeat split; auto; contradiction.
Qed.

(** Selecting a device writes nothing, whatever is stored and whatever the
    timer state. *)
Lemma deviceSelected_storage (d : string) (a : App) :
  localStorage (act (DeviceSelected d) a) = localStorage a /\
  selectedDeviceId (act (DeviceSelected d) a) = d /\
  (d <> "" -> d <> selectedDeviceId a ->
   isLoadedRef (act (DeviceSelected d) a) = false).
Proof.
  cbn [act]. destruct (decide (d = selectedDeviceId a)) as [Hsame|Hne].
  - repeat split; auto. intros _ Hd. contradiction.
  - destruct (switch_storage d a) as (H1 & H2 & H3 & _). auto.
Qed.

Lemma act_storage_other (x : Action) (a : App) (other : string) :
  other <> selectedDeviceId a ->
  localStorage (act x a) !! storageKey other
  = localStorage a !! storageKey other.
Proof.
  intros Hne.
  assert (Hk : storageKey other <> storageKey (selectedDeviceId a)).
  { intros H. apply Hne. now apply storageKey_inj. }
  destruct x; cbn [act].
  - now rewrite saveSettings_storage.
  - destruct (filtersIsDefault a); [reflexivity|].
    now rewrite saveSettings_storage.
  - destruct (decide (optionValue o = aspectRatio a)); [reflexivity|].
    now rewrite saveSettings_storage.
  - destruct (decide (b = compatibilityMode a)); [reflexivity|].
    now rewrite saveSettings_storage.
  - destruct (decide (deviceId = selectedDeviceId a)); [reflexivity|].
    now destruct (switch_storage deviceId a) as (-> & _).
  - reflexivity.
Qed.

(** No action touches what is stored for a device that is not selected:
    changing a filter, the aspect ratio or the compatibility mode, selecting
    another device and the settle timer all leave the entries of the other
    devices as they are. *)
Theorem stored_preferences_isolated (x : Action) (a : App) (other : string) :
  other <> selectedDeviceId a ->
  localStorage (act x a) !! storageKey other
  = localStorage a !! storageKey other.
Proof. apply act_storage_other. Qed.

(** Actions that are not the timer. *)
Definition notTimer (x : Action) : bool :=
  match x with SettleTimer => false | _ => true end.

Lemma gated_act (x : Action) (a : App) :
  notTimer x = true -> isLoadedRef a = false ->
  localStorage (act x a) = localStorage a /\ isLoadedRef (act x a) = false.
Proof.
  intros Hx Hl. destruct x; try discriminate; cbn [act].
  - now rewrite saveSettings_gated.
  - destruct (filtersIsDefault a); [auto|]. now rewrite saveSettings_gated.
  - destruct (decide (optionValue o = aspectRatio a)); [auto|].
    now rewrite saveSettings_gated.
  - destruct (decide (b = compatibilityMode a)); [auto|].
    now rewrite saveSettings_gated.
  - destruct (decide (deviceId = selectedDeviceId a)); [auto|].
    destruct (switch_storage deviceId a) as (H1 & _ & H3 & H4).
    split; [exact H1|].
    destruct (decide (deviceId = "")) as [Hd|Hd]; [|now apply H3].
    now rewrite (H4 Hd).
Qed.

Lemma gated_run (xs : list Action) (b : App) :
  forallb notTimer xs = true -> isLoadedRef b = false ->
  localStorage (runActions xs b) = localStorage b /\
  isLoadedRef (runActions xs b) = false.
Proof.
  revert b. induction xs as [|x xs IH]; intros b Hxs Hl; [auto|].
  cbn in Hxs. apply andb_true_iff in Hxs as [Hx Hxs].
  change (runActions (x :: xs) b) with (runActions xs (act x b)).
  destruct (gated_act x b Hx Hl) as [H1 H2].
  destruct (IH (act x b) Hxs H2) as [H3 H4]. rewrite H3. auto.
Qed.

(** From the moment another device is selected until a 100 ms timer fires,
    nothing is written to the storage, whatever the user changes: what was
    saved for the device cannot be overwritten by the state that is being
    loaded. *)
Theorem no_write_before_timer (d : string) (xs : list Action) (a : App) :
  d <> "" -> d <> selectedDeviceId a -> forallb notTimer xs = true ->
  localStorage (runActions xs (act (DeviceSelected d) a)) = localStorage a.
Proof.
  intros Hd Hne Hxs.
  destruct (deviceSelected_storage d a) as (H1 & _ & H3).
  destruct (gated_run xs _ Hxs (H3 Hd Hne)) as [H4 _].
  now rewrite H4.
Qed.

(** ** Coming back to a device *)

(** The action changes a preference: React commits it, and the save effect
    runs. *)
Definition changesPreference (x : Action) (a : App) : bool :=
  match x with
  | ChangeFilters _ => true
  | ResetFilters => negb (filtersIsDefault a)
  | ChooseAspect o => bool_decide (optionValue o <> aspectRatio a)
  | SetCompatibility b => bool_decide (b <> compatibilityMode a)
  | DeviceSelected _ | SettleTimer => false
  end.

Lemma act_selected (x : Action) (a : App) :
  selectedDeviceId (act x a)
  = match x with DeviceSelected d => d | _ => selectedDeviceId a end.
Proof.
  destruct x; cbn [act].
  - now destruct (saveSettings_preferences (withFilters f false a))
      as (_ & _ & _ & _ & ->).
  - destruct (filtersIsDefault a); [reflexivity|].
    now destruct (saveSettings_preferences
                    (withFilters DEFAULT_FILTERS true a))
      as (_ & _ & _ & _ & ->).
  - destruct (decide (optionValue o = aspectRatio a)); [reflexivity|].
    now destruct (saveSettings_preferences
                    (withAspectRatio (optionValue o) a))
      as (_ & _ & _ & _ & ->).
  - destruct (decide (b = compatibilityMode a)); [reflexivity|].
    now destruct (saveSettings_preferences (withCompatibility b a))
      as (_ & _ & _ & _ & ->).
  - apply (deviceSelected_storage deviceId a).
  - reflexivity.
Qed.

(** A change made while saving is enabled is in the storage at once. *)
Lemma change_is_stored (x : Action) (a : App) :
  changesPreference x a = true ->
  selectedDeviceId a <> "" -> isLoadedRef a = true ->
  localStorage (act x a) !! storageKey (selectedDeviceId a)
  = Some (stringify {| s_filters := filters (act x a);
                       s_aspectRatio := aspectRatio (act x a);
                       s_compatibilityMode := compatibilityMode (act x a) |}).
Proof.
  intros Hx Hd Hl. apply aspect_truthy_true in Hd.
  assert (H : forall b : App,
             selectedDeviceId b = selectedDeviceId a ->
             isLoadedRef b = true ->
             localStorage (saveSettings b) !! storageKey (selectedDeviceId a)
             = Some (stringify
                       {| s_filters := filters (saveSettings b);
                          s_aspectRatio := aspectRatio (saveSettings b);
                          s_compatibilityMode :=
                            compatibilityMode (saveSettings b) |})).
  { intros b Hb Hlb.
    destruct (saveSettings_preferences b) as (-> & -> & -> & _).
    rewrite <- Hb. apply saveSettings_stored; [now rewrite Hb|exact Hlb]. }
  destruct x; try discriminate; cbn [act changesPreference] in *.
  - now apply H.
  - destruct (filtersIsDefault a); [discriminate|]. now apply H.
  - apply bool_decide_eq_true in Hx.
    destruct (decide (optionValue o = aspectRatio a)); [contradiction|].
    now apply H.
  - apply bool_decide_eq_true in Hx.
    destruct (decide (b = compatibilityMode a)); [contradiction|].
    now apply H.
Qed.

Lemma away_selected (A : string) (ys : list Action) (b : App) :
  selectedDeviceId b <> A ->
  Forall (fun y => y <> DeviceSelected A) ys ->
  selectedDeviceId (runActions ys b) <> A.
Proof.
  revert b. induction ys as [|y ys IH]; intros b Hb Hys; [exact Hb|].
  apply Forall_cons in Hys as [Hy Hys].
  change (runActions (y :: ys) b) with (runActions ys (act y b)).
  apply IH; [|exact Hys].
  rewrite act_selected; destruct y; auto; congruence.
Qed.

Lemma away_keeps_stored (A : string) (ys : list Action) (b : App) :
  selectedDeviceId b <> A ->
  Forall (fun y => y <> DeviceSelected A) ys ->
  localStorage (runActions ys b) !! storageKey A
  = localStorage b !! storageKey A.
Proof.
  revert b. induction ys as [|y ys IH]; intros b Hb Hys; [reflexivity|].
  apply Forall_cons in Hys as [Hy Hys].
  change (runActions (y :: ys) b) with (runActions ys (act y b)).
  rewrite IH; [|rewrite act_selected; destruct y; auto; congruence|exact Hys].
  apply act_storage_other. auto.
Qed.

Lemma deviceSelected_loads (A : string) (c : App) (s : SettingsObject) :
  A <> "" -> A <> selectedDeviceId c ->
  truthy (s_aspectRatio s) = true ->
  localStorage c !! storageKey A = Some (stringify s) ->
  let c' := act (DeviceSelected A) c in
  filters c' = s_filters s /\
  aspectRatio c' = s_aspectRatio s /\
  compatibilityMode c' = s_compatibilityMode s.
Proof.
  intros HA Hne Hasp Hst. cbn zeta. cbn [act].
  destruct (decide (A = selectedDeviceId c)); [contradiction|].
  destruct (saveSettings_preferences
              (saveSettings (loadSettings (withDevice A c))))
    as (-> & -> & -> & _).
  destruct (saveSettings_preferences (loadSettings (withDevice A c)))
    as (-> & -> & -> & _).
  apply aspect_truthy_true in HA.
  unfold loadSettings. cbn [selectedDeviceId localStorage withDevice].
  rewrite HA, Hst, parse_stringify. cbn. now rewrite Hasp.
Qed.

(** Preferences survive a visit to other devices.  Let the user make a
    change to a preference of the selected device while saving is enabled
    (a change that React commits: a filter moved, a reset of filters that
    are not the defaults already, another aspect ratio, the other
    compatibility mode), then select another device and do anything at all
    there and on further devices, and finally select the first device again:
    its filters, aspect ratio and compatibility mode are back as they were
    left. *)
Theorem preferences_survive_switching (a : App) (x : Action) (B : string)
    (ys : list Action) :
  reachableApp a ->
  selectedDeviceId a <> "" ->
  isLoadedRef a = true ->
  changesPreference x a = true ->
  B <> selectedDeviceId a ->
  Forall (fun y => y <> DeviceSelected (selectedDeviceId a)) ys ->
  samePreferences
    (act (DeviceSelected (selectedDeviceId a))
       (runActions ys (act (DeviceSelected B) (act x a))))
    (act x a).
Proof.
  intros Hreach Hd Hl Hx HB Hys.
  set (A := selectedDeviceId a) in *.
  assert (Hasp : truthy (aspectRatio (act x a)) = true).
  { apply act_aspect. now apply reachableApp_aspect. }
  pose proof (change_is_stored x a Hx Hd Hl) as Hst. fold A in Hst.
  assert (HselB : selectedDeviceId (act (DeviceSelected B) (act x a)) <> A).
  { rewrite act_selected. exact HB. }
  assert (Haway : localStorage
                    (runActions ys (act (DeviceSelected B) (act x a)))
                    !! storageKey A
                  = localStorage (act x a) !! storageKey A).
  { rewrite away_keeps_stored; [|exact HselB|exact Hys].
    now destruct (deviceSelected_storage B (act x a)) as (-> & _). }
  rewrite <- Haway in Hst.
  assert (Hne : A <> selectedDeviceId
                       (runActions ys (act (DeviceSelected B) (act x a)))).
  { intros E. symmetry in E. revert E. now apply away_selected. }
  exact (deviceSelected_loads A _
           {| s_filters := filters (act x a);
              s_aspectRatio := aspectRatio (act x a);
              s_compatibilityMode := compatibilityMode (act x a) |}
           Hd Hne Hasp Hst).
Qed.

(** ** First use and damaged entries *)

(** Selecting another device for which nothing is stored, or for which the
    stored text does not parse, gives the default filters and the 3/2 aspect
    ratio, keeps the compatibility mode that was in force, and writes
    nothing. *)
Theorem unknown_device_gets_defaults (d : string) (a : App) :
  d <> "" ->
  d <> selectedDeviceId a ->
  (localStorage a !! storageKey d = None \/
   exists saved, localStorage a !! storageKey d = Some saved /\
                 parse saved = None) ->
  let a' := act (DeviceSelected d) a in
  filters a' = DEFAULT_FILTERS /\
  aspectRatio a' = "3/2" /\
  compatibilityMode a' = compatibilityMode a /\
  localStorage a' = localStorage a /\
  isLoadedRef a' = false.
Proof.
  intros Hd Hne Hst. cbn zeta.
  destruct (deviceSelected_storage d a) as (H1 & _ & H3).
  split; [|split; [|split; [|split; [exact H1|now apply H3]]]];
    cbn [act];
    (destruct (decide (d = selectedDeviceId a)); [contradiction|]);
    destruct (saveSettings_preferences
                (saveSettings (loadSettings (withDevice d a))))
      as (E1 & E2 & E3 & _);
    destruct (saveSettings_preferences (loadSettings (withDevice d a)))
      as (F1 & F2 & F3 & _);
    rewrite ?E1, ?E2, ?E3, ?F1, ?F2, ?F3;
    apply aspect_truthy_true in Hd;
    unfold loadSettings; cbn [selectedDeviceId localStorage withDevice];
    rewrite Hd;
    destruct Hst as [->|(saved & -> & ->)]; reflexivity.
Qed.

(** ** Setters that are handed the current state *)

(** A reset of filters that are the defaults already, the aspect ratio or
    the compatibility mode that is in force, and the device that is
    selected: none of them changes anything, the storage included. *)
Lemma same_state_is_skipped (a : App) :
  (filtersIsDefault a = true -> act ResetFilters a = a) /\
  (forall o, optionValue o = aspectRatio a -> act (ChooseAspect o) a = a) /\
  act (SetCompatibility (compatibilityMode a)) a = a /\
  act (DeviceSelected (selectedDeviceId a)) a = a.
Proof.
  split; [|split; [|split]]; cbn [act].
  - now intros ->.
  - intros o Ho. now destruct (decide (optionValue o = aspectRatio a)).
  - now destruct (decide (compatibilityMode a = compatibilityMode a)).
  - now destruct (decide (selectedDeviceId a = selectedDeviceId a)).
Qed.

End WithJSON.

Lemma no_write_before_timer_witness :
  localStorage
    (runActions [ChooseAspect Ratio_1_1; SetCompatibility false; ResetFilters]
       (act (DeviceSelected "camB") (@saveSettings structuralJSON tuned)))
  = localStorage (@saveSettings structuralJSON tuned).
Proof.
  apply (@no_write_before_timer structuralJSON);
    [discriminate|discriminate|reflexivity].
Defined.

Lemma preferences_survive_switching_witness :
  samePreferences
    (@act structuralJSON (DeviceSelected "camA")
       (runActions
          [SettleTimer; ChooseAspect Ratio_1_1; DeviceSelected "camC"]
          (act (DeviceSelected "camB") (act (SetCompatibility false) tuned))))
    (@act structuralJSON (SetCompatibility false) tuned).
Proof.
  apply (@preferences_survive_switching structuralJSON tuned
           (SetCompatibility false) "camB"
           [SettleTimer; ChooseAspect Ratio_1_1; DeviceSelected "camC"]).
  - exists ∅. eexists. reflexivity.
  - discriminate.
  - reflexivity.
  - reflexivity.
  - discriminate.
  - repeat constructor; discriminate.
Defined.

Lemma unknown_device_gets_defaults_witness :
  filters (@act structuralJSON (DeviceSelected "camB") tuned)
  = DEFAULT_FILTERS.
Proof.
  refine (proj1 (@unknown_device_gets_defaults structuralJSON "camB" tuned
                   _ _ _)).
  - discriminate.
  - discriminate.
  - left. reflexivity.
Defined.

Lemma stored_preferences_isolated_witness :
  localStorage (@act structuralJSON (SetCompatibility false) tuned)
    !! storageKey "camB"
  = localStorage tuned !! storageKey "camB".
Proof.
  apply (@stored_preferences_isolated structuralJSON). discriminate.
Defined.

End PreferenceFacts.

(* ===================================================================== *)
(** * More about pan and zoom *)
(* ===================================================================== *)

Module ViewFacts.
Import Transform TransformFacts.



Lemma clamp_proper (m v v' : Q) : v == v' -> clampQ m v == clampQ m v'.
Proof.
  intros Hv. unfold clampQ.
  destruct (Q.min_spec m v) as [[A1 A2]|[A1 A2]];
    destruct (Q.min_spec m v') as [[B1 B2]|[B1 B2]];
    destruct (Q.max_spec (- m) (Qmin m v)) as [[C1 C2]|[C1 C2]];
    destruct (Q.max_spec (- m) (Qmin m v')) as [[D1 D2]|[D1 D2]];
    rewrite C2, D2; rewrite ?A2, ?B2 in *; lra.
Qed.


(** ** Absolute requests *)



(** ** Drags *)

Definition mouseOnly (g : Gesture) : bool :=
  match g with
  | MouseDown _ _ | MouseMove _ _ _ | MouseUp => true
  | _ => false
  end.

Lemma handleMouseUp_idle (v : View) :
  isDraggingRef v = false -> handleMouseUp v = v.
Proof. intros Hd. destruct v. cbn in *. now subst. Qed.

(** In compare mode, and at a zoom of at most 1, the mouse cannot pan: with
    no drag in progress, no sequence of presses, moves and releases changes
    the view at all. *)
Theorem mouse_is_inert (v : View) (gs : list Gesture) :
  isDraggingRef v = false ->
  splitMode v = true \/ zoom v <= 1 ->
  forallb mouseOnly gs = true ->
  run gs v = v.
Proof.
  intros Hd Hwhy Hgs. induction gs as [|g gs IH]; [reflexivity|].
  cbn in Hgs. apply andb_true_iff in Hgs as [Hg Hgs].
  change (run (g :: gs) v) with (run gs (step g v)).
  assert (Hstep : step g v = v).
  { destruct g; try discriminate; cbn [step].
    - unfold handleMouseDown. destruct Hwhy as [Hs|Hz].
      + rewrite Hs. cbn. now rewrite andb_false_r.
      + apply Qle_bool_true in Hz. now rewrite Hz.
    - unfold handleMouseMove. now rewrite Hd.
    - now apply handleMouseUp_idle. }
  rewrite Hstep. now apply IH.
Qed.

Lemma mouse_is_inert_witness :
  run [MouseDown 5 5; MouseMove 90 90 (Some (100, 100)); MouseUp]
      (step ToggleSplit (step (ZoomSlider 3) initialView))
  = step ToggleSplit (step (ZoomSlider 3) initialView).
Proof.
  apply mouse_is_inert; [reflexivity|left; reflexivity|reflexivity].
Defined.

(** ** Zoom *)

Lemma rangeInput_bounds (raw : Q) :
  minScale <= rangeInput minScale maxScale raw <= maxScale.
Proof.
  unfold rangeInput, minScale, maxScale.
  destruct (Q.min_spec 5 raw) as [[A1 A2]|[A1 A2]];
    destruct (Q.max_spec 1 (Qmin 5 raw)) as [[B1 B2]|[B1 B2]];
    rewrite B2; rewrite ?A2 in *; lra.
Qed.

Lemma rangeInput_inside (z : Q) :
  1 <= z <= 5 -> rangeInput minScale maxScale z == z.
Proof.
  intros [H1 H2]. unfold rangeInput, minScale, maxScale.
  destruct (Q.min_spec 5 z) as [[A1 A2]|[A1 A2]];
    destruct (Q.max_spec 1 (Qmin 5 z)) as [[B1 B2]|[B1 B2]];
    rewrite B2; rewrite ?A2 in *; lra.
Qed.

(** A gesture whose zoom, if it sets one directly, is in the range of the
    slider. *)
Definition zoomInRange (g : Gesture) : Prop :=
  match g with
  | SetFilters z => minScale <= z <= maxScale
  | _ => True
  end.

(** The zoom never leaves the range of the slider, 1 to 5, as long as the
    filters that are set directly (reset, stored preferences) carry a zoom of
    that range. *)
Theorem zoom_stays_in_range (gs : list Gesture) :
  Forall zoomInRange gs ->
  minScale <= zoom (run gs initialView) <= maxScale.
Proof.
  induction gs as [|g gs IH] using rev_ind.
  - intros _. cbn. unfold minScale, maxScale. lra.
  - intros Hall. apply Forall_app in Hall as [Hgs Hg].
    apply Forall_cons in Hg as [Hg _].
    rewrite view_run_snoc. specialize (IH Hgs).
    destruct g; cbn [step]; try exact IH.
    + cbn. apply rangeInput_bounds.
    + exact Hg.
    + unfold handleMouseDown.
      now destruct (negb (Qle_bool _ 1) && negb _).
    + unfold handleMouseMove. destruct (isDraggingRef _); [|exact IH].
      now destruct video as [[w h]|].
Qed.

Lemma zoom_stays_in_range_witness :
  minScale
  <= zoom (run [ZoomSlider 9; SetFilters 1; ZoomSlider (1 # 2)] initialView)
  <= maxScale.
Proof.
  apply zoom_stays_in_range.
  repeat constructor; vm_compute; discriminate.
Defined.

(** Lowering the zoom does not pull the pan back inside the new bound: a
    pan pushed to the bound of zoom [z1] is still there after the slider has
    gone down to a smaller zoom [z2] above 1, outside the bound that [z2]
    allows, until the next pan request or drag. *)
Theorem zoom_out_keeps_pan (z1 z2 far : Q) :
  1 < z2 -> z2 < z1 -> z1 <= 5 -> (z1 - 1) / 2 <= far ->
  let v := run [ZoomSlider z1; PanChange far 0; ZoomSlider z2] initialView in
  zoom v == z2 /\
  num_eq (px (pan v)) (Fin ((z1 - 1) / 2)) /\
  ~ within (zoom v) (pan v).
Proof.
  intros H2 H12 H1 Hfar. cbn zeta.
  set (Z1 := rangeInput minScale maxScale z1).
  set (Z2 := rangeInput minScale maxScale z2).
  assert (E1 : Z1 == z1) by (apply rangeInput_inside; lra).
  assert (E2 : Z2 == z2) by (apply rangeInput_inside; lra).
  assert (Hb1 : Qle_bool Z1 1 = false) by (apply Qle_bool_false; lra).
  assert (Hn2 : Qeq_bool Z2 1 = false).
  { destruct (Qeq_bool Z2 1) eqn:E; [|reflexivity].
    apply Qeq_bool_iff in E. lra. }
  assert (Hrun : run [ZoomSlider z1; PanChange far 0; ZoomSlider z2]
                   initialView
                 = setZoom Z2
                     (withPan (handlePanChange Z1 (panResetEffect Z1 origin)
                                 far 0)
                        (setZoom Z1 initialView))) by reflexivity.
  rewrite Hrun. clear Hrun.
  set (X := withPan (handlePanChange Z1 (panResetEffect Z1 origin) far 0)
              (setZoom Z1 initialView)).
  assert (Hz : zoom (setZoom Z2 X) = Z2) by reflexivity.
  assert (Hp : pan (setZoom Z2 X) = pan X).
  { unfold setZoom. cbn [pan]. unfold panResetEffect. now rewrite Hn2. }
  assert (HpX : pan X = {| px := Fin (clampQ ((Z1 - 1) / 2) far);
                           py := Fin (clampQ ((Z1 - 1) / 2) 0) |}).
  { unfold X. cbn [withPan pan]. unfold handlePanChange. now rewrite Hb1. }
  rewrite Hz, Hp, HpX. cbn [px py num_eq].
  assert (Hm1 : (Z1 - 1) / 2 == (z1 - 1) / 2).
  { change ((Z1 - 1) / 2) with ((Z1 - 1) * (1 # 2)).
    change ((z1 - 1) / 2) with ((z1 - 1) * (1 # 2)). lra. }
  assert (Hpx : clampQ ((Z1 - 1) / 2) far == (z1 - 1) / 2).
  { destruct (clamp_bounds ((Z1 - 1) / 2) far) as [B1 B2].
    { rewrite Hm1. apply maxPan_nonneg. lra. }
    assert (Hge : (Z1 - 1) / 2 <= clampQ ((Z1 - 1) / 2) far).
    { unfold clampQ.
      destruct (Q.min_spec ((Z1 - 1) / 2) far) as [[A1 A2]|[A1 A2]];
        destruct (Q.max_spec (- ((Z1 - 1) / 2)) (Qmin ((Z1 - 1) / 2) far))
          as [[C1 C2]|[C1 C2]];
        rewrite C2; rewrite ?A2 in *; lra. }
    lra. }
  split; [exact E2|]. split; [exact Hpx|].
  unfold within. cbn [px py bounded]. intros [Hw _].
  apply Qabs_Qle_condition in Hw as [_ Hw]. rewrite Hpx in Hw.
  change ((Z2 - 1) / 2) with ((Z2 - 1) * (1 # 2)) in Hw.
  change ((z1 - 1) / 2) with ((z1 - 1) * (1 # 2)) in Hw. lra.
Qed.

Lemma zoom_out_keeps_pan_witness :
  ~ within (zoom (run [ZoomSlider 4; PanChange 9 0; ZoomSlider 2] initialView))
           (pan (run [ZoomSlider 4; PanChange 9 0; ZoomSlider 2]
                     initialView)).
Proof.
  refine (proj2 (proj2 (zoom_out_keeps_pan 4 2 9 _ _ _ _)));
    vm_compute; first [reflexivity|discriminate].
Defined.

End ViewFacts.

(* ===================================================================== *)
(** * The control panel ([ControlPanel.jsx]) *)
(* ===================================================================== *)

Module Controls.
Import Settings.

(** The keys the sliders write. *)
Inductive NumberKey : Type :=
| key_zoom | key_brightness | key_contrast | key_saturate
| key_sepia | key_invert | key_emboss | key_sharpen.

(** The keys the toggles and check boxes write. *)
Inductive FlagKey : Type :=
| key_edgeDetection | key_falseColor | key_grid | key_crosshair.

#[global] Instance NumberKey_eq_dec : EqDecision NumberKey.
Proof. solve_decision. Defined.

#[global] Instance FlagKey_eq_dec : EqDecision FlagKey.
Proof. solve_decision. Defined.

(** [updateFilter(key, value)] is [setFilters(prev => ({ ...prev, [key]:
    value }))]; a slider passes the number it parsed, a toggle passes a
    boolean. *)
Definition updateNumber (key : NumberKey) (value : Q) (prev : Filters)
  : Filters :=
  match key with
  | key_zoom =>
      mkFilters value (brightness prev) (contrast prev) (saturate prev)
        (sepia prev) (invert prev) (edgeDetection prev) (falseColor prev)
        (emboss prev) (sharpen prev) (grid prev) (crosshair prev)
  | key_brightness =>
      mkFilters (f_zoom prev) value (contrast prev) (saturate prev)
        (sepia prev) (invert prev) (edgeDetection prev) (falseColor prev)
        (emboss prev) (sharpen prev) (grid prev) (crosshair prev)
  | key_contrast =>
      mkFilters (f_zoom prev) (brightness prev) value (saturate prev)
        (sepia prev) (invert prev) (edgeDetection prev) (falseColor prev)
        (emboss prev) (sharpen prev) (grid prev) (crosshair prev)
  | key_saturate =>
      mkFilters (f_zoom prev) (brightness prev) (contrast prev) value
        (sepia prev) (invert prev) (edgeDetection prev) (falseColor prev)
        (emboss prev) (sharpen prev) (grid prev) (crosshair prev)
  | key_sepia =>
      mkFilters (f_zoom prev) (brightness prev) (contrast prev)
        (saturate prev) value (invert prev) (edgeDetection prev)
        (falseColor prev) (emboss prev) (sharpen prev) (grid prev)
        (crosshair prev)
  | key_invert =>
      mkFilters (f_zoom prev) (brightness prev) (contrast prev)
        (saturate prev) (sepia prev) value (edgeDetection prev)
        (falseColor prev) (emboss prev) (sharpen prev) (grid prev)
        (crosshair prev)
  | key_emboss =>
      mkFilters (f_zoom prev) (brightness prev) (contrast prev)
        (saturate prev) (sepia prev) (invert prev) (edgeDetection prev)
        (falseColor prev) value (sharpen prev) (grid prev) (crosshair prev)
  | key_sharpen =>
      mkFilters (f_zoom prev) (brightness prev) (contrast prev)
        (saturate prev) (sepia prev) (invert prev) (edgeDetection prev)
        (falseColor prev) (emboss prev) value (grid prev) (crosshair prev)
  end.

Definition updateFlag (key : FlagKey) (value : bool) (prev : Filters)
  : Filters :=
  match key with
  | key_edgeDetection =>
      mkFilters (f_zoom prev) (brightness prev) (contrast prev)
        (saturate prev) (sepia prev) (invert prev) value (falseColor prev)
        (emboss prev) (sharpen prev) (grid prev) (crosshair prev)
  | key_falseColor =>
      mkFilters (f_zoom prev) (brightness prev) (contrast prev)
        (saturate prev) (sepia prev) (invert prev) (edgeDetection prev) value
        (emboss prev) (sharpen prev) (grid prev) (crosshair prev)
  | key_grid =>
      mkFilters (f_zoom prev) (brightness prev) (contrast prev)
        (saturate prev) (sepia prev) (invert prev) (edgeDetection prev)
        (falseColor prev) (emboss prev) (sharpen prev) value (crosshair prev)
  | key_crosshair =>
      mkFilters (f_zoom prev) (brightness prev) (contrast prev)
        (saturate prev) (sepia prev) (invert prev) (edgeDetection prev)
        (falseColor prev) (emboss prev) (sharpen prev) (grid prev) value
  end.

(** [filters[key]] *)
Definition number (key : NumberKey) (f : Filters) : Q :=
  match key with
  | key_zoom => f_zoom f
  | key_brightness => brightness f
  | key_contrast => contrast f
  | key_saturate => saturate f
  | key_sepia => sepia f
  | key_invert => invert f
  | key_emboss => emboss f
  | key_sharpen => sharpen f
  end.

Definition flag (key : FlagKey) (f : Filters) : bool :=
  match key with
  | key_edgeDetection => edgeDetection f
  | key_falseColor => falseColor f
  | key_grid => grid f
  | key_crosshair => crosshair f
  end.

(** The [Toggle] component: a click hands [!checked] to [onChange]. *)
Definition clickToggle (key : FlagKey) (f : Filters) : Filters :=
  updateFlag key (negb (flag key f)) f.

(** A control writes its own key and no other: after a slider has moved,
    its key holds the new number and every other number and every flag is
    what it was; a click on a toggle flips its flag and leaves all numbers
    and the other flags, and a second click undoes the first. *)
Theorem controls_write_their_own_key (f : Filters) :
  (forall k v, number k (updateNumber k v f) = v) /\
  (forall k k' v, k <> k' -> number k' (updateNumber k v f) = number k' f) /\
  (forall k k' v, flag k' (updateNumber k v f) = flag k' f) /\
  (forall k, flag k (clickToggle k f) = negb (flag k f)) /\
  (forall k k', k <> k' -> flag k' (clickToggle k f) = flag k' f) /\
  (forall k k', number k' (clickToggle k f) = number k' f) /\
  (forall k, clickToggle k (clickToggle k f) = f).
Proof.
  split; [|split; [|split; [|split; [|split; [|split]]]]].
  - intros k v. now destruct k.
  - intros k k' v Hne. destruct k, k'; try reflexivity; contradiction.
  - intros k k' v. now destruct k, k'.
  - intros k. now destruct k.
  - intros k k' Hne. destruct k, k'; try reflexivity; contradiction.
  - intros k k'. now destruct k, k'.
  - intros k. destruct f, k; cbn; now rewrite negb_involutive.
Qed.

(** The style with another [transition]. *)
Definition withTransition (t : Transition) (s : VideoStyle) : VideoStyle :=
  {| css_aspectRatio := css_aspectRatio s;
     css_translate := css_translate s;
     css_scale := css_scale s;
     css_brightness := css_brightness s;
     css_contrast := css_contrast s;
     css_saturate := css_saturate s;
     css_sepia := css_sepia s;
     css_invert := css_invert s;
     css_edgeDetection := css_edgeDetection s;
     css_falseColor := css_falseColor s;
     css_emboss := css_emboss s;
     css_sharpen := css_sharpen s;
     css_transition := t |}.

(** The overlays and the picture.  A change of the grid or of the crosshair
    makes the style be computed again, with [isDraggingRef.current] as it is
    then ([dragging']) instead of as it was at the computation before
    ([dragging]): every property keeps its value but [transition], which
    follows the drag flag; the style is the same exactly when the flag is.
    No control other than the zoom slider changes the scale or the
    translation of the picture, whatever the drag flags. *)
Theorem style_ignores_other_controls (f : Filters) (aspect : string)
    (pan : Transform.Pan) (dragging dragging' : bool) :
  (forall k b,
      k = key_grid \/ k = key_crosshair ->
      videoStyle (updateFlag k b f) aspect pan dragging'
      = withTransition
          (if dragging' then transition_none else transition_eased)
          (videoStyle f aspect pan dragging) /\
      (videoStyle (updateFlag k b f) aspect pan dragging'
       = videoStyle f aspect pan dragging <-> dragging' = dragging)) /\
  (forall k v,
      k <> key_zoom ->
      css_scale (videoStyle (updateNumber k v f) aspect pan dragging')
      = css_scale (videoStyle f aspect pan dragging) /\
      css_translate (videoStyle (updateNumber k v f) aspect pan dragging')
      = css_translate (videoStyle f aspect pan dragging)) /\
  (forall k b,
      css_scale (videoStyle (updateFlag k b f) aspect pan dragging')
      = css_scale (videoStyle f aspect pan dragging) /\
      css_translate (videoStyle (updateFlag k b f) aspect pan dragging')
      = css_translate (videoStyle f aspect pan dragging)).
Proof.
  split; [|split].
  - intros k b Hk. split.
    + destruct Hk as [-> | ->]; reflexivity.
    + split.
      * intros H. apply (f_equal css_transition) in H.
        destruct Hk as [-> | ->]; cbn in H;
          destruct dragging, dragging'; try reflexivity; discriminate.
      * intros ->. destruct Hk as [-> | ->]; reflexivity.
  - intros k v Hk. destruct k; try contradiction; split; reflexivity.
  - intros k b. destruct k; split; reflexivity.
Qed.

End Controls.

(* ===================================================================== *)
(** * Captures and the compare view ([App.jsx]) *)
(* ===================================================================== *)

Module Capture.
Import Camera.

Local Open Scope nat_scope.

Inductive MediaType : Type := image | video.

(** What a gallery item points to: the data URL of a photo or the object
    URL of a recorded clip. *)
Inductive MediaUrl : Type :=
| PhotoUrl (photo : DataURL)
| VideoUrl (clip : Blob).

Record MediaItem : Type := mkItem {
  item_type : MediaType;
  url : MediaUrl;
  date : nat
}.

(** The part of the [App] state that captures write. *)
Record Media : Type := mkMedia {
  mediaItems : list MediaItem;
  splitMode : bool;
  frozenFrame : option DataURL;
  isFlashing : bool
}.

Definition initialMedia : Media :=
  {| mediaItems := []; splitMode := false; frozenFrame := None;
     isFlashing := false |}.

(** [handleTakePhoto]; [videoRef] is [videoRef.current], [now] is
    [new Date()]. *)
Definition handleTakePhoto (videoRef : option HTMLVideoElement) (now : nat)
    (m : Media) : Media :=
  match videoRef with
  | Some v =>
      match takePhoto (Some v) with
      | Some photoUrl =>
          {| mediaItems :=
               {| item_type := image; url := PhotoUrl photoUrl; date := now |}
               :: mediaItems m;
             splitMode := splitMode m; frozenFrame := frozenFrame m;
             isFlashing := true |}
      | None =>
          {| mediaItems := mediaItems m; splitMode := splitMode m;
             frozenFrame := frozenFrame m; isFlashing := true |}
      end
  | None => m
  end.

(** The 150 ms timer of the flash. *)
Definition flashEnds (m : Media) : Media :=
  {| mediaItems := mediaItems m; splitMode := splitMode m;
     frozenFrame := frozenFrame m; isFlashing := false |}.

(** The rest of [handleToggleRecord] once [stopRecording] has resolved with
    [videoUrl]. *)
Definition clipResolved (videoUrl : option Blob) (now : nat) (m : Media)
  : Media :=
  match videoUrl with
  | Some clip =>
      {| mediaItems :=
           {| item_type := video; url := VideoUrl clip; date := now |}
           :: mediaItems m;
         splitMode := splitMode m; frozenFrame := frozenFrame m;
         isFlashing := isFlashing m |}
  | None => m
  end.

(** [handleToggleSplit] *)
Definition handleToggleSplit (videoRef : option HTMLVideoElement) (m : Media)
  : Media :=
  if splitMode m then
    {| mediaItems := mediaItems m; splitMode := false; frozenFrame := None;
       isFlashing := isFlashing m |}
  else
    match videoRef with
    | Some v =>
        {| mediaItems := mediaItems m; splitMode := true;
           frozenFrame := takePhoto (Some v); isFlashing := isFlashing m |}
    | None => m
    end.

Inductive Press : Type :=
| Snap (videoRef : option HTMLVideoElement) (now : nat)
| FlashEnds
| ClipResolved (videoUrl : option Blob) (now : nat)
| Compare (videoRef : option HTMLVideoElement).

Definition press (x : Press) (m : Media) : Media :=
  match x with
  | Snap videoRef now => handleTakePhoto videoRef now m
  | FlashEnds => flashEnds m
  | ClipResolved videoUrl now => clipResolved videoUrl now m
  | Compare videoRef => handleToggleSplit videoRef m
  end.

Definition presses (xs : list Press) (m : Media) : Media :=
  fold_left (fun acc x => press x acc) xs m.

(** A press that yields a gallery item. *)
Definition captures (x : Press) : bool :=
  match x with
  | Snap (Some _) _ | ClipResolved (Some _) _ => true
  | _ => false
  end.

Lemma presses_snoc (xs : list Press) (x : Press) (m : Media) :
  presses (xs ++ [x]) m = press x (presses xs m).
Proof. unfold presses. now rewrite fold_left_app. Qed.

Lemma takePhoto_some (v : HTMLVideoElement) :
  exists photo, takePhoto (Some v) = Some photo.
Proof. eexists. reflexivity. Qed.

(** The canvas [takePhoto] draws on. *)
Definition snapshotCanvas (v : HTMLVideoElement) : Canvas :=
  drawImage v 0 0
    (setHeight (videoHeight v) (setWidth (videoWidth v) createCanvas)).

Lemma takePhoto_frame (v : HTMLVideoElement) :
  0 < videoWidth v -> 0 < videoHeight v ->
  takePhoto (Some v) = Some (Encoded "image/png" (snapshotCanvas v)).
Proof.
  intros Hw Hh. unfold takePhoto, toDataURL, snapshotCanvas.
  cbn [width height drawImage setHeight setWidth createCanvas].
  assert (Hw0 : (videoWidth v =? 0) = false) by (apply Nat.eqb_neq; lia).
  assert (Hh0 : (videoHeight v =? 0) = false) by (apply Nat.eqb_neq; lia).
  now rewrite Hw0, Hh0.
Qed.

Lemma takePhoto_blank (v : HTMLVideoElement) :
  videoWidth v = 0 \/ videoHeight v = 0 -> takePhoto (Some v) = Some NoData.
Proof.
  intros Hzero. unfold takePhoto, toDataURL.
  cbn [width height drawImage setHeight setWidth createCanvas].
  destruct Hzero as [-> | ->]; [reflexivity|]. now rewrite orb_true_r.
Qed.

(** The compare view and its reference: in every state that presses can
    reach, compare mode is on exactly when a frozen frame is held.
    Entering it over a video element that has a frame freezes a PNG as wide
    and as high as the video; over an element without a frame it still
    enters, and the reference held is the empty ['data:,'].  With no video
    element the press does nothing. *)
Theorem compare_has_reference (xs : list Press) :
  let m := presses xs initialMedia in
  (splitMode m = true <-> is_Some (frozenFrame m)) /\
  (forall v,
      splitMode m = false ->
      let m' := press (Compare (Some v)) m in
      splitMode m' = true /\
      (0 < videoWidth v -> 0 < videoHeight v ->
       exists c,
         frozenFrame m' = Some (Encoded "image/png" c) /\
         width c = videoWidth v /\
         height c = videoHeight v) /\
      (videoWidth v = 0 \/ videoHeight v = 0 ->
       frozenFrame m' = Some NoData)) /\
  (splitMode m = false ->
     press (Compare None) m = m).
Proof.
  cbn zeta.
  assert (Inv : splitMode (presses xs initialMedia) = true
                <-> is_Some (frozenFrame (presses xs initialMedia))).
  { induction xs as [|x xs IH] using rev_ind.
    - cbn. split; [discriminate|]. intros [? [=]].
    - rewrite presses_snoc. set (m := presses xs initialMedia) in *.
      destruct x as [videoRef now| |videoUrl now|videoRef]; cbn [press].
      + unfold handleTakePhoto. destruct videoRef as [v|]; [|exact IH].
        destruct (takePhoto_some v) as [photo ->]. exact IH.
      + exact IH.
      + unfold clipResolved. destruct videoUrl; [|exact IH]. exact IH.
      + unfold handleToggleSplit. destruct (splitMode m) eqn:Hs.
        * cbn. split; [discriminate|]. intros [? [=]].
        * destruct videoRef as [v|].
          -- cbn [splitMode frozenFrame].
             destruct (takePhoto_some v) as [photo ->].
             split; [eauto|reflexivity].
          -- rewrite Hs. exact IH. }
  split; [exact Inv|]. split.
  - intros v Hs. cbn [press]. unfold handleToggleSplit. rewrite Hs.
    cbn [splitMode frozenFrame]. split; [reflexivity|]. split.
    + intros Hw Hh. exists (snapshotCanvas v).
      split; [now apply takePhoto_frame|]. split; reflexivity.
    + apply takePhoto_blank.
  - intros Hs. cbn [press]. unfold handleToggleSplit. now rewrite Hs.
Qed.

(** The gallery only grows, newest first: whatever is pressed, the items
    that were there stay at the end in their order, and the number of items
    in front of them is the number of snaps that had a video element plus the
    number of recordings that resolved with a clip. *)
Theorem gallery_only_grows (xs : list Press) (m : Media) :
  exists newer,
    mediaItems (presses xs m) = newer ++ mediaItems m /\
    length newer = length (List.filter captures xs).
Proof.
  revert m. induction xs as [|x xs IH]; intros m.
  - exists []. split; reflexivity.
  - change (presses (x :: xs) m) with (presses xs (press x m)).
    destruct (IH (press x m)) as (newer & Hn & Hl).
    destruct x as [[v|] now| |[clip|] now|videoRef]; cbn [press] in *.
    + exists (newer ++ [mkItem image (PhotoUrl (toDataURL "image/png"
                 (drawImage v 0 0
                    (setHeight (videoHeight v)
                       (setWidth (videoWidth v) createCanvas))))) now]).
      split.
      * rewrite Hn. cbn. now rewrite <- app_assoc.
      * rewrite length_app, Hl. cbn. lia.
    + exists newer. auto.
    + exists newer. auto.
    + exists (newer ++ [mkItem video (VideoUrl clip) now]). split.
      * rewrite Hn. cbn. now rewrite <- app_assoc.
      * rewrite length_app, Hl. cbn. lia.
    + exists newer. auto.
    + exists newer. split; [|exact Hl]. rewrite Hn. f_equal.
      unfold handleToggleSplit.
      destruct (splitMode m); [reflexivity|]. now destruct videoRef.
Qed.

End Capture.
